(** * The uORB <-> engine relay of the Pictorus PX4 module

    A shallow embedding of [pictorus_module.cpp]: the RAII wrappers
    [OrbSubscription] and [OrbPublication], the two fixed pools of
    [InputManager] and [OutputManager], the per-cycle relays
    [process_input_messages] and [process_output_messages], and the body of
    the loop of [PictorusModule::run]; then the rest of the module: [run]
    as a whole with the destructors it runs, the command line
    ([instantiate], [custom_command], [print_usage]) and
    [ffi_error_to_string].

    The uORB bus, the Rust engine and the PX4 runtime are external: they are
    an interface ([Platform]) over an abstract world state.  Every call that
    crosses that interface is recorded, with its result, in a trace. *)

From Stdlib Require Import ZArith NArith Lia.
From Stdlib.Strings Require Import Byte.
From Stdlib.Strings Require String.
From stdpp Require Import base decidable option list numbers.

Local Open Scope Z_scope.

(** ** Constants and plain data *)

Definition MAX_MESSAGES : nat := 16.
Definition MAX_MESSAGE_SIZE : N := 1024.
Definition LOOP_INTERVAL_US : Z := 10000.

(** [FfiError] of [rust_interface.h]. *)
Inductive FfiError :=
| FFI_SUCCESS
| FFI_MESSAGE_LENGTH_MISMATCH
| FFI_UNADVERTISED_MESSAGE
| FFI_UNSUBSCRIBED_MESSAGE
| FFI_INVALID_MESSAGE_INDEX
| FFI_NULL_ARGUMENT.

Global Instance FfiError_eq_dec : EqDecision FfiError.
Proof. solve_decision. Defined.

(** [error != FFI_SUCCESS] *)
Definition ffi_failed (e : FfiError) : bool :=
  match e with FFI_SUCCESS => false | _ => true end.

(** [orb_id_t] is a pointer to constant [orb_metadata]: the address is the
    identity ([0] is [nullptr]) and [o_size] is read through the platform
    ([o_name] only feeds the log lines). *)
Definition orb_id_t := N.
Definition nullptr : N := 0%N.
Definition orb_advert_t := N.
Bind Scope N_scope with orb_id_t orb_advert_t.

Definition bytes := list byte.

(** [PX4_ERR] and [PX4_INFO] lines of the relay, one constructor per call
    site, with the arguments the format string prints. *)
Inductive px4_log :=
| ERR_subscribe
| ERR_advertise
| ERR_input_count (e : FfiError)
| ERR_input_id (i : N) (e : FfiError)
| ERR_input_size (id : orb_id_t) (message_size : N)
| ERR_write_input (id : orb_id_t) (e : FfiError)
| INFO_subscribing (id : orb_id_t)
| ERR_too_many_subscriptions
| ERR_output_count (e : FfiError)
| ERR_output_id (i : N) (e : FfiError)
| ERR_update_status (id : orb_id_t) (e : FfiError)
| ERR_output_size (id : orb_id_t) (message_size : N)
| ERR_read_output (id : orb_id_t) (e : FfiError)
| ERR_size_mismatch (id : orb_id_t) (expected got : N)
| INFO_advertising (id : orb_id_t)
| ERR_too_many_publications.

(** One entry per call that leaves the module, arguments first, results
    last.  [Ev_orb_check] also carries the topic of the subscription object
    that makes the call ([id_]); uORB itself only sees the handle. *)
Inductive event :=
| Ev_orb_subscribe (id : orb_id_t) (ret : Z)
| Ev_orb_unsubscribe (handle : Z)
| Ev_orb_check (id : orb_id_t) (handle : Z) (ret : Z) (updated : bool)
| Ev_orb_copy (id : orb_id_t) (handle : Z) (ret : Z)
| Ev_orb_advertise (id : orb_id_t) (ret : orb_advert_t)
| Ev_orb_publish (id : orb_id_t) (handle : orb_advert_t) (ret : Z)
| Ev_input_count (ret : FfiError) (count : N)
| Ev_input_id (index : N) (ret : FfiError) (id : orb_id_t)
| Ev_write_input (id : orb_id_t) (len : N) (ret : FfiError)
| Ev_output_count (ret : FfiError) (count : N)
| Ev_output_id (index : N) (ret : FfiError) (id : orb_id_t)
| Ev_has_update (id : orb_id_t) (ret : FfiError) (has_update : bool)
| Ev_read_output (id : orb_id_t) (buffer_size : N) (ret : FfiError) (bytes_written : N)
| Ev_time (now : Z)
| Ev_app_update (app_time : Z)
| Ev_usleep (usec : Z)
| Ev_parameter_updated (updated : bool)
| Ev_parameter_copy
| Ev_updateParams
| Ev_log (l : px4_log).

(** ** The external interface

    Every operation takes the world and returns its results and the next
    world.  Out-parameters are returned: the value the variable holds after
    the call, given the initial value the caller wrote. *)
Class Platform (W : Type) := {
  (** build: whether [assert] is compiled out *)
  NDEBUG : bool;
  (** width in bits of [useconds_t], the parameter type of [px4_usleep] *)
  useconds_bits : Z;
  (** [orb_metadata] *)
  o_size : orb_id_t -> N;
  (** uORB *)
  orb_subscribe : orb_id_t -> W -> Z * W;
  orb_unsubscribe : Z -> W -> W;
  orb_check : Z -> W -> (Z * bool) * W;
  orb_copy : orb_id_t -> Z -> W -> (Z * bytes) * W;
  orb_advertise : orb_id_t -> bytes -> W -> orb_advert_t * W;
  orb_publish : orb_id_t -> orb_advert_t -> bytes -> W -> Z * W;
  (** the engine, [rust_interface.h] and [pictorus.h] *)
  rust_get_input_message_count : W -> (FfiError * N) * W;
  rust_get_input_message_id : N -> W -> (FfiError * orb_id_t) * W;
  rust_write_input_message : orb_id_t -> bytes -> N -> W -> FfiError * W;
  rust_get_output_message_count : W -> (FfiError * N) * W;
  rust_get_output_message_id : N -> W -> (FfiError * orb_id_t) * W;
  rust_output_message_has_update : orb_id_t -> W -> (FfiError * bool) * W;
  rust_read_output_message : orb_id_t -> N -> W -> (FfiError * bytes * N) * W;
  app_interface_update : Z -> W -> W;
  (** PX4 runtime: the clock, the sleep, and what [parameters_update]
      calls on [_parameter_update_sub] and [ModuleParams] *)
  hrt_absolute_time : W -> Z * W;
  px4_usleep : Z -> W -> W;
  parameter_update_updated : W -> bool * W;
  parameter_update_copy : W -> W;
  updateParams : W -> W;
}.

(** ** A state-and-trace monad for the module's code *)

Definition io (W A : Type) : Type := W -> A * W * list event.

Definition ret {W A} (a : A) : io W A := fun w => (a, w, []).

Definition bind {W A B} (m : io W A) (k : A -> io W B) : io W B :=
  fun w =>
    let '(a, w1, t1) := m w in
    let '(b, w2, t2) := k a w1 in
    (b, w2, t1 ++ t2).

Declare Scope io_scope.
Delimit Scope io_scope with io.
Notation "x <- m ;; k" := (bind m (fun x => k))
  (at level 20, m at level 99, k at level 200, only parsing) : io_scope.
Notation "' p <- m ;; k" := (bind m (fun x => let 'p := x in k))
  (at level 20, p pattern, m at level 99, k at level 200, only parsing) : io_scope.
Notation "m ;; k" := (bind m (fun _ => k))
  (at level 100, k at level 200, only parsing, right associativity) : io_scope.
Local Open Scope io_scope.

Definition trace_of {W A} (r : A * W * list event) : list event := snd r.
Definition value_of {W A} (r : A * W * list event) : A := fst (fst r).

(** The static [uint8_t buffer[MAX_MESSAGE_SIZE]]: a callee that writes
    [data] through the pointer overwrites the front of the array. *)
Definition store (data buffer : bytes) : bytes :=
  data ++ drop (length data) buffer.

Definition zeroed_buffer : bytes := replicate (N.to_nat MAX_MESSAGE_SIZE) x00.

Section Calls.
Context {W : Type} `{Platform W}.

(** *** Calls across the interface *)

Definition log (l : px4_log) : io W unit := fun w => (tt, w, [Ev_log l]).

Definition call_orb_subscribe (id : orb_id_t) : io W Z :=
  fun w => let '(h, w') := orb_subscribe id w in (h, w', [Ev_orb_subscribe id h]).

Definition call_orb_unsubscribe (h : Z) : io W unit :=
  fun w => (tt, orb_unsubscribe h w, [Ev_orb_unsubscribe h]).

Definition call_orb_check (id : orb_id_t) (h : Z) : io W (Z * bool) :=
  fun w => let '(rc, updated, w') := orb_check h w in
           ((rc, updated), w', [Ev_orb_check id h rc updated]).

Definition call_orb_copy (id : orb_id_t) (h : Z) : io W (Z * bytes) :=
  fun w => let '(rc, data, w') := orb_copy id h w in
           ((rc, data), w', [Ev_orb_copy id h rc]).

Definition call_orb_advertise (id : orb_id_t) (data : bytes) : io W orb_advert_t :=
  fun w => let '(h, w') := orb_advertise id data w in (h, w', [Ev_orb_advertise id h]).

Definition call_orb_publish (id : orb_id_t) (h : orb_advert_t) (data : bytes)
  : io W Z :=
  fun w => let '(rc, w') := orb_publish id h data w in (rc, w', [Ev_orb_publish id h rc]).

Definition call_input_count : io W (FfiError * N) :=
  fun w => let '(e, n, w') := rust_get_input_message_count w in
           ((e, n), w', [Ev_input_count e n]).

Definition call_input_id (i : N) : io W (FfiError * orb_id_t) :=
  fun w => let '(e, id, w') := rust_get_input_message_id i w in
           ((e, id), w', [Ev_input_id i e id]).

Definition call_write_input (id : orb_id_t) (data : bytes) (len : N) : io W FfiError :=
  fun w => let '(e, w') := rust_write_input_message id data len w in
           (e, w', [Ev_write_input id len e]).

Definition call_output_count : io W (FfiError * N) :=
  fun w => let '(e, n, w') := rust_get_output_message_count w in
           ((e, n), w', [Ev_output_count e n]).

Definition call_output_id (i : N) : io W (FfiError * orb_id_t) :=
  fun w => let '(e, id, w') := rust_get_output_message_id i w in
           ((e, id), w', [Ev_output_id i e id]).

Definition call_has_update (id : orb_id_t) : io W (FfiError * bool) :=
  fun w => let '(e, b, w') := rust_output_message_has_update id w in
           ((e, b), w', [Ev_has_update id e b]).

Definition call_read_output (id : orb_id_t) (buffer_size : N)
  : io W (FfiError * bytes * N) :=
  fun w => let '(e, data, n, w') := rust_read_output_message id buffer_size w in
           ((e, data, n), w', [Ev_read_output id buffer_size e n]).

Definition call_time : io W Z :=
  fun w => let '(t, w') := hrt_absolute_time w in (t, w', [Ev_time t]).

Definition call_app_update (t : Z) : io W unit :=
  fun w => (tt, app_interface_update t w, [Ev_app_update t]).

Definition call_usleep (usec : Z) : io W unit :=
  fun w => (tt, px4_usleep usec w, [Ev_usleep usec]).

Definition call_parameter_updated : io W bool :=
  fun w => let '(b, w') := parameter_update_updated w in
           (b, w', [Ev_parameter_updated b]).

Definition call_parameter_copy : io W unit :=
  fun w => (tt, parameter_update_copy w, [Ev_parameter_copy]).

Definition call_updateParams : io W unit :=
  fun w => (tt, updateParams w, [Ev_updateParams]).

End Calls.

(** ** The RAII wrappers *)

(** [class OrbSubscription] *)
Module OrbSubscription.

Record t := mk {
  id_ : orb_id_t;
  handle_ : Z;
}.

(** [OrbSubscription() = default], with the members' initialisers *)
Definition defaulted : t := {| id_ := nullptr; handle_ := -1 |}.

Definition is_valid (this : t) : bool := 0 <=? handle_ this.

Section Methods.
Context {W : Type} `{Platform W}.

(** [explicit OrbSubscription(orb_id_t id)] *)
Definition ctor (id : orb_id_t) : io W t :=
  handle <- call_orb_subscribe id ;;
  if handle <? 0 then
    log ERR_subscribe ;;
    ret {| id_ := id; handle_ := -1 |}
  else ret {| id_ := id; handle_ := handle |}.

(** [operator=(OrbSubscription&& other)], for [this != &other]: the new
    value of [*this] and of [other]. *)
Definition move_assign (this other : t)
  : io W (t * t) :=
  (if 0 <=? handle_ this then call_orb_unsubscribe (handle_ this) else ret tt) ;;
  ret ({| id_ := id_ other; handle_ := handle_ other |},
       {| id_ := id_ other; handle_ := -1 |}).

(** [~OrbSubscription] *)
Definition dtor (this : t) : io W unit :=
  if 0 <=? handle_ this then call_orb_unsubscribe (handle_ this) else ret tt.

(** [OrbSubscription::check_updated] *)
Definition check_updated (this : t) : io W bool :=
  if negb (is_valid this) then ret false
  else
    '(rc, updated) <- call_orb_check (id_ this) (handle_ this) ;;
    ret ((0 <=? rc) && updated).

(** [OrbSubscription::copy_data], on the non-null static buffer: the
    result and the buffer afterwards. *)
Definition copy_data (this : t) (buffer : bytes) : io W (bool * bytes) :=
  if negb (is_valid this) then ret (false, buffer)
  else
    '(rc, data) <- call_orb_copy (id_ this) (handle_ this) ;;
    ret (0 <=? rc, store data buffer).

End Methods.

End OrbSubscription.

(** [class OrbPublication] *)
Module OrbPublication.

Record t := mk {
  id_ : orb_id_t;
  handle_ : orb_advert_t;
}.

Definition defaulted : t := {| id_ := nullptr; handle_ := nullptr |}.

Definition is_valid (this : t) : bool := negb (N.eqb (handle_ this) nullptr).

Section Methods.
Context {W : Type} `{Platform W}.

(** [explicit OrbPublication(orb_id_t id, const void* initial_data)] *)
Definition ctor (id : orb_id_t) (initial_data : bytes)
  : io W t :=
  handle <- call_orb_advertise id initial_data ;;
  if N.eqb handle nullptr then
    log ERR_advertise ;;
    ret {| id_ := id; handle_ := handle |}
  else ret {| id_ := id; handle_ := handle |}.

(** [OrbPublication::publish], on the non-null static buffer *)
Definition publish (this : t) (data : bytes) : io W bool :=
  if negb (is_valid this) then ret false
  else
    rc <- call_orb_publish (id_ this) (handle_ this) data ;;
    ret (0 <=? rc).

End Methods.

End OrbPublication.

(** What [ensure_subscription] returns a reference to. *)
Inductive sub_ref :=
| Sub_slot (i : nat)
| Sub_invalid.

Inductive pub_ref :=
| Pub_slot (i : nat)
| Pub_invalid.

(** The function-local [static OrbSubscription invalid_sub] and
    [static OrbPublication invalid_pub]. *)
Definition invalid_sub : OrbSubscription.t := OrbSubscription.defaulted.
Definition invalid_pub : OrbPublication.t := OrbPublication.defaulted.

Definition deref_sub (r : sub_ref) (subscriptions_ : list OrbSubscription.t)
  : OrbSubscription.t :=
  match r with
  | Sub_slot i => default invalid_sub (subscriptions_ !! i)
  | Sub_invalid => invalid_sub
  end.

Definition deref_pub (r : pub_ref) (publications_ : list OrbPublication.t)
  : OrbPublication.t :=
  match r with
  | Pub_slot i => default invalid_pub (publications_ !! i)
  | Pub_invalid => invalid_pub
  end.

(** [InputManager]: the array [subscriptions_] and the static buffer of
    [process_input_messages]. *)
Record InputManager := {
  subscriptions_ : list OrbSubscription.t;
  input_buffer : bytes;
}.

(** [OutputManager]: the array [publications_] and the static buffer of
    [process_output_messages]. *)
Record OutputManager := {
  publications_ : list OrbPublication.t;
  output_buffer : bytes;
}.

Definition InputManager_new : InputManager :=
  {| subscriptions_ := replicate MAX_MESSAGES OrbSubscription.defaulted;
     input_buffer := zeroed_buffer |}.

Definition OutputManager_new : OutputManager :=
  {| publications_ := replicate MAX_MESSAGES OrbPublication.defaulted;
     output_buffer := zeroed_buffer |}.

(** A failed [assert] aborts the process. *)
Inductive outcome (A : Type) :=
| Returned (a : A)
| Aborted.
Arguments Returned {A} a.
Arguments Aborted {A}.

Section Module.
Context {W : Type} `{Platform W}.

(** *** The pools *)

(** [InputManager::ensure_subscription]: the two scans of the array, then
    the sentinel. *)
Definition ensure_subscription (id : orb_id_t) (subs : list OrbSubscription.t)
  : io W (sub_ref * list OrbSubscription.t) :=
  match list_find (fun s => OrbSubscription.is_valid s
                           && bool_decide (OrbSubscription.id_ s = id)) subs with
  | Some (i, _) => ret (Sub_slot i, subs)
  | None =>
      match list_find (fun s => negb (OrbSubscription.is_valid s)) subs with
      | Some (i, old) =>
          log (INFO_subscribing id) ;;
          tmp <- OrbSubscription.ctor id ;;
          '(new, tmp') <- OrbSubscription.move_assign old tmp ;;
          OrbSubscription.dtor tmp' ;;
          ret (Sub_slot i, <[i := new]> subs)
      | None =>
          log ERR_too_many_subscriptions ;;
          ret (Sub_invalid, subs)
      end
  end.

(** [OutputManager::ensure_publication] *)
Definition ensure_publication (id : orb_id_t) (initial_data : bytes)
    (pubs : list OrbPublication.t)
  : io W (pub_ref * list OrbPublication.t) :=
  match list_find (fun p => OrbPublication.is_valid p
                           && bool_decide (OrbPublication.id_ p = id)) pubs with
  | Some (i, _) => ret (Pub_slot i, pubs)
  | None =>
      match list_find (fun p => negb (OrbPublication.is_valid p)) pubs with
      | Some (i, _) =>
          log (INFO_advertising id) ;;
          tmp <- OrbPublication.ctor id initial_data ;;
          ret (Pub_slot i, <[i := tmp]> pubs)
      | None =>
          log ERR_too_many_publications ;;
          ret (Pub_invalid, pubs)
      end
  end.

(** *** The relays *)

(** [for (size_t i = 0; i < count; ++i)] over a body that may [continue] *)
Definition index_range (count : N) : list N :=
  N.of_nat <$> seq 0 (N.to_nat count).

Fixpoint for_each {S : Type} (body : N -> S -> io W S) (indices : list N) (s : S)
  : io W S :=
  match indices with
  | [] => ret s
  | i :: rest => s' <- body i s ;; for_each body rest s'
  end.

(** [assert(c)]: fails when [c] is false and assertions are compiled in. *)
Definition assert_fails (c : bool) : bool := negb NDEBUG && negb c.

(** Whether the relays' check [message_size > MAX_MESSAGE_SIZE] holds of
    a topic, [message_size] being [id->o_size]. *)
Definition oversize (id : orb_id_t) : bool := (MAX_MESSAGE_SIZE <? o_size id)%N.

(** The body of the loop of [InputManager::process_input_messages]. *)
Definition input_step (i : N) (m : InputManager) : io W InputManager :=
  '(error, message_id) <- call_input_id i ;;
  if ffi_failed error then
    log (ERR_input_id i error) ;;
    ret m
  else
    '(r, subs) <- ensure_subscription message_id (subscriptions_ m) ;;
    let m := {| subscriptions_ := subs; input_buffer := input_buffer m |} in
    let sub := deref_sub r subs in
    updated <- OrbSubscription.check_updated sub ;;
    if updated then
      let message_size := o_size message_id in
      if (MAX_MESSAGE_SIZE <? message_size)%N then
        log (ERR_input_size message_id message_size) ;;
        ret m
      else
        '(copied, buffer) <- OrbSubscription.copy_data sub (input_buffer m) ;;
        let m := {| subscriptions_ := subs; input_buffer := buffer |} in
        if copied then
          result <- call_write_input message_id buffer message_size ;;
          if ffi_failed result then
            log (ERR_write_input message_id result) ;;
            ret m
          else ret m
        else ret m
    else ret m.

(** [InputManager::process_input_messages] *)
Definition process_input_messages (m : InputManager)
  : io W (outcome InputManager) :=
  '(error, input_count) <- call_input_count ;;
  if ffi_failed error then
    log (ERR_input_count error) ;;
    ret (Returned m)
  else if assert_fails (input_count <=? N.of_nat MAX_MESSAGES)%N then
    ret Aborted
  else
    m' <- for_each input_step (index_range input_count) m ;;
    ret (Returned m').

(** The body of the loop of [OutputManager::process_output_messages]. *)
Definition output_step (i : N) (m : OutputManager) : io W OutputManager :=
  '(error, message_id) <- call_output_id i ;;
  if ffi_failed error then
    log (ERR_output_id i error) ;;
    ret m
  else
    '(error, has_update) <- call_has_update message_id ;;
    if ffi_failed error then
      log (ERR_update_status message_id error) ;;
      ret m
    else if has_update then
      let message_size := o_size message_id in
      if (MAX_MESSAGE_SIZE <? message_size)%N then
        log (ERR_output_size message_id message_size) ;;
        ret m
      else
        '(result, data, bytes_read) <- call_read_output message_id MAX_MESSAGE_SIZE ;;
        let buffer := store data (output_buffer m) in
        let m := {| publications_ := publications_ m; output_buffer := buffer |} in
        if negb (ffi_failed result) && (bytes_read =? message_size)%N then
          '(r, pubs) <- ensure_publication message_id buffer (publications_ m) ;;
          let m := {| publications_ := pubs; output_buffer := buffer |} in
          let pub := deref_pub r pubs in
          if OrbPublication.is_valid pub then
            OrbPublication.publish pub buffer ;;
            ret m
          else ret m
        else if ffi_failed result then
          log (ERR_read_output message_id result) ;;
          ret m
        else
          log (ERR_size_mismatch message_id message_size bytes_read) ;;
          ret m
    else ret m.

(** [OutputManager::process_output_messages] *)
Definition process_output_messages (m : OutputManager)
  : io W (outcome OutputManager) :=
  '(error, output_count) <- call_output_count ;;
  if ffi_failed error then
    log (ERR_output_count error) ;;
    ret (Returned m)
  else if assert_fails (output_count <=? N.of_nat MAX_MESSAGES)%N then
    ret Aborted
  else
    m' <- for_each output_step (index_range output_count) m ;;
    ret (Returned m').

(** *** The cycle of [PictorusModule::run] *)

(** [PictorusModule::parameters_update] *)
Definition parameters_update (force : bool) : io W unit :=
  updated <- call_parameter_updated ;;
  if updated || force then
    call_parameter_copy ;;
    call_updateParams
  else ret tt.

(** [hrt_abstime], the type of [loop_start_time] and of
    [hrt_absolute_time()], is PX4's [uint64_t] microsecond count. *)
Definition uint64 (z : Z) : Z := z mod 2 ^ 64.

(** [LOOP_INTERVAL_US - (hrt_absolute_time() - loop_start_time)]: the
    [unsigned int] constant is converted to [uint64_t] and both
    subtractions are modulo [2^64]. *)
Definition loop_remaining (loop_start_time now : Z) : Z :=
  uint64 (LOOP_INTERVAL_US - uint64 (now - loop_start_time)).

(** The value [px4_usleep] receives: the [uint64_t] converted to
    [useconds_t]. *)
Definition usleep_arg (loop_start_time now : Z) : Z :=
  loop_remaining loop_start_time now mod 2 ^ useconds_bits.

(** One pass through the body of [while (!should_exit())]. *)
Definition run_cycle (managers : InputManager * OutputManager)
  : io W (outcome (InputManager * OutputManager)) :=
  loop_start_time <- call_time ;;
  parameters_update false ;;
  r <- process_input_messages (fst managers) ;;
  match r with
  | Aborted => ret Aborted
  | Returned input_manager =>
      now <- call_time ;;
      call_app_update now ;;
      r <- process_output_messages (snd managers) ;;
      match r with
      | Aborted => ret Aborted
      | Returned output_manager =>
          now <- call_time ;;
          call_usleep (usleep_arg loop_start_time now) ;;
          ret (Returned (input_manager, output_manager))
      end
  end.

End Module.


Local Close Scope Z_scope.

(** ** Pools as sets of bindings *)

(** The topics of the valid entries of an array, in slot order. *)
Definition bound_ids {A : Type} (valid : A -> bool) (key : A -> orb_id_t)
    (pool : list A) : list orb_id_t :=
  key <$> filter (fun x => valid x) pool.

(** The topics a pool holds a valid binding for. *)
Definition sub_ids : list OrbSubscription.t -> list orb_id_t :=
  bound_ids OrbSubscription.is_valid OrbSubscription.id_.
Definition pub_ids : list OrbPublication.t -> list orb_id_t :=
  bound_ids OrbPublication.is_valid OrbPublication.id_.

Section Sequences.
Context {W : Type} `{Platform W}.

(** A sequence of [ensure_subscription] calls on one pool. *)
Fixpoint ensure_subscriptions (ids : list orb_id_t) (subs : list OrbSubscription.t)
  : io W (list OrbSubscription.t) :=
  match ids with
  | [] => ret subs
  | id :: rest =>
      '(_, subs') <- ensure_subscription id subs ;;
      ensure_subscriptions rest subs'
  end.

(** A sequence of [ensure_publication] calls on one pool. *)
Fixpoint ensure_publications (ids : list orb_id_t) (data : bytes)
    (pubs : list OrbPublication.t) : io W (list OrbPublication.t) :=
  match ids with
  | [] => ret pubs
  | id :: rest =>
      '(_, pubs') <- ensure_publication id data pubs ;;
      ensure_publications rest data pubs'
  end.

(** The four ways out of [ensure_subscription]. *)
Variant ensure_sub_result (id : orb_id_t) (subs : list OrbSubscription.t) (w : W)
  : sub_ref * list OrbSubscription.t * W * list event -> Prop :=
| ensure_sub_found i s :
    subs !! i = Some s -> OrbSubscription.is_valid s = true ->
    OrbSubscription.id_ s = id ->
    ensure_sub_result id subs w (Sub_slot i, subs, w, [])
| ensure_sub_created i old h w' :
    id ∉ sub_ids subs -> subs !! i = Some old -> OrbSubscription.is_valid old = false ->
    orb_subscribe id w = (h, w') -> (0 <= h)%Z ->
    ensure_sub_result id subs w
      (Sub_slot i, <[i := OrbSubscription.mk id h]> subs, w',
       [Ev_log (INFO_subscribing id); Ev_orb_subscribe id h])
| ensure_sub_failed i old h w' :
    id ∉ sub_ids subs -> subs !! i = Some old -> OrbSubscription.is_valid old = false ->
    orb_subscribe id w = (h, w') -> (h < 0)%Z ->
    ensure_sub_result id subs w
      (Sub_slot i, <[i := OrbSubscription.mk id (-1)]> subs, w',
       [Ev_log (INFO_subscribing id); Ev_orb_subscribe id h; Ev_log ERR_subscribe])
| ensure_sub_exhausted :
    id ∉ sub_ids subs -> Forall (fun s => OrbSubscription.is_valid s = true) subs ->
    ensure_sub_result id subs w
      (Sub_invalid, subs, w, [Ev_log ERR_too_many_subscriptions]).

(** The four ways out of [ensure_publication]. *)
Variant ensure_pub_result (id : orb_id_t) (data : bytes)
    (pubs : list OrbPublication.t) (w : W)
  : pub_ref * list OrbPublication.t * W * list event -> Prop :=
| ensure_pub_found i p :
    pubs !! i = Some p -> OrbPublication.is_valid p = true -> OrbPublication.id_ p = id ->
    ensure_pub_result id data pubs w (Pub_slot i, pubs, w, [])
| ensure_pub_created i old h w' :
    id ∉ pub_ids pubs -> pubs !! i = Some old -> OrbPublication.is_valid old = false ->
    orb_advertise id data w = (h, w') -> h <> nullptr ->
    ensure_pub_result id data pubs w
      (Pub_slot i, <[i := OrbPublication.mk id h]> pubs, w',
       [Ev_log (INFO_advertising id); Ev_orb_advertise id h])
| ensure_pub_failed i old w' :
    id ∉ pub_ids pubs -> pubs !! i = Some old -> OrbPublication.is_valid old = false ->
    orb_advertise id data w = (nullptr, w') ->
    ensure_pub_result id data pubs w
      (Pub_slot i, <[i := OrbPublication.mk id nullptr]> pubs, w',
       [Ev_log (INFO_advertising id); Ev_orb_advertise id nullptr;
        Ev_log ERR_advertise])
| ensure_pub_exhausted :
    id ∉ pub_ids pubs -> Forall (fun p => OrbPublication.is_valid p = true) pubs ->
    ensure_pub_result id data pubs w
      (Pub_invalid, pubs, w, [Ev_log ERR_too_many_publications]).

(** The ways through the body of the input loop, for index [i]: what the
    engine and the bus answered, the manager and the world afterwards, and
    the calls made. *)
Variant input_step_result (i : N) (m : InputManager) (w : W)
  : InputManager * W * list event -> Prop :=
| input_unresolved e id w1 :
    rust_get_input_message_id i w = (e, id, w1) -> ffi_failed e = true ->
    input_step_result i m w
      (m, w1, [Ev_input_id i e id; Ev_log (ERR_input_id i e)])
| input_unbound e id w1 r subs w2 t2 :
    rust_get_input_message_id i w = (e, id, w1) -> ffi_failed e = false ->
    ensure_sub_result id (subscriptions_ m) w1 (r, subs, w2, t2) ->
    OrbSubscription.is_valid (deref_sub r subs) = false ->
    input_step_result i m w
      ({| subscriptions_ := subs; input_buffer := input_buffer m |}, w2,
       Ev_input_id i e id :: t2)
| input_stale e id w1 r subs w2 t2 rc updated w3 :
    rust_get_input_message_id i w = (e, id, w1) -> ffi_failed e = false ->
    ensure_sub_result id (subscriptions_ m) w1 (r, subs, w2, t2) ->
    OrbSubscription.is_valid (deref_sub r subs) = true ->
    orb_check (OrbSubscription.handle_ (deref_sub r subs)) w2 = (rc, updated, w3) ->
    (0 <=? rc)%Z && updated = false ->
    input_step_result i m w
      ({| subscriptions_ := subs; input_buffer := input_buffer m |}, w3,
       Ev_input_id i e id :: t2 ++
       [Ev_orb_check id (OrbSubscription.handle_ (deref_sub r subs)) rc updated])
| input_oversize e id w1 r subs w2 t2 rc updated w3 :
    rust_get_input_message_id i w = (e, id, w1) -> ffi_failed e = false ->
    ensure_sub_result id (subscriptions_ m) w1 (r, subs, w2, t2) ->
    OrbSubscription.is_valid (deref_sub r subs) = true ->
    orb_check (OrbSubscription.handle_ (deref_sub r subs)) w2 = (rc, updated, w3) ->
    (0 <=? rc)%Z && updated = true ->
    oversize id = true ->
    input_step_result i m w
      ({| subscriptions_ := subs; input_buffer := input_buffer m |}, w3,
       Ev_input_id i e id :: t2 ++
       [Ev_orb_check id (OrbSubscription.handle_ (deref_sub r subs)) rc updated;
        Ev_log (ERR_input_size id (o_size id))])
| input_copy_failed e id w1 r subs w2 t2 rc updated w3 rc' data w4 :
    rust_get_input_message_id i w = (e, id, w1) -> ffi_failed e = false ->
    ensure_sub_result id (subscriptions_ m) w1 (r, subs, w2, t2) ->
    OrbSubscription.is_valid (deref_sub r subs) = true ->
    orb_check (OrbSubscription.handle_ (deref_sub r subs)) w2 = (rc, updated, w3) ->
    (0 <=? rc)%Z && updated = true ->
    oversize id = false ->
    orb_copy id (OrbSubscription.handle_ (deref_sub r subs)) w3 = (rc', data, w4) ->
    (0 <=? rc')%Z = false ->
    input_step_result i m w
      ({| subscriptions_ := subs; input_buffer := store data (input_buffer m) |}, w4,
       Ev_input_id i e id :: t2 ++
       [Ev_orb_check id (OrbSubscription.handle_ (deref_sub r subs)) rc updated;
        Ev_orb_copy id (OrbSubscription.handle_ (deref_sub r subs)) rc'])
| input_written e id w1 r subs w2 t2 rc updated w3 rc' data w4 res w5 :
    rust_get_input_message_id i w = (e, id, w1) -> ffi_failed e = false ->
    ensure_sub_result id (subscriptions_ m) w1 (r, subs, w2, t2) ->
    OrbSubscription.is_valid (deref_sub r subs) = true ->
    orb_check (OrbSubscription.handle_ (deref_sub r subs)) w2 = (rc, updated, w3) ->
    (0 <=? rc)%Z && updated = true ->
    oversize id = false ->
    orb_copy id (OrbSubscription.handle_ (deref_sub r subs)) w3 = (rc', data, w4) ->
    (0 <=? rc')%Z = true ->
    rust_write_input_message id (store data (input_buffer m)) (o_size id) w4
      = (res, w5) ->
    input_step_result i m w
      ({| subscriptions_ := subs; input_buffer := store data (input_buffer m) |}, w5,
       Ev_input_id i e id :: t2 ++
       [Ev_orb_check id (OrbSubscription.handle_ (deref_sub r subs)) rc updated;
        Ev_orb_copy id (OrbSubscription.handle_ (deref_sub r subs)) rc';
        Ev_write_input id (o_size id) res] ++
       (if ffi_failed res then [Ev_log (ERR_write_input id res)] else [])).

(** The ways through the body of the output loop, for index [i]. *)
Variant output_step_result (i : N) (m : OutputManager) (w : W)
  : OutputManager * W * list event -> Prop :=
| output_unresolved e id w1 :
    rust_get_output_message_id i w = (e, id, w1) -> ffi_failed e = true ->
    output_step_result i m w
      (m, w1, [Ev_output_id i e id; Ev_log (ERR_output_id i e)])
| output_unknown e id w1 e' has_update w2 :
    rust_get_output_message_id i w = (e, id, w1) -> ffi_failed e = false ->
    rust_output_message_has_update id w1 = (e', has_update, w2) ->
    ffi_failed e' = true ->
    output_step_result i m w
      (m, w2, [Ev_output_id i e id; Ev_has_update id e' has_update;
               Ev_log (ERR_update_status id e')])
| output_idle e id w1 e' w2 :
    rust_get_output_message_id i w = (e, id, w1) -> ffi_failed e = false ->
    rust_output_message_has_update id w1 = (e', false, w2) ->
    ffi_failed e' = false ->
    output_step_result i m w
      (m, w2, [Ev_output_id i e id; Ev_has_update id e' false])
| output_oversize e id w1 e' w2 :
    rust_get_output_message_id i w = (e, id, w1) -> ffi_failed e = false ->
    rust_output_message_has_update id w1 = (e', true, w2) ->
    ffi_failed e' = false ->
    oversize id = true ->
    output_step_result i m w
      (m, w2, [Ev_output_id i e id; Ev_has_update id e' true;
               Ev_log (ERR_output_size id (o_size id))])
| output_read_failed e id w1 e' w2 res data n w3 :
    rust_get_output_message_id i w = (e, id, w1) -> ffi_failed e = false ->
    rust_output_message_has_update id w1 = (e', true, w2) ->
    ffi_failed e' = false ->
    oversize id = false ->
    rust_read_output_message id MAX_MESSAGE_SIZE w2 = (res, data, n, w3) ->
    ffi_failed res = true ->
    output_step_result i m w
      ({| publications_ := publications_ m;
          output_buffer := store data (output_buffer m) |}, w3,
       [Ev_output_id i e id; Ev_has_update id e' true;
        Ev_read_output id MAX_MESSAGE_SIZE res n;
        Ev_log (ERR_read_output id res)])
| output_size_mismatch e id w1 e' w2 res data n w3 :
    rust_get_output_message_id i w = (e, id, w1) -> ffi_failed e = false ->
    rust_output_message_has_update id w1 = (e', true, w2) ->
    ffi_failed e' = false ->
    oversize id = false ->
    rust_read_output_message id MAX_MESSAGE_SIZE w2 = (res, data, n, w3) ->
    ffi_failed res = false -> (n =? o_size id)%N = false ->
    output_step_result i m w
      ({| publications_ := publications_ m;
          output_buffer := store data (output_buffer m) |}, w3,
       [Ev_output_id i e id; Ev_has_update id e' true;
        Ev_read_output id MAX_MESSAGE_SIZE res n;
        Ev_log (ERR_size_mismatch id (o_size id) n)])
| output_unbound e id w1 e' w2 res data n w3 r pubs w4 t4 :
    rust_get_output_message_id i w = (e, id, w1) -> ffi_failed e = false ->
    rust_output_message_has_update id w1 = (e', true, w2) ->
    ffi_failed e' = false ->
    oversize id = false ->
    rust_read_output_message id MAX_MESSAGE_SIZE w2 = (res, data, n, w3) ->
    ffi_failed res = false -> (n =? o_size id)%N = true ->
    ensure_pub_result id (store data (output_buffer m)) (publications_ m) w3
      (r, pubs, w4, t4) ->
    OrbPublication.is_valid (deref_pub r pubs) = false ->
    output_step_result i m w
      ({| publications_ := pubs;
          output_buffer := store data (output_buffer m) |}, w4,
       [Ev_output_id i e id; Ev_has_update id e' true;
        Ev_read_output id MAX_MESSAGE_SIZE res n] ++ t4)
| output_published e id w1 e' w2 res data n w3 r pubs w4 t4 rc w5 :
    rust_get_output_message_id i w = (e, id, w1) -> ffi_failed e = false ->
    rust_output_message_has_update id w1 = (e', true, w2) ->
    ffi_failed e' = false ->
    oversize id = false ->
    rust_read_output_message id MAX_MESSAGE_SIZE w2 = (res, data, n, w3) ->
    ffi_failed res = false -> (n =? o_size id)%N = true ->
    ensure_pub_result id (store data (output_buffer m)) (publications_ m) w3
      (r, pubs, w4, t4) ->
    OrbPublication.is_valid (deref_pub r pubs) = true ->
    orb_publish id (OrbPublication.handle_ (deref_pub r pubs))
      (store data (output_buffer m)) w4
      = (rc, w5) ->
    output_step_result i m w
      ({| publications_ := pubs;
          output_buffer := store data (output_buffer m) |}, w5,
       [Ev_output_id i e id; Ev_has_update id e' true;
        Ev_read_output id MAX_MESSAGE_SIZE res n] ++ t4 ++
       [Ev_orb_publish id (OrbPublication.handle_ (deref_pub r pubs)) rc]).

End Sequences.

(** ** Reading traces *)

(** How many entries of a trace satisfy [p]. *)
Definition count (p : event -> bool) (tr : list event) : nat :=
  length (List.filter p tr).

(** [orb_copy] calls for topic [T], and those that returned success. *)
Definition is_copy (T : orb_id_t) (e : event) : bool :=
  match e with Ev_orb_copy id _ _ => bool_decide (id = T) | _ => false end.
Definition is_copy_ok (T : orb_id_t) (e : event) : bool :=
  match e with
  | Ev_orb_copy id _ rc => bool_decide (id = T) && (0 <=? rc)%Z
  | _ => false
  end.

(** [orb_check] calls by a subscription of [T], and those that found fresh
    data: what [check_updated] answers [true] to. *)
Definition is_check (T : orb_id_t) (e : event) : bool :=
  match e with Ev_orb_check id _ _ _ => bool_decide (id = T) | _ => false end.
Definition is_fresh (T : orb_id_t) (e : event) : bool :=
  match e with
  | Ev_orb_check id _ rc updated => bool_decide (id = T) && ((0 <=? rc)%Z && updated)
  | _ => false
  end.

Definition is_subscribe (T : orb_id_t) (e : event) : bool :=
  match e with Ev_orb_subscribe id _ => bool_decide (id = T) | _ => false end.

(** [rust_write_input_message] calls for [T]. *)
Definition is_write (T : orb_id_t) (e : event) : bool :=
  match e with Ev_write_input id _ _ => bool_decide (id = T) | _ => false end.

(** Indices the engine resolved to [T]. *)
Definition is_input_of (T : orb_id_t) (e : event) : bool :=
  match e with
  | Ev_input_id _ ret id => negb (ffi_failed ret) && bool_decide (id = T)
  | _ => false
  end.
Definition is_output_of (T : orb_id_t) (e : event) : bool :=
  match e with
  | Ev_output_id _ ret id => negb (ffi_failed ret) && bool_decide (id = T)
  | _ => false
  end.

(** [rust_output_message_has_update] calls for [T] that succeeded and
    answered [true]. *)
Definition is_pending (T : orb_id_t) (e : event) : bool :=
  match e with
  | Ev_has_update id ret has_update =>
      bool_decide (id = T) && (negb (ffi_failed ret) && has_update)
  | _ => false
  end.

(** [rust_read_output_message] calls for [T]; those that succeeded with
    [size] bytes; those that reported another byte count, and among them
    the ones that succeeded. *)
Definition is_read (T : orb_id_t) (e : event) : bool :=
  match e with Ev_read_output id _ _ _ => bool_decide (id = T) | _ => false end.
Definition is_read_ok (size : N) (T : orb_id_t) (e : event) : bool :=
  match e with
  | Ev_read_output id _ ret n =>
      bool_decide (id = T) && (negb (ffi_failed ret) && (n =? size)%N)
  | _ => false
  end.
Definition is_read_short (size : N) (T : orb_id_t) (e : event) : bool :=
  match e with
  | Ev_read_output id _ ret n => bool_decide (id = T) && negb (n =? size)%N
  | _ => false
  end.
Definition is_read_short_ok (size : N) (T : orb_id_t) (e : event) : bool :=
  match e with
  | Ev_read_output id _ ret n =>
      bool_decide (id = T) && (negb (ffi_failed ret) && negb (n =? size)%N)
  | _ => false
  end.

Definition is_read_failed (T : orb_id_t) (e : event) : bool :=
  match e with
  | Ev_read_output id _ ret _ => bool_decide (id = T) && ffi_failed ret
  | _ => false
  end.

Definition is_publish (T : orb_id_t) (e : event) : bool :=
  match e with Ev_orb_publish id _ _ => bool_decide (id = T) | _ => false end.
Definition is_advertise (T : orb_id_t) (e : event) : bool :=
  match e with Ev_orb_advertise id _ => bool_decide (id = T) | _ => false end.
Definition is_advertise_failed (e : event) : bool :=
  match e with Ev_orb_advertise _ h => N.eqb h nullptr | _ => false end.

(** Log lines. *)
Definition is_input_size_error (T : orb_id_t) (e : event) : bool :=
  match e with Ev_log (ERR_input_size id _) => bool_decide (id = T) | _ => false end.
Definition is_output_size_error (T : orb_id_t) (e : event) : bool :=
  match e with Ev_log (ERR_output_size id _) => bool_decide (id = T) | _ => false end.
Definition is_size_mismatch (T : orb_id_t) (e : event) : bool :=
  match e with Ev_log (ERR_size_mismatch id _ _) => bool_decide (id = T) | _ => false end.
Definition is_read_error (T : orb_id_t) (e : event) : bool :=
  match e with Ev_log (ERR_read_output id _) => bool_decide (id = T) | _ => false end.
Definition is_too_many_publications (e : event) : bool :=
  match e with Ev_log ERR_too_many_publications => true | _ => false end.

(** The indices a relay asked the engine to resolve, in order. *)
Definition input_index (e : event) : option N :=
  match e with Ev_input_id i _ _ => Some i | _ => None end.
Definition output_index (e : event) : option N :=
  match e with Ev_output_id i _ _ => Some i | _ => None end.

(** The arguments of the [px4_usleep] calls, and the readings of the
    clock. *)
Definition usleep_of (e : event) : option Z :=
  match e with Ev_usleep usec => Some usec | _ => None end.
Definition time_of (e : event) : option Z :=
  match e with Ev_time now => Some now | _ => None end.

(** The calls a relay can make: to the bus, to the engine's message
    interface, and to the log. *)
Definition is_relay_event (e : event) : bool :=
  match e with
  | Ev_time _ | Ev_app_update _ | Ev_usleep _
  | Ev_parameter_updated _ | Ev_parameter_copy | Ev_updateParams => false
  | _ => true
  end.

(** ** What a trace of a relay says about one topic *)
Section Accounting.
Context {W : Type} `{Platform W}.

(** Input side: copies against fresh updates seen, writes against copies
    that succeeded, polls against indices resolved, oversize errors. *)
Definition input_counts (T : orb_id_t) (tr : list event) : Prop :=
  count (is_copy T) tr = (if oversize T then 0 else count (is_fresh T) tr) /\
  count (is_write T) tr = count (is_copy_ok T) tr /\
  count (is_check T) tr <= count (is_input_of T) tr /\
  count (is_input_size_error T) tr =
    (if oversize T then count (is_fresh T) tr else 0).

(** Output side: reads against pending updates seen, publishes and
    advertisements against reads that succeeded with the declared size,
    and the error lines. *)
Definition output_counts (T : orb_id_t) (tr : list event) : Prop :=
  count (is_read T) tr = (if oversize T then 0 else count (is_pending T) tr) /\
  count (is_output_size_error T) tr =
    (if oversize T then count (is_pending T) tr else 0) /\
  count (is_pending T) tr <= count (is_output_of T) tr /\
  count (is_publish T) tr <= count (is_read_ok (o_size T) T) tr /\
  count (is_advertise T) tr <= count (is_read_ok (o_size T) T) tr /\
  count (is_read_ok (o_size T) T) tr <=
    count (is_publish T) tr + count is_advertise_failed tr
    + count is_too_many_publications tr /\
  count (is_size_mismatch T) tr = count (is_read_short_ok (o_size T) T) tr /\
  count (is_read_error T) tr = count (is_read_failed T) tr.

(** What a stretch of the input relay does to the subscription pool. *)
Definition input_pool_rel (m m' : InputManager) (tr : list event) : Prop :=
  length (subscriptions_ m') = length (subscriptions_ m) /\
  (forall j b, subscriptions_ m !! j = Some b -> OrbSubscription.is_valid b = true ->
               subscriptions_ m' !! j = Some b) /\
  (NoDup (sub_ids (subscriptions_ m)) -> NoDup (sub_ids (subscriptions_ m'))) /\
  (forall T, 0 < count (is_fresh T) tr -> T ∈ sub_ids (subscriptions_ m')) /\
  (forall T, T ∈ sub_ids (subscriptions_ m') ->
             T ∈ sub_ids (subscriptions_ m) \/
             exists h, (0 <= h)%Z /\ Ev_orb_subscribe T h ∈ tr).


(** The status and the count the engine reports to a relay. *)
Definition input_status (w : W) : FfiError :=
  fst (fst (rust_get_input_message_count w)).
Definition reported_inputs (w : W) : N :=
  snd (fst (rust_get_input_message_count w)).
Definition output_status (w : W) : FfiError :=
  fst (fst (rust_get_output_message_count w)).
Definition reported_outputs (w : W) : N :=
  snd (fst (rust_get_output_message_count w)).

End Accounting.

(** ** Every index, and every bound topic *)

(** [rust_output_message_has_update] calls for [T]. *)
Definition is_has_update (T : orb_id_t) (e : event) : bool :=
  match e with Ev_has_update id _ _ => bool_decide (id = T) | _ => false end.

(** [orb_subscribe] calls for [T] that the bus refused, [orb_advertise]
    calls for [T] that returned no handle, and the line of a full
    subscription pool. *)
Definition is_subscribe_refused (T : orb_id_t) (e : event) : bool :=
  match e with
  | Ev_orb_subscribe id h => bool_decide (id = T) && (h <? 0)%Z
  | _ => false
  end.
Definition is_advertise_refused (T : orb_id_t) (e : event) : bool :=
  match e with
  | Ev_orb_advertise id h => bool_decide (id = T) && N.eqb h nullptr
  | _ => false
  end.
Definition is_too_many_subscriptions (e : event) : bool :=
  match e with Ev_log ERR_too_many_subscriptions => true | _ => false end.

Section Handling.
Context {W : Type} `{Platform W}.

(** Polls of [T] across a stretch of the input relay: a topic bound before
    stays bound and is polled at every index resolved to it; a topic that
    was polled is bound afterwards; an index resolved to [T] that is not
    polled shows a refused subscription of [T] or the line of the full
    pool. *)
Definition input_poll_rel (T : orb_id_t) (m m' : InputManager) (tr : list event)
  : Prop :=
  (T ∈ sub_ids (subscriptions_ m) -> T ∈ sub_ids (subscriptions_ m')) /\
  (T ∈ sub_ids (subscriptions_ m) ->
   count (is_check T) tr = count (is_input_of T) tr) /\
  (0 < count (is_check T) tr -> T ∈ sub_ids (subscriptions_ m')) /\
  count (is_input_of T) tr <=
    count (is_check T) tr + count (is_subscribe_refused T) tr
    + count is_too_many_subscriptions tr /\
  (Forall (fun s => OrbSubscription.is_valid s = true) (subscriptions_ m) ->
   Forall (fun s => OrbSubscription.is_valid s = true) (subscriptions_ m')) /\
  (0 < count is_too_many_subscriptions tr ->
   Forall (fun s => OrbSubscription.is_valid s = true) (subscriptions_ m')).

(** Publishes of [T] across a stretch of the output relay. *)
Definition output_publish_rel (T : orb_id_t) (m m' : OutputManager)
    (tr : list event) : Prop :=
  (T ∈ pub_ids (publications_ m) -> T ∈ pub_ids (publications_ m')) /\
  (T ∈ pub_ids (publications_ m) ->
   count (is_publish T) tr = count (is_read_ok (o_size T) T) tr) /\
  (0 < count (is_publish T) tr -> T ∈ pub_ids (publications_ m')) /\
  count (is_has_update T) tr = count (is_output_of T) tr /\
  count (is_read_ok (o_size T) T) tr <=
    count (is_publish T) tr + count (is_advertise_refused T) tr
    + count is_too_many_publications tr /\
  (Forall (fun p => OrbPublication.is_valid p = true) (publications_ m) ->
   Forall (fun p => OrbPublication.is_valid p = true) (publications_ m')) /\
  (0 < count is_too_many_publications tr ->
   Forall (fun p => OrbPublication.is_valid p = true) (publications_ m')).

(** What [ensure_subscription id] shows in the trace, with the handle of the
    binding it returns when that binding is valid. *)
Variant input_binding (id : orb_id_t) : list event -> option Z -> Prop :=
| input_binding_found h :
    (0 <= h)%Z -> input_binding id [] (Some h)
| input_binding_created h :
    (0 <= h)%Z ->
    input_binding id [Ev_log (INFO_subscribing id); Ev_orb_subscribe id h] (Some h)
| input_binding_refused h :
    (h < 0)%Z ->
    input_binding id
      [Ev_log (INFO_subscribing id); Ev_orb_subscribe id h; Ev_log ERR_subscribe] None
| input_binding_exhausted :
    input_binding id [Ev_log ERR_too_many_subscriptions] None.



(** What [ensure_publication id] shows in the trace, with the handle of the
    binding it returns when that binding is valid. *)
Variant output_binding (id : orb_id_t) : list event -> option orb_advert_t -> Prop :=
| output_binding_found h :
    h <> nullptr -> output_binding id [] (Some h)
| output_binding_created h :
    h <> nullptr ->
    output_binding id [Ev_log (INFO_advertising id); Ev_orb_advertise id h] (Some h)
| output_binding_refused :
    output_binding id
      [Ev_log (INFO_advertising id); Ev_orb_advertise id nullptr; Ev_log ERR_advertise]
      None
| output_binding_exhausted :
    output_binding id [Ev_log ERR_too_many_publications] None.



End Handling.

(** ** A scripted bus and engine

    A small instance of [Platform] to run the module on: the engine's topic
    lists and the results of the calls that can fail are fixed by a
    [script]; the world keeps which subscriptions have unread data, which
    outputs the engine has updated, and the coming readings of the clock.
    Topic [n] is subscribed with handle [sc_subscribe n]. *)
Record script := {
  sc_ndebug : bool;
  sc_useconds_bits : Z;
  sc_size : orb_id_t -> N;
  sc_subscribe : orb_id_t -> Z;
  sc_advertise : orb_id_t -> orb_advert_t;
  sc_input_count : FfiError * N;
  sc_input_id : N -> FfiError * orb_id_t;
  sc_output_count : FfiError * N;
  sc_output_id : N -> FfiError * orb_id_t;
  sc_read : orb_id_t -> FfiError * N;
}.

Record sim := {
  sim_fresh : list Z;
  sim_pending : list orb_id_t;
  sim_clock : list Z;
}.

Definition sim_orb_check (h : Z) (w : sim) : (Z * bool) * sim :=
  ((0%Z, bool_decide (h ∈ sim_fresh w)), w).

Definition sim_orb_copy (sc : script) (id : orb_id_t) (h : Z) (w : sim)
  : (Z * bytes) * sim :=
  ((0%Z, replicate (N.to_nat (sc_size sc id)) x01),
   {| sim_fresh := List.filter (fun h' => negb (Z.eqb h' h)) (sim_fresh w);
      sim_pending := sim_pending w;
      sim_clock := sim_clock w |}).

Definition sim_has_update (id : orb_id_t) (w : sim) : (FfiError * bool) * sim :=
  ((FFI_SUCCESS, bool_decide (id ∈ sim_pending w)), w).

Definition sim_read_output (sc : script) (id : orb_id_t) (buffer_size : N) (w : sim)
  : (FfiError * bytes * N) * sim :=
  ((fst (sc_read sc id), replicate (N.to_nat (snd (sc_read sc id))) x02,
    snd (sc_read sc id)),
   {| sim_fresh := sim_fresh w;
      sim_pending := List.filter (fun id' => negb (N.eqb id' id)) (sim_pending w);
      sim_clock := sim_clock w |}).

Definition sim_time (w : sim) : Z * sim :=
  match sim_clock w with
  | [] => (0%Z, w)
  | t :: rest =>
      (t, {| sim_fresh := sim_fresh w; sim_pending := sim_pending w;
             sim_clock := rest |})
  end.

Definition scripted (sc : script) : Platform sim := {|
  NDEBUG := sc_ndebug sc;
  useconds_bits := sc_useconds_bits sc;
  o_size := sc_size sc;
  orb_subscribe := fun id w => (sc_subscribe sc id, w);
  orb_unsubscribe := fun _ w => w;
  orb_check := sim_orb_check;
  orb_copy := sim_orb_copy sc;
  orb_advertise := fun id _ w => (sc_advertise sc id, w);
  orb_publish := fun _ _ _ w => (0%Z, w);
  rust_get_input_message_count := fun w => (sc_input_count sc, w);
  rust_get_input_message_id := fun i w => (sc_input_id sc i, w);
  rust_write_input_message := fun _ _ _ w => (FFI_SUCCESS, w);
  rust_get_output_message_count := fun w => (sc_output_count sc, w);
  rust_get_output_message_id := fun i w => (sc_output_id sc i, w);
  rust_output_message_has_update := sim_has_update;
  rust_read_output_message := sim_read_output sc;
  app_interface_update := fun _ w => w;
  hrt_absolute_time := sim_time;
  px4_usleep := fun _ w => w;
  parameter_update_updated := fun w => (false, w);
  parameter_update_copy := fun w => w;
  updateParams := fun w => w;
|}.

(** The engine declares the topics of [ids], in order. *)
Definition topic_at (ids : list orb_id_t) (i : N) : FfiError * orb_id_t :=
  match ids !! N.to_nat i with
  | Some id => (FFI_SUCCESS, id)
  | None => (FFI_INVALID_MESSAGE_INDEX, nullptr)
  end.

(** A script in which every call succeeds: topic [n] has size [4], is
    subscribed with handle [n] and advertised with handle [n + 1], and the
    engine declares [inputs] and [outputs]. *)
Definition nominal (inputs outputs : list orb_id_t) : script := {|
  sc_ndebug := false;
  sc_useconds_bits := 32;
  sc_size := fun _ => 4%N;
  sc_subscribe := Z.of_N;
  sc_advertise := N.succ;
  sc_input_count := (FFI_SUCCESS, N.of_nat (length inputs));
  sc_input_id := topic_at inputs;
  sc_output_count := (FFI_SUCCESS, N.of_nat (length outputs));
  sc_output_id := topic_at outputs;
  sc_read := fun _ => (FFI_SUCCESS, 4%N);
|}.

Definition quiet : sim := {| sim_fresh := []; sim_pending := []; sim_clock := [] |}.

(** Variations on a script. *)
Definition with_ndebug (b : bool) (sc : script) : script := {|
  sc_ndebug := b;
  sc_useconds_bits := sc_useconds_bits sc;
  sc_size := sc_size sc;
  sc_subscribe := sc_subscribe sc;
  sc_advertise := sc_advertise sc;
  sc_input_count := sc_input_count sc;
  sc_input_id := sc_input_id sc;
  sc_output_count := sc_output_count sc;
  sc_output_id := sc_output_id sc;
  sc_read := sc_read sc;
|}.

Definition with_size (size : orb_id_t -> N) (sc : script) : script := {|
  sc_ndebug := sc_ndebug sc;
  sc_useconds_bits := sc_useconds_bits sc;
  sc_size := size;
  sc_subscribe := sc_subscribe sc;
  sc_advertise := sc_advertise sc;
  sc_input_count := sc_input_count sc;
  sc_input_id := sc_input_id sc;
  sc_output_count := sc_output_count sc;
  sc_output_id := sc_output_id sc;
  sc_read := sc_read sc;
|}.

Definition with_subscribe (subscribe : orb_id_t -> Z) (sc : script) : script := {|
  sc_ndebug := sc_ndebug sc;
  sc_useconds_bits := sc_useconds_bits sc;
  sc_size := sc_size sc;
  sc_subscribe := subscribe;
  sc_advertise := sc_advertise sc;
  sc_input_count := sc_input_count sc;
  sc_input_id := sc_input_id sc;
  sc_output_count := sc_output_count sc;
  sc_output_id := sc_output_id sc;
  sc_read := sc_read sc;
|}.

Definition with_read (read : orb_id_t -> FfiError * N) (sc : script) : script := {|
  sc_ndebug := sc_ndebug sc;
  sc_useconds_bits := sc_useconds_bits sc;
  sc_size := sc_size sc;
  sc_subscribe := sc_subscribe sc;
  sc_advertise := sc_advertise sc;
  sc_input_count := sc_input_count sc;
  sc_input_id := sc_input_id sc;
  sc_output_count := sc_output_count sc;
  sc_output_id := sc_output_id sc;
  sc_read := read;
|}.

(** Topics [1 .. n]. *)
Definition topics_upto (n : nat) : list orb_id_t := N.of_nat <$> seq 1 n.

(** A pool whose sixteen slots hold valid bindings, for topics [1 .. 16]. *)
Definition full_subscriptions : list OrbSubscription.t :=
  (fun id => OrbSubscription.mk id (Z.of_N id)) <$> topics_upto MAX_MESSAGES.
Definition full_publications : list OrbPublication.t :=
  (fun id => OrbPublication.mk id (N.succ id)) <$> topics_upto MAX_MESSAGES.

(** The manager a relay returned, or [d] when it aborted. *)
Definition returned_or {A : Type} (d : A) (o : outcome A) : A :=
  match o with
  | Returned a => a
  | Aborted => d
  end.

(** A world in which topic [1] has unread data on the bus and an update in
    the engine, and two scripts that declare it as input and as output:
    with the size of [nominal], and with a size beyond the buffer. *)
Definition busy : sim := {| sim_fresh := [1%Z]; sim_pending := [1%N]; sim_clock := [] |}.
Definition small_topic : script := nominal [1%N] [1%N].
Definition large_topic : script := with_size (fun _ => 2000%N) (nominal [1%N] [1%N]).

(** A bus that refuses every subscription. *)
Definition refusing : script := with_subscribe (fun _ => (-1)%Z) (nominal [1%N] []).

(** An engine whose topic [1] has size [8] and whose read yields [6] bytes. *)
Definition short_read : script :=
  with_size (fun _ => 8%N) (with_read (fun _ => (FFI_SUCCESS, 6%N)) (nominal [] [1%N])).

(** Topic [17] has unread data and an update, in pools that the first
    sixteen topics have filled. *)
Definition seventeenth : sim :=
  {| sim_fresh := [17%Z]; sim_pending := [17%N]; sim_clock := [] |}.
Definition all_pending : sim :=
  {| sim_fresh := []; sim_pending := topics_upto MAX_MESSAGES; sim_clock := [] |}.

(** The pools after one cycle in which the engine declared topics
    [1 .. 16], all of them updated on the output side. *)
Definition filled_input : InputManager :=
  returned_or InputManager_new
    (value_of (@process_input_messages sim
                 (scripted (nominal (topics_upto MAX_MESSAGES) []))
                 InputManager_new quiet)).
Definition filled_output : OutputManager :=
  returned_or OutputManager_new
    (value_of (@process_output_messages sim
                 (scripted (nominal [] (topics_upto MAX_MESSAGES)))
                 OutputManager_new all_pending)).

(** A cycle that starts at [1000] and reaches its sleep at [11001]. *)
Definition overrun : sim :=
  {| sim_fresh := []; sim_pending := []; sim_clock := [1000; 6000; 11001]%Z |}.
Definition on_time : sim :=
  {| sim_fresh := []; sim_pending := []; sim_clock := [1000; 1100; 1200]%Z |}.

(** The managers after a first cycle on [small_topic]: topic [1] is bound
    in both pools. *)
Definition bound_input : InputManager :=
  returned_or InputManager_new
    (value_of (@process_input_messages sim (scripted small_topic)
                 InputManager_new busy)).
Definition bound_output : OutputManager :=
  returned_or OutputManager_new
    (value_of (@process_output_messages sim (scripted small_topic)
                 OutputManager_new busy)).

(** An engine that fails to resolve index [0] and declares topics [2], [3]
    and [4] at the next indices, as inputs and as outputs: topic [2] is
    larger than the buffer, the bus refuses the subscription of topic [3]
    and the engine fails to read it, and topic [4] is in order. *)
Definition troubled : script := {|
  sc_ndebug := false;
  sc_useconds_bits := 32;
  sc_size := fun id => if (id =? 2)%N then 2000%N else 4%N;
  sc_subscribe := fun id => if (id =? 3)%N then (-1)%Z else Z.of_N id;
  sc_advertise := N.succ;
  sc_input_count := (FFI_SUCCESS, 4%N);
  sc_input_id := fun i => if (i =? 0)%N then (FFI_INVALID_MESSAGE_INDEX, nullptr)
                          else (FFI_SUCCESS, N.succ i);
  sc_output_count := (FFI_SUCCESS, 4%N);
  sc_output_id := fun i => if (i =? 0)%N then (FFI_INVALID_MESSAGE_INDEX, nullptr)
                           else (FFI_SUCCESS, N.succ i);
  sc_read := fun id => if (id =? 3)%N then (FFI_NULL_ARGUMENT, 0%N)
                       else (FFI_SUCCESS, 4%N);
|}.

(** Topics [2], [3] and [4] have unread data and an update. *)
Definition all_updated : sim :=
  {| sim_fresh := [2; 3; 4]%Z; sim_pending := [2; 3; 4]%N; sim_clock := [] |}.


(** * The rest of the module *)

Import String.StringSyntax.
Delimit Scope string_scope with string.

(** ** [ffi_error_to_string] *)

(** The values of the enumerators of [FfiError]. *)
Definition FfiError_value (e : FfiError) : Z :=
  match e with
  | FFI_SUCCESS => 0
  | FFI_MESSAGE_LENGTH_MISMATCH => 1
  | FFI_UNADVERTISED_MESSAGE => 2
  | FFI_UNSUBSCRIBED_MESSAGE => 3
  | FFI_INVALID_MESSAGE_INDEX => 4
  | FFI_NULL_ARGUMENT => 5
  end%Z.

(** [ffi_error_to_string], on the integer its argument holds: the code
    comes from the other side of the FFI boundary, and the [switch] has a
    [default]. *)
Definition ffi_error_to_string (error : Z) : String.string :=
  match error with
  | 0 => "Success"
  | 1 => "Message length mismatch"
  | 2 => "Message type not advertised"
  | 3 => "Message type not subscribed"
  | 4 => "Invalid message index"
  | 5 => "Null argument passed to function"
  | _ => "Unknown error"
  end%Z%string.

(** ** The move constructor of [OrbSubscription] *)

(** [OrbSubscription(OrbSubscription&& other)]: the object built, and
    [other] afterwards. *)
Definition OrbSubscription_move (other : OrbSubscription.t)
  : OrbSubscription.t * OrbSubscription.t :=
  (OrbSubscription.mk (OrbSubscription.id_ other) (OrbSubscription.handle_ other),
   OrbSubscription.mk (OrbSubscription.id_ other) (-1)).

(** ** Reading traces, continued *)

(** The calls of the input side: the engine's input interface, the
    subscriber's half of uORB, and the log lines of [InputManager] and
    [OrbSubscription]. *)
Definition is_input_call (e : event) : bool :=
  match e with
  | Ev_input_count _ _ | Ev_input_id _ _ _ | Ev_write_input _ _ _
  | Ev_orb_subscribe _ _ | Ev_orb_check _ _ _ _ | Ev_orb_copy _ _ _ => true
  | Ev_log l =>
      match l with
      | ERR_subscribe | ERR_input_count _ | ERR_input_id _ _ | ERR_input_size _ _
      | ERR_write_input _ _ | INFO_subscribing _ | ERR_too_many_subscriptions => true
      | _ => false
      end
  | _ => false
  end.

(** The calls of the output side: the engine's output interface, the
    publisher's half of uORB, and the log lines of [OutputManager] and
    [OrbPublication]. *)
Definition is_output_call (e : event) : bool :=
  match e with
  | Ev_output_count _ _ | Ev_output_id _ _ _ | Ev_has_update _ _ _
  | Ev_read_output _ _ _ _ | Ev_orb_advertise _ _ | Ev_orb_publish _ _ _ => true
  | Ev_log l =>
      match l with
      | ERR_advertise | ERR_output_count _ | ERR_output_id _ _
      | ERR_update_status _ _ | ERR_output_size _ _ | ERR_read_output _ _
      | ERR_size_mismatch _ _ _ | INFO_advertising _
      | ERR_too_many_publications => true
      | _ => false
      end
  | _ => false
  end.

(** What [parameters_update] calls. *)
Definition is_parameter_call (e : event) : bool :=
  match e with
  | Ev_parameter_updated _ | Ev_parameter_copy | Ev_updateParams => true
  | _ => false
  end.

(** The binding an [orb_check] or [orb_copy] call was made through: the
    topic and the handle. *)
Definition subscription_used (e : event) : option (orb_id_t * Z) :=
  match e with
  | Ev_orb_check id h _ _ | Ev_orb_copy id h _ => Some (id, h)
  | _ => None
  end.

(** The handles the bus gave out, and the handles given back. *)
Definition granted_handle (e : event) : option Z :=
  match e with
  | Ev_orb_subscribe _ h => if (0 <=? h)%Z then Some h else None
  | _ => None
  end.
Definition released_handle (e : event) : option Z :=
  match e with Ev_orb_unsubscribe h => Some h | _ => None end.

(** The handles of the valid entries of [subscriptions_], in slot order. *)
Definition valid_handles (subs : list OrbSubscription.t) : list Z :=
  OrbSubscription.handle_ <$> filter (fun s => OrbSubscription.is_valid s) subs.

Definition is_app_update (e : event) : bool :=
  match e with Ev_app_update _ => true | _ => false end.
Definition is_usleep (e : event) : bool :=
  match e with Ev_usleep _ => true | _ => false end.

Section Bounds.
Context {W : Type} `{Platform W}.

(** A call that moves message bytes through the static buffer stays
    within it: the topic's size is at most [MAX_MESSAGE_SIZE], the length
    given to [rust_write_input_message] is the topic's size, and the
    capacity given to [rust_read_output_message] is [MAX_MESSAGE_SIZE]. *)
Definition within_buffer (e : event) : bool :=
  match e with
  | Ev_orb_copy id _ _ | Ev_orb_advertise id _ | Ev_orb_publish id _ _ =>
      (o_size id <=? MAX_MESSAGE_SIZE)%N
  | Ev_write_input id len _ =>
      (len =? o_size id)%N && (len <=? MAX_MESSAGE_SIZE)%N
  | Ev_read_output id buffer_size _ _ =>
      (buffer_size =? MAX_MESSAGE_SIZE)%N && (o_size id <=? MAX_MESSAGE_SIZE)%N
  | _ => true
  end.

End Bounds.

(** Where the valid bindings of a pool and the handles a stretch of the
    input relay used come from: the pool it started with, or an
    [orb_subscribe] call of the stretch. *)
Definition input_handles_rel (m m' : InputManager) (tr : list event) : Prop :=
  (forall b, b ∈ subscriptions_ m' -> OrbSubscription.is_valid b = true ->
     b ∈ subscriptions_ m \/
     Ev_orb_subscribe (OrbSubscription.id_ b) (OrbSubscription.handle_ b) ∈ tr) /\
  (forall id h, (id, h) ∈ omap subscription_used tr ->
     (0 <= h)%Z /\
     (OrbSubscription.mk id h ∈ subscriptions_ m \/ Ev_orb_subscribe id h ∈ tr)).

(** The line the module logs right after a call that failed, for the
    calls whose failure it reports. *)
Definition failure_line (e : event) : option px4_log :=
  match e with
  | Ev_orb_subscribe _ h => if (h <? 0)%Z then Some ERR_subscribe else None
  | Ev_orb_advertise _ h => if (h =? nullptr)%N then Some ERR_advertise else None
  | Ev_input_count r _ => if ffi_failed r then Some (ERR_input_count r) else None
  | Ev_input_id i r _ => if ffi_failed r then Some (ERR_input_id i r) else None
  | Ev_write_input id _ r => if ffi_failed r then Some (ERR_write_input id r) else None
  | Ev_output_count r _ => if ffi_failed r then Some (ERR_output_count r) else None
  | Ev_output_id i r _ => if ffi_failed r then Some (ERR_output_id i r) else None
  | Ev_has_update id r _ => if ffi_failed r then Some (ERR_update_status id r) else None
  | Ev_read_output id _ r _ => if ffi_failed r then Some (ERR_read_output id r) else None
  | _ => None
  end.

(** The calls to the bus whose failure goes unreported. *)
Definition unreported_failure (e : event) : bool :=
  match e with
  | Ev_orb_check _ _ rc _ | Ev_orb_copy _ _ rc | Ev_orb_publish _ _ rc => (rc <? 0)%Z
  | _ => false
  end.

(** In a trace, every failure that is reported is followed at once by its
    line, and no line follows a failure that is not; the trace does not
    start with a line. *)
Definition failures_in_place (tr : list event) : Prop :=
  (forall l t, tr <> Ev_log l :: t) /\
  forall t1 e t2,
    tr = t1 ++ e :: t2 ->
    (forall l, failure_line e = Some l -> exists t3, t2 = Ev_log l :: t3) /\
    (unreported_failure e = true -> forall l t3, t2 <> Ev_log l :: t3).

(** What surrounds the [orb_advertise] calls of a trace: the successful
    read of the topic, with its declared size, and the line announcing the
    advertisement before; the publish on the new handle, or the error line
    when the handle is null, after. *)
Definition advertisements_in_place {W : Type} `{Platform W} (tr : list event) : Prop :=
  forall t1 t2 id h,
    tr = t1 ++ Ev_orb_advertise id h :: t2 ->
    (exists t0 res,
       t1 = t0 ++ [Ev_read_output id MAX_MESSAGE_SIZE res (o_size id);
                   Ev_log (INFO_advertising id)] /\
       ffi_failed res = false) /\
    (h <> nullptr -> exists rc t3, t2 = Ev_orb_publish id h rc :: t3) /\
    (h = nullptr -> exists t3, t2 = Ev_log ERR_advertise :: t3).

Definition output_handles_rel (m m' : OutputManager) (tr : list event) : Prop :=
  (forall b, b ∈ publications_ m' -> OrbPublication.is_valid b = true ->
     b ∈ publications_ m \/
     Ev_orb_advertise (OrbPublication.id_ b) (OrbPublication.handle_ b) ∈ tr) /\
  (forall id h rc, Ev_orb_publish id h rc ∈ tr ->
     h <> nullptr /\
     (OrbPublication.mk id h ∈ publications_ m \/ Ev_orb_advertise id h ∈ tr)).

(** ** The task: [PictorusModule::run] *)

(** The log lines of [run]. *)
Inductive run_log :=
| INFO_started
| ERR_create_app
| INFO_stopped.

(** The calls of [run]: those of the cycle and of the destructors, and its
    own. *)
Inductive run_event :=
| Rv_call (e : event)
| Rv_should_exit (exit : bool)
| Rv_app_interface_new (app : N)
| Rv_app_interface_free (app : N)
| Rv_log (l : run_log).

(** What [run] needs beyond the interface of the cycle: the exit request
    of [ModuleBase] and the constructor and destructor of the engine of
    [pictorus.h] ([AppInterface*] is an address, [0] is [nullptr]). *)
Class Runtime (W : Type) := {
  runtime_platform :: Platform W;
  should_exit : W -> bool * W;
  app_interface_new : W -> N * W;
  app_interface_free : N -> W -> W;
}.

(** The monad of the module's code, over the calls of [run] and, below,
    over those of the command line. *)
Definition act (E W A : Type) : Type := W -> A * W * list E.

Definition task_ret {E W A} (a : A) : act E W A := fun w => (a, w, []).

Definition task_bind {E W A B} (m : act E W A) (k : A -> act E W B) : act E W B :=
  fun w =>
    let '(a, w1, t1) := m w in
    let '(b, w2, t2) := k a w1 in
    (b, w2, t1 ++ t2).

Definition task (W A : Type) : Type := act run_event W A.

(** A stretch of the module's code run inside the task. *)
Definition lift {W A} (m : io W A) : task W A :=
  fun w => let '(a, w', t) := m w in (a, w', Rv_call <$> t).

Declare Scope task_scope.
Delimit Scope task_scope with task.
Notation "x <- m ;; k" := (task_bind m (fun x => k))
  (at level 20, m at level 99, k at level 200, only parsing) : task_scope.
Notation "' p <- m ;; k" := (task_bind m (fun x => let 'p := x in k))
  (at level 20, p pattern, m at level 99, k at level 200, only parsing) : task_scope.
Notation "m ;; k" := (task_bind m (fun _ => k))
  (at level 100, k at level 200, only parsing, right associativity) : task_scope.

Definition calls_of {E W A} (r : A * W * list E) : list E := snd r.
Definition result_of {E W A} (r : A * W * list E) : A := fst (fst r).

(** The calls of the module's own code in a trace of [run]. *)
Definition module_call (e : run_event) : option event :=
  match e with Rv_call e => Some e | _ => None end.
Definition exit_answer (e : run_event) : option bool :=
  match e with Rv_should_exit b => Some b | _ => None end.
Definition app_created (e : run_event) : option N :=
  match e with Rv_app_interface_new app => Some app | _ => None end.
Definition app_freed (e : run_event) : option N :=
  match e with Rv_app_interface_free app => Some app | _ => None end.

Section Task.
Context {W : Type} `{Runtime W}.

Definition task_log (l : run_log) : task W unit := fun w => (tt, w, [Rv_log l]).

Definition call_should_exit : task W bool :=
  fun w => let '(b, w') := should_exit w in (b, w', [Rv_should_exit b]).

Definition call_app_interface_new : task W N :=
  fun w => let '(app, w') := app_interface_new w in (app, w', [Rv_app_interface_new app]).

Definition call_app_interface_free (app : N) : task W unit :=
  fun w => (tt, app_interface_free app w, [Rv_app_interface_free app]).

(** The destructor of the array [subscriptions_]: the elements are
    destroyed in decreasing index order. *)
Fixpoint destroy_subscriptions (subs : list OrbSubscription.t) : io W unit :=
  match subs with
  | [] => ret tt
  | s :: rest => (destroy_subscriptions rest ;; OrbSubscription.dtor s)%io
  end.

(** [~InputManager], implicit *)
Definition InputManager_dtor (m : InputManager) : io W unit :=
  destroy_subscriptions (subscriptions_ m).

(** [while (!should_exit()) { ... }], for at most [fuel] evaluations of
    the condition: [None] when they do not suffice. *)
Fixpoint run_loop (fuel : nat) (managers : InputManager * OutputManager)
  : task W (option (outcome (InputManager * OutputManager))) :=
  match fuel with
  | 0 => task_ret None
  | S fuel =>
      (exit <- call_should_exit ;;
       if exit then task_ret (Some (Returned managers))
       else
         r <- lift (run_cycle managers) ;;
         match r with
         | Aborted => task_ret (Some Aborted)
         | Returned managers => run_loop fuel managers
         end)%task
  end.

(** [PictorusModule::run].  [output_manager] is destroyed before
    [input_manager]; the destructor of [OrbPublication] is defaulted and
    that of [OutputManager] calls nothing. *)
Definition run (fuel : nat) : task W (option (outcome unit)) :=
  (task_log INFO_started ;;
   lift (parameters_update true) ;;
   app <- call_app_interface_new ;;
   if (app =? nullptr)%N then
     task_log ERR_create_app ;;
     task_ret (Some (Returned tt))
   else
     r <- run_loop fuel (InputManager_new, OutputManager_new) ;;
     match r with
     | None => task_ret None
     | Some Aborted => task_ret (Some Aborted)
     | Some (Returned (input_manager, output_manager)) =>
         call_app_interface_free app ;;
         task_log INFO_stopped ;;
         lift (InputManager_dtor input_manager) ;;
         task_ret (Some (Returned tt))
     end)%task.

End Task.

(** A call that leaves the second component of the world alone. *)
Definition on_fst {W R A : Type} (f : W -> A * W) (w : W * R) : A * (W * R) :=
  let '(a, w') := f (fst w) in (a, (w', snd w)).

Definition in_fst {W R : Type} (f : W -> W) (w : W * R) : W * R :=
  (f (fst w), snd w).

(** ** A bus and an engine that keep the bytes

    The trace of a relay names the calls, not the bytes.  To follow the
    bytes, a platform is wrapped into one that does what it does and keeps,
    in order, what went through the buffer pointer of each call. *)
Inductive transfer :=
| Copied (id : orb_id_t) (data : bytes)
| Written (id : orb_id_t) (buffer : bytes) (len : N)
| Read (id : orb_id_t) (data : bytes) (bytes_written : N)
| Advertised (id : orb_id_t) (buffer : bytes)
| Published (id : orb_id_t) (buffer : bytes).

Definition keeping {W A : Type} (f : W -> A * W) (entry : A -> transfer)
    (w : W * list transfer) : A * (W * list transfer) :=
  let '(a, w') := f (fst w) in (a, (w', snd w ++ [entry a])).

Definition recording {W : Type} (P : Platform W) : Platform (W * list transfer) := {|
  NDEBUG := @NDEBUG W P;
  useconds_bits := @useconds_bits W P;
  o_size := @o_size W P;
  orb_subscribe := fun id => on_fst (@orb_subscribe W P id);
  orb_unsubscribe := fun h => in_fst (@orb_unsubscribe W P h);
  orb_check := fun h => on_fst (@orb_check W P h);
  orb_copy := fun id h =>
    keeping (@orb_copy W P id h) (fun r => Copied id (snd r));
  orb_advertise := fun id data =>
    keeping (@orb_advertise W P id data) (fun _ => Advertised id data);
  orb_publish := fun id h data =>
    keeping (@orb_publish W P id h data) (fun _ => Published id data);
  rust_get_input_message_count := on_fst (@rust_get_input_message_count W P);
  rust_get_input_message_id := fun i => on_fst (@rust_get_input_message_id W P i);
  rust_write_input_message := fun id data len =>
    keeping (@rust_write_input_message W P id data len) (fun _ => Written id data len);
  rust_get_output_message_count := on_fst (@rust_get_output_message_count W P);
  rust_get_output_message_id := fun i => on_fst (@rust_get_output_message_id W P i);
  rust_output_message_has_update :=
    fun id => on_fst (@rust_output_message_has_update W P id);
  rust_read_output_message := fun id n =>
    keeping (@rust_read_output_message W P id n)
      (fun r => Read id (snd (fst r)) (snd r));
  app_interface_update := fun t => in_fst (@app_interface_update W P t);
  hrt_absolute_time := on_fst (@hrt_absolute_time W P);
  px4_usleep := fun usec => in_fst (@px4_usleep W P usec);
  parameter_update_updated := on_fst (@parameter_update_updated W P);
  parameter_update_copy := in_fst (@parameter_update_copy W P);
  updateParams := in_fst (@updateParams W P);
|}.

(** What was kept during a run that started with nothing kept. *)
Definition kept {W A : Type} (r : A * (W * list transfer) * list event)
  : list transfer := snd (snd (fst r)).

(** Every buffer given to the engine starts with the bytes just copied
    from the bus for that topic, and is given with the size of the
    topic. *)
Definition writes_follow_copies {W : Type} `{Platform W} (l : list transfer) : Prop :=
  forall l1 l2 id buffer len,
    l = l1 ++ Written id buffer len :: l2 ->
    len = o_size id /\
    exists l0 data,
      l1 = l0 ++ [Copied id data] /\ take (length data) buffer = data.

(** Every buffer advertised or published starts with the bytes just read
    from the engine for that topic, in a read that returned the size of
    the topic; a buffer advertised is published next. *)
Definition publications_follow_reads {W : Type} `{Platform W} (l : list transfer)
  : Prop :=
  (forall l1 l2 id buffer,
     l = l1 ++ Advertised id buffer :: l2 ->
     exists l0 data,
       l1 = l0 ++ [Read id data (o_size id)] /\ take (length data) buffer = data) /\
  (forall l1 l2 id buffer,
     l = l1 ++ Published id buffer :: l2 ->
     exists l0 data,
       (l1 = l0 ++ [Read id data (o_size id)] \/
        l1 = l0 ++ [Read id data (o_size id); Advertised id buffer]) /\
       take (length data) buffer = data).

(** ** The command line: [instantiate], [custom_command], [print_usage] *)

(** The lines of [print_usage]: [PRINT_MODULE_DESCRIPTION] (the text is
    left out) and the [PRINT_MODULE_USAGE_...] macros with their
    arguments. *)
Inductive usage_line :=
| USAGE_description
| USAGE_name (executable_name category : String.string)
| USAGE_command (name : String.string)
| USAGE_param_flag (option_char : Z) (description : String.string) (is_optional : bool)
| USAGE_param_int (option_char default_val min_val max_val : Z)
    (description : String.string) (is_optional : bool)
| USAGE_default_commands.

Inductive shell_log :=
| WARN_reason (reason : String.string)
| WARN_unrecognized_flag
| ERR_alloc_failed.

Inductive shell_event :=
| Sh_getopt (myoptind : Z) (ch : Z)
| Sh_new (example_param : Z) (example_flag : bool) (instance : N)
| Sh_usage (l : usage_line)
| Sh_log (l : shell_log).

(** What [instantiate] calls: [px4_getopt], which is given [argv], the
    option string and the values of [myoptind] and [myoptarg] and returns
    the option character and their new values; [(int)strtol(s, nullptr,
    10)]; and [new PictorusModule(example_param, example_flag)], which
    returns the address of the instance, [0] when the allocation fails. *)
Class Shell (W : Type) := {
  px4_getopt : list String.string -> String.string -> Z -> option String.string ->
               W -> (Z * Z * option String.string) * W;
  strtol : option String.string -> Z;
  new_PictorusModule : Z -> bool -> W -> N * W;
}.

Definition EOF : Z := -1.

(** The characters ['p'], ['f'] and ['?']. *)
Definition char_p : Z := 112.
Definition char_f : Z := 102.
Definition char_question : Z := 63.

(** The option characters the [switch] of [instantiate] takes without
    setting [error_flag]. *)
Definition accepted_option (ch : Z) : bool := (ch =? char_p)%Z || (ch =? char_f)%Z.

Definition getopt_answer (e : shell_event) : option Z :=
  match e with Sh_getopt _ ch => Some ch | _ => None end.
Definition constructed (e : shell_event) : option N :=
  match e with Sh_new _ _ instance => Some instance | _ => None end.
Definition is_unrecognized (e : shell_event) : bool :=
  match e with Sh_log WARN_unrecognized_flag => true | _ => false end.
Definition documented_option (e : shell_event) : option Z :=
  match e with
  | Sh_usage (USAGE_param_flag c _ _) | Sh_usage (USAGE_param_int c _ _ _ _ _) => Some c
  | _ => None
  end.

Section CommandLine.
Context {W : Type} `{Shell W}.

Definition shell_log_line (l : shell_log) : act shell_event W unit :=
  fun w => (tt, w, [Sh_log l]).

Definition usage (l : usage_line) : act shell_event W unit :=
  fun w => (tt, w, [Sh_usage l]).

Definition call_px4_getopt (argv : list String.string) (options : String.string)
    (myoptind : Z) (myoptarg : option String.string)
  : act shell_event W (Z * Z * option String.string) :=
  fun w => let '(ch, myoptind', myoptarg', w') :=
             px4_getopt argv options myoptind myoptarg w in
           ((ch, myoptind', myoptarg'), w', [Sh_getopt myoptind ch]).

Definition call_new (example_param : Z) (example_flag : bool)
  : act shell_event W N :=
  fun w => let '(instance, w') := new_PictorusModule example_param example_flag w in
           (instance, w', [Sh_new example_param example_flag instance]).

(** [PictorusModule::print_usage] *)
Definition print_usage (reason : option String.string) : act shell_event W Z :=
  ((match reason with
    | Some reason => shell_log_line (WARN_reason reason)
    | None => task_ret tt
    end) ;;
   usage USAGE_description ;;
   usage (USAGE_name "module" "pictorus") ;;
   usage (USAGE_command "start") ;;
   usage (USAGE_param_flag char_f "Optional example flag" true) ;;
   usage (USAGE_param_int char_p 0 0 1000 "Optional example parameter" true) ;;
   usage USAGE_default_commands ;;
   task_ret 0%Z)%task%string.

(** [PictorusModule::custom_command] *)
Definition custom_command (argv : list String.string) : act shell_event W Z :=
  print_usage (Some "unknown command"%string).

(** The loop of [instantiate], for at most [fuel] calls of [px4_getopt]:
    the values of [example_param], [example_flag] and [error_flag] when
    [px4_getopt] returns [EOF].  The [switch] is the chain of comparisons
    with its [case] labels, the [default] last. *)
Fixpoint parse_options (fuel : nat) (argv : list String.string)
    (myoptind : Z) (myoptarg : option String.string)
    (example_param : Z) (example_flag error_flag : bool)
  : act shell_event W (option (Z * bool * bool)) :=
  match fuel with
  | 0 => task_ret None
  | S fuel =>
      ('(ch, myoptind, myoptarg) <-
         call_px4_getopt argv "p:f"%string myoptind myoptarg ;;
       if (ch =? EOF)%Z then task_ret (Some (example_param, example_flag, error_flag))
       else if (ch =? char_p)%Z then
         parse_options fuel argv myoptind myoptarg
           (strtol myoptarg) example_flag error_flag
       else if (ch =? char_f)%Z then
         parse_options fuel argv myoptind myoptarg example_param true error_flag
       else if (ch =? char_question)%Z then
         parse_options fuel argv myoptind myoptarg example_param example_flag true
       else
         shell_log_line WARN_unrecognized_flag ;;
         parse_options fuel argv myoptind myoptarg example_param example_flag true)%task
  end.

(** [PictorusModule::instantiate]: the address of the instance, [0] for
    [nullptr]. *)
Definition instantiate (fuel : nat) (argv : list String.string)
  : act shell_event W (option N) :=
  (r <- parse_options fuel argv 1 None 0 false false ;;
   match r with
   | None => task_ret None
   | Some (example_param, example_flag, error_flag) =>
       if error_flag then task_ret (Some nullptr)
       else
         instance <- call_new example_param example_flag ;;
         if (instance =? nullptr)%N then
           shell_log_line ERR_alloc_failed ;;
           task_ret (Some instance)
         else task_ret (Some instance)
   end)%task.

End CommandLine.

(** A scripted command line: the world is the list of the coming answers
    of [px4_getopt], [EOF] when it is empty; the instance is at address
    [9]. *)
Definition scripted_shell : Shell (list (Z * option String.string)) := {|
  px4_getopt := fun _ _ myoptind myoptarg w =>
    match w with
    | [] => ((EOF, myoptind, myoptarg), [])
    | (ch, arg) :: rest => ((ch, (myoptind + 1)%Z, arg), rest)
    end;
  strtol := fun s => match s with Some _ => 42%Z | None => 0%Z end;
  new_PictorusModule := fun _ _ w => (9%N, w);
|}.

(** ** A scripted task

    The scripted bus and engine, with the coming answers of
    [should_exit] (when they run out, the answer is [true]) and the address
    [app_interface_new] returns. *)
Definition lifted {W : Type} (R : Type) (P : Platform W) : Platform (W * R) := {|
  NDEBUG := @NDEBUG W P;
  useconds_bits := @useconds_bits W P;
  o_size := @o_size W P;
  orb_subscribe := fun id => on_fst (@orb_subscribe W P id);
  orb_unsubscribe := fun h => in_fst (@orb_unsubscribe W P h);
  orb_check := fun h => on_fst (@orb_check W P h);
  orb_copy := fun id h => on_fst (@orb_copy W P id h);
  orb_advertise := fun id data => on_fst (@orb_advertise W P id data);
  orb_publish := fun id h data => on_fst (@orb_publish W P id h data);
  rust_get_input_message_count := on_fst (@rust_get_input_message_count W P);
  rust_get_input_message_id := fun i => on_fst (@rust_get_input_message_id W P i);
  rust_write_input_message :=
    fun id data len => on_fst (@rust_write_input_message W P id data len);
  rust_get_output_message_count := on_fst (@rust_get_output_message_count W P);
  rust_get_output_message_id := fun i => on_fst (@rust_get_output_message_id W P i);
  rust_output_message_has_update :=
    fun id => on_fst (@rust_output_message_has_update W P id);
  rust_read_output_message :=
    fun id n => on_fst (@rust_read_output_message W P id n);
  app_interface_update := fun t => in_fst (@app_interface_update W P t);
  hrt_absolute_time := on_fst (@hrt_absolute_time W P);
  px4_usleep := fun usec => in_fst (@px4_usleep W P usec);
  parameter_update_updated := on_fst (@parameter_update_updated W P);
  parameter_update_copy := in_fst (@parameter_update_copy W P);
  updateParams := in_fst (@updateParams W P);
|}.

Definition sim_should_exit (w : sim * list bool) : bool * (sim * list bool) :=
  match snd w with
  | [] => (true, w)
  | b :: rest => (b, (fst w, rest))
  end.

Definition scripted_task (sc : script) (app : N) : Runtime (sim * list bool) := {|
  runtime_platform := lifted (list bool) (scripted sc);
  should_exit := sim_should_exit;
  app_interface_new := fun w => (app, w);
  app_interface_free := fun _ w => w;
|}.

(** Two cycles, then the exit request: topics [1] and [2] are inputs with
    unread data, topic [3] is an output with an update. *)
Definition two_cycles : sim * list bool :=
  ({| sim_fresh := [1; 2]%Z; sim_pending := [3%N];
      sim_clock := [1000; 1100; 1200; 11000; 11100; 11200]%Z |},
   [false; false; true]).

Definition two_cycle_run : option (outcome unit) * (sim * list bool) * list run_event :=
  @run _ (scripted_task (nominal [1; 2]%N [3%N]) 7) 5 two_cycles.

(** More variations on a script: the answers to the count queries, and
    the handle [orb_advertise] returns. *)
Definition with_counts (inputs outputs : FfiError * N) (sc : script) : script := {|
  sc_ndebug := sc_ndebug sc;
  sc_useconds_bits := sc_useconds_bits sc;
  sc_size := sc_size sc;
  sc_subscribe := sc_subscribe sc;
  sc_advertise := sc_advertise sc;
  sc_input_count := inputs;
  sc_input_id := sc_input_id sc;
  sc_output_count := outputs;
  sc_output_id := sc_output_id sc;
  sc_read := sc_read sc;
|}.

Definition with_advertise (advertise : orb_id_t -> orb_advert_t) (sc : script)
  : script := {|
  sc_ndebug := sc_ndebug sc;
  sc_useconds_bits := sc_useconds_bits sc;
  sc_size := sc_size sc;
  sc_subscribe := sc_subscribe sc;
  sc_advertise := advertise;
  sc_input_count := sc_input_count sc;
  sc_input_id := sc_input_id sc;
  sc_output_count := sc_output_count sc;
  sc_output_id := sc_output_id sc;
  sc_read := sc_read sc;
|}.

(** An engine whose input count query fails, with a count of [99], and
    that declares no output. *)
Definition unanswered : script :=
  with_counts (FFI_NULL_ARGUMENT, 99%N) (FFI_SUCCESS, 0%N) (nominal [] []).

(** A bus that refuses every subscription and every advertisement. *)
Definition refusing_all : script :=
  with_advertise (fun _ => nullptr)
    (with_subscribe (fun _ => (-1)%Z) (nominal [1%N] [1%N])).

(** The engine declares topics [1 .. 16] as inputs and as outputs. *)
Definition sixteen_topics : script :=
  nominal (topics_upto MAX_MESSAGES) (topics_upto MAX_MESSAGES).

(** Topic [1] has unread data and an update, in a cycle that starts at
    [1000] and reaches its sleep at [1200]. *)
Definition busy_on_time : sim :=
  {| sim_fresh := [1%Z]; sim_pending := [1%N]; sim_clock := [1000; 1100; 1200]%Z |}.

(** The options [-f -p 42]. *)
Definition flag_and_param : list (Z * option String.string) :=
  [(char_f, None); (char_p, Some "42"%string)].


(** * Facts *)

(** ** Arrays scanned for a valid entry and for a free one *)
Section PoolFacts.
Context {A : Type}.
Implicit Types (valid : A -> bool) (key : A -> orb_id_t) (pool : list A).

Lemma elem_of_bound_ids valid key pool id :
  id ∈ bound_ids valid key pool <->
  exists x, x ∈ pool /\ valid x = true /\ key x = id.
Proof.
  unfold bound_ids. rewrite list_elem_of_fmap. split.
  - intros (x & -> & [Hv Hx]%list_elem_of_filter).
    exists x. split_and!; [done | by apply Is_true_true | done].
  - intros (x & Hx & Hv & <-). exists x. split; [done|].
    apply list_elem_of_filter. split; [by apply Is_true_true | done].
Qed.

Lemma find_bound_Some valid key pool id i x :
  list_find (fun x => valid x && bool_decide (key x = id)) pool = Some (i, x) ->
  pool !! i = Some x /\ valid x = true /\ key x = id.
Proof.
  intros (Hi & HP & _)%list_find_Some.
  apply andb_prop_elim in HP as [Hv Hk].
  split_and!; [done | by apply Is_true_true | by apply bool_decide_unpack in Hk].
Qed.

Lemma find_bound_None valid key pool id :
  list_find (fun x => valid x && bool_decide (key x = id)) pool = None <->
  id ∉ bound_ids valid key pool.
Proof.
  rewrite list_find_None, Forall_forall, elem_of_bound_ids.
  setoid_rewrite <- list_elem_of_In. split.
  - intros Hall (x & Hx & Hv & Hk). apply (Hall x Hx).
    rewrite Hv. simpl. by apply bool_decide_pack.
  - intros Hno x Hx HP. apply andb_prop_elim in HP as [Hv Hk].
    apply Hno. exists x.
    split_and!; [done | by apply Is_true_true | by apply bool_decide_unpack in Hk].
Qed.

Lemma find_free_Some valid pool i x :
  list_find (fun x => negb (valid x)) pool = Some (i, x) ->
  pool !! i = Some x /\ valid x = false.
Proof.
  intros (Hi & HP & _)%list_find_Some. split; [done|].
  destruct (valid x); [by simpl in HP | done].
Qed.

Lemma find_free_None valid pool :
  list_find (fun x => negb (valid x)) pool = None <->
  Forall (fun x => valid x = true) pool.
Proof.
  rewrite list_find_None. apply Forall_proper; [|done].
  intros x. destruct (valid x); simpl; naive_solver.
Qed.

Lemma bound_ids_full valid key pool :
  Forall (fun x => valid x = true) pool ->
  length (bound_ids valid key pool) = length pool.
Proof.
  unfold bound_ids. rewrite length_fmap.
  induction 1 as [|x l Hx _ IH]; [done|].
  rewrite filter_cons_True by (by apply Is_true_true). simpl. by rewrite IH.
Qed.

(** A pool with fewer bindings than slots has a slot to give. *)
Lemma free_slot_exists valid key pool :
  length (bound_ids valid key pool) < length pool ->
  is_Some (list_find (fun x => negb (valid x)) pool).
Proof.
  intros Hlt.
  destruct (list_find (fun x => negb (valid x)) pool) eqn:E; [by eexists|].
  apply find_free_None, (bound_ids_full valid key) in E. lia.
Qed.

Lemma bound_ids_split valid key pool i x :
  pool !! i = Some x ->
  bound_ids valid key pool =
  bound_ids valid key (take i pool) ++ (if valid x then [key x] else []) ++
  bound_ids valid key (drop (S i) pool).
Proof.
  intros Hi. rewrite <- (take_drop_middle pool i x Hi) at 1.
  unfold bound_ids. rewrite list.filter_app, filter_cons, fmap_app.
  destruct (valid x) eqn:Hv.
  - rewrite decide_True by (by apply Is_true_true). done.
  - rewrite decide_False by (intros Hx%Is_true_true; congruence). done.
Qed.

Lemma bound_ids_insert valid key pool i old new :
  pool !! i = Some old ->
  bound_ids valid key (<[i:=new]> pool) =
  bound_ids valid key (take i pool) ++ (if valid new then [key new] else []) ++
  bound_ids valid key (drop (S i) pool).
Proof.
  intros Hi. pose proof (lookup_lt_Some _ _ _ Hi) as Hlt.
  rewrite (bound_ids_split valid key (<[i:=new]> pool) i new)
    by (by apply list_lookup_insert_eq).
  rewrite take_insert_ge by lia. rewrite drop_insert_lt by lia. done.
Qed.

(** Storing a valid entry in a slot that was not valid adds its topic. *)
Lemma bound_ids_insert_valid valid key pool i old new :
  pool !! i = Some old -> valid old = false -> valid new = true ->
  bound_ids valid key (<[i:=new]> pool) ≡ₚ key new :: bound_ids valid key pool.
Proof.
  intros Hi Ho Hn.
  rewrite (bound_ids_insert valid key pool i old new Hi),
    (bound_ids_split valid key pool i old Hi).
  rewrite Ho, Hn. simpl. by rewrite Permutation_middle.
Qed.

(** Storing an entry that is not valid in such a slot changes nothing. *)
Lemma bound_ids_insert_invalid valid key pool i old new :
  pool !! i = Some old -> valid old = false -> valid new = false ->
  bound_ids valid key (<[i:=new]> pool) = bound_ids valid key pool.
Proof.
  intros Hi Ho Hn.
  rewrite (bound_ids_insert valid key pool i old new Hi),
    (bound_ids_split valid key pool i old Hi).
  by rewrite Ho, Hn.
Qed.

(** Valid entries stay where they are when a slot that is not valid is
    overwritten. *)
Lemma insert_keeps_valid valid pool i old new j x :
  pool !! i = Some old -> valid old = false ->
  pool !! j = Some x -> valid x = true ->
  <[i:=new]> pool !! j = Some x.
Proof.
  intros Hi Ho Hj Hx. rewrite list_lookup_insert_ne; [done|].
  intros ->. congruence.
Qed.

(** Bindings that, with one more topic, fit a universe no larger than the
    array leave a slot free. *)
Lemma room_for_new valid key pool (universe : list orb_id_t) id :
  NoDup (bound_ids valid key pool) ->
  (forall x, x ∈ bound_ids valid key pool -> x ∈ universe) ->
  id ∈ universe -> id ∉ bound_ids valid key pool ->
  length universe <= length pool ->
  length (bound_ids valid key pool) < length pool.
Proof.
  intros Hnd Hsub Hid Hnew Hlen.
  assert (id :: bound_ids valid key pool ⊆+ universe) as Hle%submseteq_length.
  { apply NoDup_submseteq; [by apply NoDup_cons_2|].
    intros x [->|Hx]%elem_of_cons; auto. }
  simpl in Hle. lia.
Qed.

End PoolFacts.

(** ** What one [ensure] call does *)
Section EnsureFacts.
Context {W : Type} `{Platform W}.

Lemma ensure_subscription_result id subs w :
  ensure_sub_result id subs w (ensure_subscription id subs w).
Proof.
  unfold ensure_subscription.
  destruct (list_find _ subs) as [[i s]|] eqn:Efound.
  { apply find_bound_Some in Efound as (? & ? & ?).
    by eapply ensure_sub_found. }
  apply find_bound_None in Efound.
  destruct (list_find _ subs) as [[i old]|] eqn:Efree.
  - apply find_free_Some in Efree as [Hi Hold].
    unfold bind, log, OrbSubscription.ctor, bind, call_orb_subscribe,
      OrbSubscription.move_assign, OrbSubscription.dtor, bind.
    pose proof Hold as Hold'. unfold OrbSubscription.is_valid in Hold'. rewrite Hold'.
    destruct (orb_subscribe id w) as [h w'] eqn:Esub.
    destruct (h <? 0)%Z eqn:Eh; simpl.
    + apply Z.ltb_lt in Eh. by eapply ensure_sub_failed.
    + apply Z.ltb_ge in Eh.
      destruct (0 <=? h)%Z eqn:Eh'; [|lia]. simpl.
      by eapply ensure_sub_created.
  - apply find_free_None in Efree.
    by apply ensure_sub_exhausted.
Qed.

Lemma ensure_publication_result id data pubs w :
  ensure_pub_result id data pubs w (ensure_publication id data pubs w).
Proof.
  unfold ensure_publication.
  destruct (list_find _ pubs) as [[i p]|] eqn:Efound.
  { apply find_bound_Some in Efound as (? & ? & ?).
    by eapply ensure_pub_found. }
  apply find_bound_None in Efound.
  destruct (list_find _ pubs) as [[i old]|] eqn:Efree.
  - apply find_free_Some in Efree as [Hi Hold].
    unfold bind, log, OrbPublication.ctor, bind, call_orb_advertise.
    destruct (orb_advertise id data w) as [h w'] eqn:Eadv.
    destruct (N.eqb h nullptr) eqn:Eh; simpl.
    + apply N.eqb_eq in Eh. subst h. by eapply ensure_pub_failed.
    + apply N.eqb_neq in Eh. by eapply ensure_pub_created.
  - apply find_free_None in Efree.
    by apply ensure_pub_exhausted.
Qed.

Lemma ensure_sub_length id subs w r subs' w' t :
  ensure_sub_result id subs w (r, subs', w', t) -> length subs' = length subs.
Proof. inversion 1; subst; by rewrite ?length_insert. Qed.

Lemma ensure_sub_keeps id subs w r subs' w' t j s :
  ensure_sub_result id subs w (r, subs', w', t) ->
  subs !! j = Some s -> OrbSubscription.is_valid s = true -> subs' !! j = Some s.
Proof.
  inversion 1; subst; intros Hj Hs; try done;
    by eapply (insert_keeps_valid OrbSubscription.is_valid).
Qed.

(** A valid binding returned by [ensure_subscription id] is a binding of [id]
    held by the pool. *)
Lemma ensure_sub_ref id subs w r subs' w' t :
  ensure_sub_result id subs w (r, subs', w', t) ->
  OrbSubscription.is_valid (deref_sub r subs') = true ->
  OrbSubscription.id_ (deref_sub r subs') = id /\ id ∈ sub_ids subs'.
Proof.
  inversion 1; subst; simpl.
  - match goal with Hi : _ !! _ = Some _ |- _ => rewrite Hi end. simpl.
    intros _. split; [done|]. apply elem_of_bound_ids. exists s.
    split_and!; [by eapply list_elem_of_lookup_2 | done | done].
  - rewrite list_lookup_insert_eq by (by eapply lookup_lt_Some). simpl.
    intros Hv. split; [done|]. apply elem_of_bound_ids.
    eexists. split_and!; [|exact Hv|done].
    eapply list_elem_of_lookup_2, list_lookup_insert_eq. by eapply lookup_lt_Some.
  - rewrite list_lookup_insert_eq by (by eapply lookup_lt_Some). done.
  - done.
Qed.

(** The bindings of the pool after [ensure_subscription id]: the same, or
    one more, for [id], when the bus granted the subscription. *)
Lemma ensure_sub_ids id subs w r subs' w' t :
  ensure_sub_result id subs w (r, subs', w', t) ->
  (sub_ids subs' = sub_ids subs /\
   (forall T h, (0 <= h)%Z -> Ev_orb_subscribe T h ∉ t)) \/
  ((id ∉ sub_ids subs) /\ sub_ids subs' ≡ₚ id :: sub_ids subs /\
   exists h, (0 <= h)%Z /\ Ev_orb_subscribe id h ∈ t).
Proof.
  inversion 1; subst.
  - left. split; [done|]. intros ?? _ ?%elem_of_nil. done.
  - right. split_and!; [done| |].
    + eapply (bound_ids_insert_valid OrbSubscription.is_valid OrbSubscription.id_);
        [done..|].
      by apply Z.leb_le.
    + eexists. split; [eassumption|].
      apply elem_of_cons. right. apply elem_of_cons. by left.
  - left. split.
    + by eapply (bound_ids_insert_invalid OrbSubscription.is_valid OrbSubscription.id_).
    + intros T h' Hh' Hin.
      repeat (apply elem_of_cons in Hin as [Hin|Hin]; [simplify_eq; lia|]).
      by apply elem_of_nil in Hin.
  - left. split; [done|]. intros T h' _ Hin.
    repeat (apply elem_of_cons in Hin as [Hin|Hin]; [simplify_eq|]).
    by apply elem_of_nil in Hin.
Qed.

(** [ensure_subscription] only logs and subscribes. *)
Lemma ensure_sub_quiet p id subs w r subs' w' t :
  ensure_sub_result id subs w (r, subs', w', t) ->
  (forall l, p (Ev_log l) = false) ->
  (forall T h, p (Ev_orb_subscribe T h) = false) ->
  count p t = 0.
Proof.
  intros Hres Hlog Hsub. unfold count.
  inversion Hres; subst; simpl; by rewrite ?Hlog, ?Hsub.
Qed.

Lemma ensure_pub_length id data pubs w r pubs' w' t :
  ensure_pub_result id data pubs w (r, pubs', w', t) -> length pubs' = length pubs.
Proof. inversion 1; subst; by rewrite ?length_insert. Qed.

Lemma ensure_pub_keeps id data pubs w r pubs' w' t j p :
  ensure_pub_result id data pubs w (r, pubs', w', t) ->
  pubs !! j = Some p -> OrbPublication.is_valid p = true -> pubs' !! j = Some p.
Proof.
  inversion 1; subst; intros Hj Hp; try done;
    by eapply (insert_keeps_valid OrbPublication.is_valid).
Qed.

Lemma ensure_pub_ref id data pubs w r pubs' w' t :
  ensure_pub_result id data pubs w (r, pubs', w', t) ->
  OrbPublication.is_valid (deref_pub r pubs') = true ->
  OrbPublication.id_ (deref_pub r pubs') = id /\ id ∈ pub_ids pubs'.
Proof.
  inversion 1; subst; simpl.
  - match goal with Hi : _ !! _ = Some _ |- _ => rewrite Hi end. simpl.
    intros _. split; [done|]. apply elem_of_bound_ids. exists p.
    split_and!; [by eapply list_elem_of_lookup_2 | done | done].
  - rewrite list_lookup_insert_eq by (by eapply lookup_lt_Some). simpl.
    intros Hv. split; [done|]. apply elem_of_bound_ids.
    eexists. split_and!; [|exact Hv|done].
    eapply list_elem_of_lookup_2, list_lookup_insert_eq. by eapply lookup_lt_Some.
  - rewrite list_lookup_insert_eq by (by eapply lookup_lt_Some). done.
  - done.
Qed.

Lemma ensure_pub_ids id data pubs w r pubs' w' t :
  ensure_pub_result id data pubs w (r, pubs', w', t) ->
  pub_ids pubs' = pub_ids pubs \/
  ((id ∉ pub_ids pubs) /\ pub_ids pubs' ≡ₚ id :: pub_ids pubs).
Proof.
  inversion 1; subst.
  - by left.
  - right. split; [done|].
    eapply (bound_ids_insert_valid OrbPublication.is_valid OrbPublication.id_); [done..|].
    unfold OrbPublication.is_valid. simpl. by apply negb_true_iff, N.eqb_neq.
  - left. by eapply (bound_ids_insert_invalid OrbPublication.is_valid OrbPublication.id_).
  - by left.
Qed.

(** The calls [ensure_publication] made, by the validity of what it
    returned. *)
Lemma ensure_pub_valid_trace id data pubs w r pubs' w' t :
  ensure_pub_result id data pubs w (r, pubs', w', t) ->
  OrbPublication.is_valid (deref_pub r pubs') = true ->
  t = [] \/
  exists h, (h =? nullptr)%N = false /\
            t = [Ev_log (INFO_advertising id); Ev_orb_advertise id h].
Proof.
  inversion 1; subst; simpl.
  - by left.
  - intros _. right. eexists. split; [|done]. by apply N.eqb_neq.
  - rewrite list_lookup_insert_eq by (by eapply lookup_lt_Some). done.
  - done.
Qed.

Lemma ensure_pub_invalid_trace id data pubs w r pubs' w' t :
  ensure_pub_result id data pubs w (r, pubs', w', t) ->
  OrbPublication.is_valid (deref_pub r pubs') = false ->
  t = [Ev_log (INFO_advertising id); Ev_orb_advertise id nullptr;
       Ev_log ERR_advertise] \/
  t = [Ev_log ERR_too_many_publications].
Proof.
  inversion 1; subst; simpl.
  - match goal with Hi : _ !! _ = Some _ |- _ => rewrite Hi end. simpl. congruence.
  - rewrite list_lookup_insert_eq by (by eapply lookup_lt_Some).
    unfold OrbPublication.is_valid. simpl. intros Hv%negb_false_iff%N.eqb_eq. done.
  - by left.
  - by right.
Qed.

Lemma ensure_sub_NoDup id subs w r subs' w' t :
  ensure_sub_result id subs w (r, subs', w', t) ->
  NoDup (sub_ids subs) -> NoDup (sub_ids subs').
Proof.
  intros [[-> _] | (Hnew & Hperm & _)]%ensure_sub_ids Hnd; [done|].
  rewrite Hperm. by apply NoDup_cons_2.
Qed.

(** A binding the pool holds afterwards was there before or was just
    granted by the bus. *)
Lemma ensure_sub_origin id subs w r subs' w' t T :
  ensure_sub_result id subs w (r, subs', w', t) ->
  T ∈ sub_ids subs' ->
  T ∈ sub_ids subs \/ exists h, (0 <= h)%Z /\ Ev_orb_subscribe T h ∈ t.
Proof.
  intros [[-> _] | (Hnew & Hperm & Hev)]%ensure_sub_ids HT; [by left|].
  rewrite Hperm in HT. apply elem_of_cons in HT as [-> | HT]; auto.
Qed.

Lemma ensure_pub_NoDup id data pubs w r pubs' w' t :
  ensure_pub_result id data pubs w (r, pubs', w', t) ->
  NoDup (pub_ids pubs) -> NoDup (pub_ids pubs').
Proof.
  intros [-> | (Hnew & Hperm)]%ensure_pub_ids Hnd; [done|].
  rewrite Hperm. by apply NoDup_cons_2.
Qed.

End EnsureFacts.

(** ** What one pass through a loop body does *)
Section StepFacts.
Context {W : Type} `{Platform W}.

Lemma input_step_spec i m w : input_step_result i m w (input_step i m w).
Proof.
  unfold input_step, bind, call_input_id.
  destruct (rust_get_input_message_id i w) as [[e id] w1] eqn:Eid.
  destruct (ffi_failed e) eqn:Ee.
  { unfold log. simpl. by eapply input_unresolved. }
  pose proof (ensure_subscription_result id (subscriptions_ m) w1) as Hens.
  destruct (ensure_subscription id (subscriptions_ m) w1)
    as [[[r subs] w2] t2] eqn:Eens.
  unfold OrbSubscription.check_updated.
  destruct (OrbSubscription.is_valid (deref_sub r subs)) eqn:Ev; simpl.
  2: { rewrite app_nil_r. by eapply input_unbound. }
  destruct (ensure_sub_ref _ _ _ _ _ _ _ Hens Ev) as [Hid _].
  unfold bind, call_orb_check. rewrite Hid.
  destruct (orb_check _ w2) as [[rc updated] w3] eqn:Echk. simpl.
  destruct ((0 <=? rc)%Z && updated) eqn:Efresh.
  2: { unfold ret. simpl. by eapply input_stale. }
  change (MAX_MESSAGE_SIZE <? o_size id)%N with (oversize id).
  destruct (oversize id) eqn:Esize.
  { unfold log. simpl. by eapply input_oversize. }
  unfold OrbSubscription.copy_data. rewrite Ev. simpl.
  unfold bind, call_orb_copy. rewrite Hid.
  destruct (orb_copy _ _ w3) as [[rc' data] w4] eqn:Ecopy. simpl.
  destruct (0 <=? rc')%Z eqn:Erc'.
  2: { unfold ret. simpl. by eapply input_copy_failed. }
  unfold call_write_input.
  destruct (rust_write_input_message _ _ _ w4) as [res w5] eqn:Ewrite.
  pose proof (input_written i m w _ _ _ _ _ _ _ _ _ _ _ _ _ _ _
                Eid Ee Hens Ev Echk Efresh Esize Ecopy Erc' Ewrite) as Hc.
  destruct (ffi_failed res) eqn:Eres; unfold log, ret; simpl; exact Hc.
Qed.

Lemma output_step_spec i m w : output_step_result i m w (output_step i m w).
Proof.
  unfold output_step, bind, call_output_id.
  destruct (rust_get_output_message_id i w) as [[e id] w1] eqn:Eid.
  destruct (ffi_failed e) eqn:Ee.
  { unfold log. simpl. by eapply output_unresolved. }
  unfold call_has_update.
  destruct (rust_output_message_has_update id w1) as [[e' has_update] w2] eqn:Eupd.
  destruct (ffi_failed e') eqn:Ee'.
  { unfold log. simpl. by eapply output_unknown. }
  destruct has_update.
  2: { unfold ret. simpl. by eapply output_idle. }
  change (MAX_MESSAGE_SIZE <? o_size id)%N with (oversize id).
  destruct (oversize id) eqn:Esize.
  { unfold log. simpl. by eapply output_oversize. }
  unfold call_read_output.
  destruct (rust_read_output_message id MAX_MESSAGE_SIZE w2)
    as [[[res data] n] w3] eqn:Eread.
  destruct (ffi_failed res) eqn:Eres; simpl.
  { unfold log. simpl. by eapply output_read_failed. }
  destruct (n =? o_size id)%N eqn:En; simpl.
  2: { unfold log. simpl. by eapply output_size_mismatch. }
  pose proof (ensure_publication_result id (store data (output_buffer m))
                (publications_ m) w3) as Hens.
  destruct (ensure_publication id (store data (output_buffer m))
              (publications_ m) w3) as [[[r pubs] w4] t4] eqn:Eens.
  destruct (OrbPublication.is_valid (deref_pub r pubs)) eqn:Ev.
  2: { unfold ret. simpl. rewrite app_nil_r. by eapply output_unbound. }
  destruct (ensure_pub_ref _ _ _ _ _ _ _ _ Hens Ev) as [Hid _].
  unfold OrbPublication.publish. rewrite Ev. simpl.
  unfold bind, call_orb_publish. rewrite Hid.
  destruct (orb_publish _ _ _ w4) as [rc w5] eqn:Epub.
  unfold ret. simpl. by eapply output_published.
Qed.

End StepFacts.

(** ** From one pass to the whole loop *)
Section LoopFacts.
Context {W : Type} `{Platform W}.

Lemma count_app p t1 t2 : count p (t1 ++ t2) = count p t1 + count p t2.
Proof. unfold count. by rewrite List.filter_app, length_app. Qed.

Lemma count_le p q t :
  (forall e, p e = true -> q e = true) -> count p t <= count q t.
Proof.
  intros Hpq. unfold count. induction t as [|e t IH]; simpl; [done|].
  destruct (p e) eqn:Ep.
  - rewrite (Hpq e Ep). simpl. lia.
  - destruct (q e); simpl; lia.
Qed.

(** Two kinds of entries that exclude each other, both of a third kind. *)
Lemma count_disjoint_le p q r t :
  (forall e, p e = true -> q e = false /\ r e = true) ->
  (forall e, q e = true -> r e = true) ->
  count p t + count q t <= count r t.
Proof.
  intros Hp Hq. unfold count. induction t as [|e t IH]; simpl; [done|].
  destruct (p e) eqn:Ep.
  - destruct (Hp e Ep) as [-> ->]. simpl. lia.
  - destruct (q e) eqn:Eq.
    + rewrite (Hq e Eq). simpl. lia.
    + destruct (r e); simpl; lia.
Qed.

Lemma count_cons p e t : count p (e :: t) = (if p e then 1 else 0) + count p t.
Proof. unfold count. simpl. by destruct (p e). Qed.

(** A relation between the state before, the state after and the calls
    made that holds for no pass, composes, and holds for one pass, holds
    for the loop. *)
Lemma for_each_rel {S : Type} (body : N -> S -> io W S)
    (Q : S -> S -> list event -> Prop) :
  (forall s, Q s s []) ->
  (forall s1 s2 s3 t1 t2, Q s1 s2 t1 -> Q s2 s3 t2 -> Q s1 s3 (t1 ++ t2)) ->
  (forall i s w, Q s (value_of (body i s w)) (trace_of (body i s w))) ->
  forall indices s w,
    Q s (value_of (for_each body indices s w)) (trace_of (for_each body indices s w)).
Proof.
  intros Hrefl Htrans Hstep indices.
  induction indices as [|i rest IH]; intros s w; simpl; [apply Hrefl|].
  unfold bind. specialize (Hstep i s w).
  destruct (body i s w) as [[s1 w1] t1]. specialize (IH s1 w1).
  destruct (for_each body rest s1 w1) as [[s2 w2] t2]. simpl in *.
  eauto.
Qed.

Lemma input_counts_nil T : input_counts T [].
Proof. unfold input_counts, count. simpl. destruct (oversize T); auto. Qed.

Lemma input_counts_app T t1 t2 :
  input_counts T t1 -> input_counts T t2 -> input_counts T (t1 ++ t2).
Proof.
  unfold input_counts. rewrite !count_app.
  destruct (oversize T); intros (? & ? & ? & ?) (? & ? & ? & ?); split_and!; lia.
Qed.

Lemma output_counts_nil T : output_counts T [].
Proof.
  unfold output_counts, count. simpl. destruct (oversize T); split_and!; auto.
Qed.

Lemma output_counts_app T t1 t2 :
  output_counts T t1 -> output_counts T t2 -> output_counts T (t1 ++ t2).
Proof.
  unfold output_counts. rewrite !count_app.
  destruct (oversize T);
    intros (? & ? & ? & ? & ? & ? & ? & ?) (? & ? & ? & ? & ? & ? & ? & ?);
    split_and!; lia.
Qed.

Ltac step_leaf :=
  unfold count; simpl;
  repeat first
    [ case_bool_decide; simplify_eq; simpl
    | match goal with
      | E : ?b = _ |- context [?b] => rewrite E; simpl
      end ];
  repeat match goal with
    | |- context [oversize ?x] => destruct (oversize x); simpl
    end;
  split_and!; try lia.

Lemma input_step_counts T i m w : input_counts T (trace_of (input_step i m w)).
Proof.
  destruct (input_step_spec i m w) as
    [ e id w1 Eid Ee
    | e id w1 r subs w2 t2 Eid Ee Hens Ev
    | e id w1 r subs w2 t2 rc updated w3 Eid Ee Hens Ev Echk Efresh
    | e id w1 r subs w2 t2 rc updated w3 Eid Ee Hens Ev Echk Efresh Esize
    | e id w1 r subs w2 t2 rc updated w3 rc' data w4
        Eid Ee Hens Ev Echk Efresh Esize Ecopy Erc
    | e id w1 r subs w2 t2 rc updated w3 rc' data w4 res w5
        Eid Ee Hens Ev Echk Efresh Esize Ecopy Erc Ewr ];
    unfold input_counts, trace_of; simpl.
  all: try (inversion Hens; subst; clear Hens).
  all: try destruct (ffi_failed res) eqn:Eres.
  all: step_leaf.
Qed.

Lemma output_step_counts T i m w : output_counts T (trace_of (output_step i m w)).
Proof.
  destruct (output_step_spec i m w) as
    [ e id w1 Eid Ee
    | e id w1 e' b w2 Eid Ee Eupd Ee'
    | e id w1 e' w2 Eid Ee Eupd Ee'
    | e id w1 e' w2 Eid Ee Eupd Ee' Esize
    | e id w1 e' w2 res data n w3 Eid Ee Eupd Ee' Esize Erd Eres
    | e id w1 e' w2 res data n w3 Eid Ee Eupd Ee' Esize Erd Eres En
    | e id w1 e' w2 res data n w3 r pubs w4 t4 Eid Ee Eupd Ee' Esize Erd Eres En Hens Ev
    | e id w1 e' w2 res data n w3 r pubs w4 t4 rc w5
        Eid Ee Eupd Ee' Esize Erd Eres En Hens Ev Epub ];
    unfold output_counts, trace_of; simpl.
  7: destruct (ensure_pub_invalid_trace _ _ _ _ _ _ _ _ Hens Ev) as [-> | ->].
  9: destruct (ensure_pub_valid_trace _ _ _ _ _ _ _ _ Hens Ev)
       as [-> | (h & Hh & ->)].
  all: step_leaf.
Qed.

Lemma input_pool_rel_refl m : input_pool_rel m m [].
Proof.
  unfold input_pool_rel, count. simpl. split_and!; auto. intros T; lia.
Qed.

(** Bindings that are kept keep their topics bound. *)
Lemma kept_sub_ids (subs subs' : list OrbSubscription.t) T :
  (forall j b, subs !! j = Some b -> OrbSubscription.is_valid b = true ->
               subs' !! j = Some b) ->
  T ∈ sub_ids subs -> T ∈ sub_ids subs'.
Proof.
  intros Hkeep (b & [j Hj]%list_elem_of_lookup_1 & Hv & Hk)%elem_of_bound_ids.
  apply elem_of_bound_ids. exists b.
  split_and!; [|done..]. eapply list_elem_of_lookup_2, Hkeep; eauto.
Qed.

Lemma input_pool_rel_trans m1 m2 m3 t1 t2 :
  input_pool_rel m1 m2 t1 -> input_pool_rel m2 m3 t2 ->
  input_pool_rel m1 m3 (t1 ++ t2).
Proof.
  intros (Hl1 & Hk1 & Hn1 & Hf1 & Ho1) (Hl2 & Hk2 & Hn2 & Hf2 & Ho2).
  split_and!; [congruence | eauto | eauto | |].
  - intros T. rewrite count_app. intros Hpos.
    destruct (decide (0 < count (is_fresh T) t1)) as [Hc|Hc].
    + eapply kept_sub_ids; eauto.
    + apply Hf2. lia.
  - intros T [HT | (h & Hh & Hin)]%Ho2.
    + apply Ho1 in HT as [HT | (h & Hh & Hin)]; [by left|].
      right. exists h. split; [done|]. apply elem_of_app. by left.
    + right. exists h. split; [done|]. apply elem_of_app. by right.
Qed.

Lemma input_step_pool i m w :
  input_pool_rel m (value_of (input_step i m w)) (trace_of (input_step i m w)).
Proof.
  destruct (input_step_spec i m w) as
    [ e id w1 Eid Ee
    | e id w1 r subs w2 t2 Eid Ee Hens Ev
    | e id w1 r subs w2 t2 rc updated w3 Eid Ee Hens Ev Echk Efresh
    | e id w1 r subs w2 t2 rc updated w3 Eid Ee Hens Ev Echk Efresh Esize
    | e id w1 r subs w2 t2 rc updated w3 rc' data w4
        Eid Ee Hens Ev Echk Efresh Esize Ecopy Erc
    | e id w1 r subs w2 t2 rc updated w3 rc' data w4 res w5
        Eid Ee Hens Ev Echk Efresh Esize Ecopy Erc Ewr ];
    unfold input_pool_rel, value_of, trace_of; simpl.
  { split_and!; auto. unfold count; simpl. intros T; lia. }
  all: split_and!;
    [ by eapply ensure_sub_length
    | intros j b; by eapply ensure_sub_keeps
    | by eapply ensure_sub_NoDup
    | intros T; rewrite count_cons, ?count_app,
        (ensure_sub_quiet (is_fresh T) _ _ _ _ _ _ _ Hens) by done; simpl
    | intros T [HT | (h & Hh & Hin)]%(ensure_sub_origin _ _ _ _ _ _ _ _ Hens);
        [by left | right; exists h; split; [done|];
                   apply elem_of_cons; right; rewrite ?elem_of_app; auto] ].
  all: try (intros; lia).
  all: try destruct (ffi_failed res).
  all: unfold count; simpl; case_bool_decide; simplify_eq; simpl;
    try (intros; lia); intros _.
  all: by destruct (ensure_sub_ref _ _ _ _ _ _ _ Hens Ev).
Qed.



(** The indices a loop body asks the engine about: its own. *)
Lemma input_step_index i m w :
  omap input_index (trace_of (input_step i m w)) = [i].
Proof.
  destruct (input_step_spec i m w) as
    [ | ??????? _ _ Hens _ | ?????????? _ _ Hens | ?????????? _ _ Hens
    | ????????????? _ _ Hens | ??????????????? _ _ Hens ];
    unfold trace_of; simpl; [done|..];
    inversion Hens; subst; simpl; try done;
    by destruct (ffi_failed res).
Qed.

Lemma output_step_index i m w :
  omap output_index (trace_of (output_step i m w)) = [i].
Proof.
  destruct (output_step_spec i m w) as
    [ | | | | |
    | ??????????? ? ? _ _ _ _ _ _ _ _ Hens
    | ??????????? ? ? ? ? _ _ _ _ _ _ _ _ Hens ];
    unfold trace_of; simpl; try done;
    inversion Hens; subst; simpl; done.
Qed.

Lemma for_each_index {S : Type} (body : N -> S -> io W S) (index : event -> option N) :
  (forall i s w, omap index (trace_of (body i s w)) = [i]) ->
  forall indices s w, omap index (trace_of (for_each body indices s w)) = indices.
Proof.
  intros Hstep indices. induction indices as [|i rest IH]; intros s w; [done|].
  simpl. unfold bind. specialize (Hstep i s w).
  destruct (body i s w) as [[s1 w1] t1]. specialize (IH s1 w1).
  destruct (for_each body rest s1 w1) as [[s2 w2] t2].
  unfold trace_of in *. simpl in *. by rewrite omap_app, Hstep, IH.
Qed.

End LoopFacts.

(** ** The relays as a whole *)
Section RelayFacts.
Context {W : Type} `{Platform W}.

Lemma process_input_messages_eq m w :
  process_input_messages m w =
  let '(e, n, w1) := rust_get_input_message_count w in
  if ffi_failed e then
    (Returned m, w1, [Ev_input_count e n; Ev_log (ERR_input_count e)])
  else if assert_fails (n <=? N.of_nat MAX_MESSAGES)%N then
    (Aborted, w1, [Ev_input_count e n])
  else
    let '(m', w2, t) := for_each input_step (index_range n) m w1 in
    (Returned m', w2, Ev_input_count e n :: t).
Proof.
  unfold process_input_messages, bind, call_input_count.
  destruct (rust_get_input_message_count w) as [[e n] w1].
  destruct (ffi_failed e); [done|].
  destruct (assert_fails _); [done|].
  destruct (for_each _ _ _ _) as [[m' w2] t]. simpl. by rewrite app_nil_r.
Qed.

Lemma process_output_messages_eq m w :
  process_output_messages m w =
  let '(e, n, w1) := rust_get_output_message_count w in
  if ffi_failed e then
    (Returned m, w1, [Ev_output_count e n; Ev_log (ERR_output_count e)])
  else if assert_fails (n <=? N.of_nat MAX_MESSAGES)%N then
    (Aborted, w1, [Ev_output_count e n])
  else
    let '(m', w2, t) := for_each output_step (index_range n) m w1 in
    (Returned m', w2, Ev_output_count e n :: t).
Proof.
  unfold process_output_messages, bind, call_output_count.
  destruct (rust_get_output_message_count w) as [[e n] w1].
  destruct (ffi_failed e); [done|].
  destruct (assert_fails _); [done|].
  destruct (for_each _ _ _ _) as [[m' w2] t]. simpl. by rewrite app_nil_r.
Qed.

Lemma input_loop_counts T indices m w :
  input_counts T (trace_of (for_each input_step indices m w)).
Proof.
  apply (for_each_rel input_step (fun _ _ tr => input_counts T tr));
    eauto using input_counts_nil, input_counts_app, input_step_counts.
Qed.

Lemma output_loop_counts T indices m w :
  output_counts T (trace_of (for_each output_step indices m w)).
Proof.
  apply (for_each_rel output_step (fun _ _ tr => output_counts T tr));
    eauto using output_counts_nil, output_counts_app, output_step_counts.
Qed.

Lemma input_loop_pool indices m w :
  input_pool_rel m (value_of (for_each input_step indices m w))
    (trace_of (for_each input_step indices m w)).
Proof.
  apply (for_each_rel input_step input_pool_rel);
    eauto using input_pool_rel_refl, input_pool_rel_trans, input_step_pool.
Qed.


(** The accounting of one invocation of the input relay. *)
Lemma process_input_counts T m w :
  input_counts T (trace_of (process_input_messages m w)).
Proof.
  rewrite process_input_messages_eq.
  destruct (rust_get_input_message_count w) as [[e n] w1].
  destruct (ffi_failed e).
  { unfold input_counts, trace_of, count. simpl. destruct (oversize T); auto. }
  destruct (assert_fails _).
  { unfold input_counts, trace_of, count. simpl. destruct (oversize T); auto. }
  pose proof (input_loop_counts T (index_range n) m w1) as Hloop.
  destruct (for_each _ _ _ _) as [[m' w2] t]. unfold trace_of in *. simpl in *.
  change (Ev_input_count e n :: t) with ([Ev_input_count e n] ++ t).
  apply input_counts_app; [|done].
  unfold input_counts, count. simpl. destruct (oversize T); auto.
Qed.

(** The accounting of one invocation of the output relay. *)
Lemma process_output_counts T m w :
  output_counts T (trace_of (process_output_messages m w)).
Proof.
  rewrite process_output_messages_eq.
  destruct (rust_get_output_message_count w) as [[e n] w1].
  destruct (ffi_failed e).
  { unfold output_counts, trace_of, count. simpl.
    destruct (oversize T); split_and!; auto. }
  destruct (assert_fails _).
  { unfold output_counts, trace_of, count. simpl.
    destruct (oversize T); split_and!; auto. }
  pose proof (output_loop_counts T (index_range n) m w1) as Hloop.
  destruct (for_each _ _ _ _) as [[m' w2] t]. unfold trace_of in *. simpl in *.
  change (Ev_output_count e n :: t) with ([Ev_output_count e n] ++ t).
  apply output_counts_app; [|done].
  unfold output_counts, count. simpl. destruct (oversize T); split_and!; auto.
Qed.

(** The subscription pool across one invocation of the input relay. *)
Lemma process_input_pool m w m' :
  value_of (process_input_messages m w) = Returned m' ->
  input_pool_rel m m' (trace_of (process_input_messages m w)).
Proof.
  rewrite process_input_messages_eq.
  destruct (rust_get_input_message_count w) as [[e n] w1].
  destruct (ffi_failed e).
  { unfold value_of, trace_of. simpl. intros [= <-].
    unfold input_pool_rel, count. simpl. split_and!; auto. intros T; lia. }
  destruct (assert_fails _); [done|].
  pose proof (input_loop_pool (index_range n) m w1) as Hloop.
  destruct (for_each _ _ _ _) as [[m1 w2] t].
  unfold value_of, trace_of in *. simpl in *. intros [= <-].
  change (Ev_input_count e n :: t) with ([Ev_input_count e n] ++ t).
  eapply input_pool_rel_trans; [|exact Hloop].
  unfold input_pool_rel, count. simpl. split_and!; auto. intros T; lia.
Qed.


(** A relay makes relay calls only: it reads no clock and does not sleep. *)
Lemma input_step_events i m w :
  Forall (fun e => is_relay_event e = true) (trace_of (input_step i m w)).
Proof.
  destruct (input_step_spec i m w) as
    [ | ??????? _ _ Hens _ | ?????????? _ _ Hens | ?????????? _ _ Hens
    | ????????????? _ _ Hens | ??????????????? _ _ Hens ];
    unfold trace_of; simpl; [by repeat constructor|..];
    inversion Hens; subst; simpl; try destruct (ffi_failed res);
    by repeat constructor.
Qed.

Lemma output_step_events i m w :
  Forall (fun e => is_relay_event e = true) (trace_of (output_step i m w)).
Proof.
  destruct (output_step_spec i m w) as
    [ | | | | |
    | ??????????? ? ? _ _ _ _ _ _ _ _ Hens
    | ??????????? ? ? ? ? _ _ _ _ _ _ _ _ Hens ];
    unfold trace_of; simpl; try (by repeat constructor);
    inversion Hens; subst; simpl; by repeat constructor.
Qed.

Lemma process_input_events m w :
  Forall (fun e => is_relay_event e = true) (trace_of (process_input_messages m w)).
Proof.
  rewrite process_input_messages_eq.
  destruct (rust_get_input_message_count w) as [[e n] w1].
  destruct (ffi_failed e); [by repeat constructor|].
  destruct (assert_fails _); [by repeat constructor|].
  pose proof (for_each_rel input_step
                (fun _ _ tr => Forall (fun e => is_relay_event e = true) tr)
                (fun _ => Forall_nil_2 _)
                (fun _ _ _ _ _ H1 H2 => Forall_app_2 _ _ _ H1 H2)
                input_step_events (index_range n) m w1) as Hloop.
  destruct (for_each _ _ _ _) as [[m' w2] t]. by constructor.
Qed.

Lemma process_output_events m w :
  Forall (fun e => is_relay_event e = true) (trace_of (process_output_messages m w)).
Proof.
  rewrite process_output_messages_eq.
  destruct (rust_get_output_message_count w) as [[e n] w1].
  destruct (ffi_failed e); [by repeat constructor|].
  destruct (assert_fails _); [by repeat constructor|].
  pose proof (for_each_rel output_step
                (fun _ _ tr => Forall (fun e => is_relay_event e = true) tr)
                (fun _ => Forall_nil_2 _)
                (fun _ _ _ _ _ H1 H2 => Forall_app_2 _ _ _ H1 H2)
                output_step_events (index_range n) m w1) as Hloop.
  destruct (for_each _ _ _ _) as [[m' w2] t]. by constructor.
Qed.

(** A reader of clock or sleep entries finds nothing in relay calls. *)
Lemma omap_relay_events {A : Type} (f : event -> option A) tr :
  (forall e, is_relay_event e = true -> f e = None) ->
  Forall (fun e => is_relay_event e = true) tr -> omap f tr = [].
Proof.
  intros Hf. induction 1 as [|e tr He _ IH]; [done|].
  simpl. by rewrite (Hf e He).
Qed.

Lemma parameters_update_quiet force w :
  omap time_of (trace_of (parameters_update force w)) = [] /\
  omap usleep_of (trace_of (parameters_update force w)) = [].
Proof.
  unfold parameters_update, bind, call_parameter_updated, call_parameter_copy,
    call_updateParams, ret, trace_of.
  destruct (parameter_update_updated w) as [b w1].
  by destruct (b || force).
Qed.

(** The clock readings and the sleep of one cycle: a cycle that is not cut
    short by a failed assertion reads the clock three times and sleeps
    once, for [usleep_arg] of the first and the last reading. *)
Lemma run_cycle_sleep managers w :
  let r := run_cycle managers w in
  (exists t0 t1 t2 managers',
     value_of r = Returned managers' /\
     omap time_of (trace_of r) = [t0; t1; t2] /\
     omap usleep_of (trace_of r) = [usleep_arg t0 t2]) \/
  (value_of r = Aborted /\
   length (omap time_of (trace_of r)) < 3 /\
   omap usleep_of (trace_of r) = []).
Proof.
  assert (forall e, is_relay_event e = true -> time_of e = None) as Htime
    by (by intros []).
  assert (forall e, is_relay_event e = true -> usleep_of e = None) as Hsleep
    by (by intros []).
  cbv zeta.
  unfold run_cycle, bind, call_time, call_app_update, call_usleep, ret,
    value_of, trace_of.
  destruct (hrt_absolute_time w) as [t0 w0].
  destruct (parameters_update_quiet false w0) as [Htp Hsp].
  destruct (parameters_update false w0) as [[[] wp] tp].
  pose proof (process_input_events (fst managers) wp) as Hin.
  destruct (process_input_messages (fst managers) wp) as [[[im|] wi] ti];
    unfold trace_of in *; cbn [fst snd] in *.
  2: { right. rewrite !omap_app, Htp, Hsp.
       rewrite (omap_relay_events time_of ti), (omap_relay_events usleep_of ti)
         by done.
       cbn. split_and!; [done | lia | done]. }
  destruct (hrt_absolute_time wi) as [t1 w2].
  pose proof (process_output_events (snd managers) (app_interface_update t1 w2))
    as Hout.
  destruct (process_output_messages (snd managers) (app_interface_update t1 w2))
    as [[[om|] wo] to]; unfold trace_of in *; cbn [fst snd] in *.
  2: { right. rewrite !omap_app, Htp, Hsp.
       rewrite (omap_relay_events time_of ti), (omap_relay_events usleep_of ti),
         (omap_relay_events time_of to), (omap_relay_events usleep_of to) by done.
       cbn. split_and!; [done | lia | done]. }
  destruct (hrt_absolute_time wo) as [t2 w3].
  left. exists t0, t1, t2, (im, om). cbn [fst snd].
  rewrite !omap_app, Htp, Hsp.
  rewrite (omap_relay_events time_of ti), (omap_relay_events usleep_of ti),
    (omap_relay_events time_of to), (omap_relay_events usleep_of to) by done.
  by split_and!.
Qed.

End RelayFacts.

(** ** Every index to the end, every bound topic *)
Section HandlingFacts.
Context {W : Type} `{Platform W}.


Lemma ensure_sub_binding id subs w r subs' w' t :
  ensure_sub_result id subs w (r, subs', w', t) ->
  input_binding id t
    (if OrbSubscription.is_valid (deref_sub r subs')
     then Some (OrbSubscription.handle_ (deref_sub r subs')) else None).
Proof.
  inversion 1 as [i s Hi Hs Hid | i old h w1 Hnew Hi Hold Hsub Hh
                 | i old h w1 Hnew Hi Hold Hsub Hh | Hnew Hfull]; subst; simpl.
  - rewrite Hi. simpl. rewrite Hs. constructor.
    unfold OrbSubscription.is_valid in Hs. by apply Z.leb_le.
  - rewrite list_lookup_insert_eq by (by eapply lookup_lt_Some). simpl.
    unfold OrbSubscription.is_valid. simpl.
    rewrite (proj2 (Z.leb_le 0 h) Hh). by constructor.
  - rewrite list_lookup_insert_eq by (by eapply lookup_lt_Some). simpl.
    by constructor.
  - constructor.
Qed.

Lemma ensure_pub_binding id data pubs w r pubs' w' t :
  ensure_pub_result id data pubs w (r, pubs', w', t) ->
  output_binding id t
    (if OrbPublication.is_valid (deref_pub r pubs')
     then Some (OrbPublication.handle_ (deref_pub r pubs')) else None).
Proof.
  inversion 1 as [i p Hi Hp Hid | i old h w1 Hnew Hi Hold Hadv Hh
                 | i old w1 Hnew Hi Hold Hadv | Hnew Hfull]; subst; simpl.
  - rewrite Hi. simpl. rewrite Hp. constructor.
    unfold OrbPublication.is_valid in Hp. by apply negb_true_iff, N.eqb_neq in Hp.
  - rewrite list_lookup_insert_eq by (by eapply lookup_lt_Some). simpl.
    unfold OrbPublication.is_valid. simpl.
    rewrite (proj2 (N.eqb_neq h nullptr) Hh). by constructor.
  - rewrite list_lookup_insert_eq by (by eapply lookup_lt_Some). simpl.
    by constructor.
  - constructor.
Qed.





Lemma input_poll_rel_refl T m : input_poll_rel T m m [].
Proof. unfold input_poll_rel, count. simpl. split_and!; auto; lia. Qed.

Lemma input_poll_rel_trans T m1 m2 m3 t1 t2 :
  input_poll_rel T m1 m2 t1 -> input_poll_rel T m2 m3 t2 ->
  input_poll_rel T m1 m3 (t1 ++ t2).
Proof.
  intros (Hk1 & He1 & Hp1 & Hl1 & Hf1 & Hx1) (Hk2 & He2 & Hp2 & Hl2 & Hf2 & Hx2).
  unfold input_poll_rel. rewrite !count_app. split_and!.
  - auto.
  - intros HT. rewrite He1, He2 by auto. done.
  - intros Hpos. destruct (decide (0 < count (is_check T) t2)); [auto|].
    apply Hk2, Hp1. lia.
  - lia.
  - auto.
  - intros Hpos. destruct (decide (0 < count is_too_many_subscriptions t2)); [auto|].
    apply Hf2, Hx1. lia.
Qed.

(** A pool without a free slot is left as it is, and the line of the full
    pool is only logged for such a pool. *)
Lemma ensure_sub_full id subs w r subs' w' t :
  ensure_sub_result id subs w (r, subs', w', t) ->
  (Forall (fun s => OrbSubscription.is_valid s = true) subs -> subs' = subs) /\
  (t = [Ev_log ERR_too_many_subscriptions] ->
   Forall (fun s => OrbSubscription.is_valid s = true) subs').
Proof.
  inversion 1 as [i s Hi Hs Hid | i old h w1 Hnew Hi Hold Hsub Hh
                 | i old h w1 Hnew Hi Hold Hsub Hh | Hnew Hfull]; subst.
  - done.
  - split; [|done]. intros Hall. rewrite Forall_lookup in Hall.
    specialize (Hall i old Hi). simpl in Hall. congruence.
  - split; [|done]. intros Hall. rewrite Forall_lookup in Hall.
    specialize (Hall i old Hi). simpl in Hall. congruence.
  - done.
Qed.

Lemma ensure_pub_full id data pubs w r pubs' w' t :
  ensure_pub_result id data pubs w (r, pubs', w', t) ->
  (Forall (fun p => OrbPublication.is_valid p = true) pubs -> pubs' = pubs) /\
  (t = [Ev_log ERR_too_many_publications] ->
   Forall (fun p => OrbPublication.is_valid p = true) pubs').
Proof.
  inversion 1 as [i p Hi Hp Hid | i old h w1 Hnew Hi Hold Hadv Hh
                 | i old w1 Hnew Hi Hold Hadv | Hnew Hfull]; subst.
  - done.
  - split; [|done]. intros Hall. rewrite Forall_lookup in Hall.
    specialize (Hall i old Hi). simpl in Hall. congruence.
  - split; [|done]. intros Hall. rewrite Forall_lookup in Hall.
    specialize (Hall i old Hi). simpl in Hall. congruence.
  - done.
Qed.

Lemma input_step_polls T i m w :
  input_poll_rel T m (value_of (input_step i m w)) (trace_of (input_step i m w)).
Proof.
  destruct (input_step_spec i m w) as
    [ e id w1 Eid Ee
    | e id w1 r subs w2 t2 Eid Ee Hens Ev
    | e id w1 r subs w2 t2 rc updated w3 Eid Ee Hens Ev Echk Efresh
    | e id w1 r subs w2 t2 rc updated w3 Eid Ee Hens Ev Echk Efresh Esize
    | e id w1 r subs w2 t2 rc updated w3 rc' data w4
        Eid Ee Hens Ev Echk Efresh Esize Ecopy Erc
    | e id w1 r subs w2 t2 rc updated w3 rc' data w4 res w5
        Eid Ee Hens Ev Echk Efresh Esize Ecopy Erc Ewr ];
    unfold input_poll_rel, value_of, trace_of; cbn [fst snd subscriptions_].
  { unfold count. simpl. rewrite Ee. simpl. split_and!; auto; lia. }
  all: assert (T ∈ sub_ids (subscriptions_ m) -> T ∈ sub_ids subs) as Hkeep
    by (apply kept_sub_ids; intros j b; by eapply ensure_sub_keeps).
  all: pose proof (ensure_sub_binding _ _ _ _ _ _ _ Hens) as Hb; rewrite Ev in Hb.
  all: try (destruct (ensure_sub_ref _ _ _ _ _ _ _ Hens Ev) as [_ Href]).
  all: assert (id = T -> T ∈ sub_ids (subscriptions_ m) -> t2 = []) as Hfound
    by (intros -> HT; inversion Hens; subst; done).
  all: destruct (ensure_sub_full _ _ _ _ _ _ _ Hens) as [Hsame Hfull].
  all: assert (Forall (fun s => OrbSubscription.is_valid s = true) (subscriptions_ m) ->
               Forall (fun s => OrbSubscription.is_valid s = true) subs) as Hstay
    by (intros Hall; by rewrite (Hsame Hall)).
  all: clear Hsame Hens.
  all: inversion Hb; subst.
  all: unfold count; simpl; rewrite Ee; simpl.
  all: try destruct (ffi_failed res); simpl.
  all: repeat match goal with
         | |- context [(?h <? 0)%Z] => destruct (Z.ltb_spec h 0); try lia
         end; simpl.
  all: case_bool_decide as Hid; simpl.
  all: split_and!; try done; try lia; auto.
  all: try (intros HT; by specialize (Hfound Hid HT)).
  all: try (intros _; by subst).
Qed.

Lemma output_publish_rel_refl T m : output_publish_rel T m m [].
Proof. unfold output_publish_rel, count. simpl. split_and!; auto; lia. Qed.

Lemma output_publish_rel_trans T m1 m2 m3 t1 t2 :
  output_publish_rel T m1 m2 t1 -> output_publish_rel T m2 m3 t2 ->
  output_publish_rel T m1 m3 (t1 ++ t2).
Proof.
  intros (Hk1 & He1 & Hp1 & Hq1 & Hl1 & Hf1 & Hx1)
         (Hk2 & He2 & Hp2 & Hq2 & Hl2 & Hf2 & Hx2).
  unfold output_publish_rel. rewrite !count_app. split_and!.
  - auto.
  - intros HT. rewrite He1, He2 by auto. done.
  - intros Hpos. destruct (decide (0 < count (is_publish T) t2)); [auto|].
    apply Hk2, Hp1. lia.
  - lia.
  - lia.
  - auto.
  - intros Hpos. destruct (decide (0 < count is_too_many_publications t2)); [auto|].
    apply Hf2, Hx1. lia.
Qed.

Lemma ensure_pub_kept_ids T id data pubs w r pubs' w' t :
  ensure_pub_result id data pubs w (r, pubs', w', t) ->
  T ∈ pub_ids pubs -> T ∈ pub_ids pubs'.
Proof.
  intros [-> | (_ & Hperm)]%ensure_pub_ids HT; [done|].
  rewrite Hperm. by apply elem_of_cons; right.
Qed.

Lemma output_step_publishes T i m w :
  output_publish_rel T m (value_of (output_step i m w))
    (trace_of (output_step i m w)).
Proof.
  destruct (output_step_spec i m w) as
    [ e id w1 Eid Ee
    | e id w1 e' b w2 Eid Ee Eupd Ee'
    | e id w1 e' w2 Eid Ee Eupd Ee'
    | e id w1 e' w2 Eid Ee Eupd Ee' Esize
    | e id w1 e' w2 res data n w3 Eid Ee Eupd Ee' Esize Erd Eres
    | e id w1 e' w2 res data n w3 Eid Ee Eupd Ee' Esize Erd Eres En
    | e id w1 e' w2 res data n w3 r pubs w4 t4 Eid Ee Eupd Ee' Esize Erd Eres En Hens Ev
    | e id w1 e' w2 res data n w3 r pubs w4 t4 rc w5
        Eid Ee Eupd Ee' Esize Erd Eres En Hens Ev Epub ];
    unfold output_publish_rel, value_of, trace_of; cbn [fst snd publications_].
  1-6: unfold count; simpl; rewrite ?Ee, ?Ee', ?Eres; simpl;
    try (case_bool_decide as Hid; simpl; subst; rewrite ?En; simpl);
    split_and!; auto; lia.
  all: assert (T ∈ pub_ids (publications_ m) -> T ∈ pub_ids pubs) as Hkeep
    by (by eapply ensure_pub_kept_ids).
  all: pose proof (ensure_pub_binding _ _ _ _ _ _ _ _ Hens) as Hb; rewrite Ev in Hb.
  all: try (destruct (ensure_pub_ref _ _ _ _ _ _ _ _ Hens Ev) as [_ Href]).
  all: assert (id = T -> T ∈ pub_ids (publications_ m) -> t4 = []) as Hfound
    by (intros -> HT; inversion Hens; subst; done).
  all: destruct (ensure_pub_full _ _ _ _ _ _ _ _ Hens) as [Hsame Hfull].
  all: assert (Forall (fun p => OrbPublication.is_valid p = true) (publications_ m) ->
               Forall (fun p => OrbPublication.is_valid p = true) pubs) as Hstay
    by (intros Hall; by rewrite (Hsame Hall)).
  all: clear Hsame Hens.
  all: inversion Hb; subst.
  all: unfold count; simpl; rewrite ?Ee, ?Ee', ?Eres; simpl.
  all: case_bool_decide as Hid; simpl; subst; rewrite ?En; simpl.
  all: repeat match goal with
         | |- context [(?h =? nullptr)%N] =>
             destruct (N.eqb_spec h nullptr); try done
         end; simpl.
  all: split_and!; try done; try lia; auto.
  all: try (intros HT; by specialize (Hfound eq_refl HT)).
Qed.

(** A relay whose count query succeeds and whose assertion holds resolves
    every index the engine declared. *)
Lemma process_input_indices m w :
  ffi_failed (input_status w) = false ->
  assert_fails (reported_inputs w <=? N.of_nat MAX_MESSAGES)%N = false ->
  omap input_index (trace_of (process_input_messages m w))
  = index_range (reported_inputs w).
Proof.
  unfold input_status, reported_inputs. rewrite process_input_messages_eq.
  destruct (rust_get_input_message_count w) as [[e n] w1]. simpl.
  intros -> ->.
  pose proof (for_each_index input_step input_index input_step_index
                (index_range n) m w1) as Hloop.
  destruct (for_each _ _ _ _) as [[m' w2] t]. done.
Qed.

Lemma process_output_indices m w :
  ffi_failed (output_status w) = false ->
  assert_fails (reported_outputs w <=? N.of_nat MAX_MESSAGES)%N = false ->
  omap output_index (trace_of (process_output_messages m w))
  = index_range (reported_outputs w).
Proof.
  unfold output_status, reported_outputs. rewrite process_output_messages_eq.
  destruct (rust_get_output_message_count w) as [[e n] w1]. simpl.
  intros -> ->.
  pose proof (for_each_index output_step output_index output_step_index
                (index_range n) m w1) as Hloop.
  destruct (for_each _ _ _ _) as [[m' w2] t]. done.
Qed.

(** The polls of one invocation of the input relay. *)
Lemma process_input_polls T m w :
  input_poll_rel T m (returned_or m (value_of (process_input_messages m w)))
    (trace_of (process_input_messages m w)).
Proof.
  rewrite process_input_messages_eq.
  destruct (rust_get_input_message_count w) as [[e n] w1].
  destruct (ffi_failed e).
  { unfold input_poll_rel, value_of, trace_of, count. simpl. split_and!; auto; lia. }
  destruct (assert_fails _).
  { unfold input_poll_rel, value_of, trace_of, count. simpl. split_and!; auto; lia. }
  pose proof (for_each_rel input_step (input_poll_rel T) (input_poll_rel_refl T)
                (input_poll_rel_trans T) (input_step_polls T) (index_range n) m w1)
    as Hloop.
  destruct (for_each _ _ _ _) as [[m' w2] t].
  unfold value_of, trace_of in *. simpl in *.
  change (Ev_input_count e n :: t) with ([Ev_input_count e n] ++ t).
  eapply input_poll_rel_trans; [|exact Hloop].
  unfold input_poll_rel, count. simpl. split_and!; auto; lia.
Qed.

(** The publishes of one invocation of the output relay. *)
Lemma process_output_publishes T m w :
  output_publish_rel T m (returned_or m (value_of (process_output_messages m w)))
    (trace_of (process_output_messages m w)).
Proof.
  rewrite process_output_messages_eq.
  destruct (rust_get_output_message_count w) as [[e n] w1].
  destruct (ffi_failed e).
  { unfold output_publish_rel, value_of, trace_of, count. simpl.
    split_and!; auto; lia. }
  destruct (assert_fails _).
  { unfold output_publish_rel, value_of, trace_of, count. simpl.
    split_and!; auto; lia. }
  pose proof (for_each_rel output_step (output_publish_rel T)
                (output_publish_rel_refl T) (output_publish_rel_trans T)
                (output_step_publishes T) (index_range n) m w1) as Hloop.
  destruct (for_each _ _ _ _) as [[m' w2] t].
  unfold value_of, trace_of in *. simpl in *.
  change (Ev_output_count e n :: t) with ([Ev_output_count e n] ++ t).
  eapply output_publish_rel_trans; [|exact Hloop].
  unfold output_publish_rel, count. simpl. split_and!; auto; lia.
Qed.

End HandlingFacts.

(** * Properties of the relay *)
Section Claims.
Context {W : Type} `{Platform W}.

(** A binding that is not valid answers without calling the bus. *)
Lemma invalid_sub_inert (b : OrbSubscription.t) :
  OrbSubscription.is_valid b = false ->
  (forall w, OrbSubscription.check_updated b w = (false, w, [])) /\
  (forall buffer w, OrbSubscription.copy_data b buffer w = (false, buffer, w, [])).
Proof.
  intros Hb. unfold OrbSubscription.check_updated, OrbSubscription.copy_data.
  by rewrite Hb.
Qed.

Lemma invalid_pub_inert (b : OrbPublication.t) :
  OrbPublication.is_valid b = false ->
  forall data w, OrbPublication.publish b data w = (false, w, []).
Proof. intros Hb data w. unfold OrbPublication.publish. by rewrite Hb. Qed.

(** In a pool that is full of other topics, [ensure] can only give up. *)
Lemma ensure_sub_exhausted_inv id subs w x :
  Forall (fun s => OrbSubscription.is_valid s = true) subs -> id ∉ sub_ids subs ->
  ensure_sub_result id subs w x ->
  x = (Sub_invalid, subs, w, [Ev_log ERR_too_many_subscriptions]).
Proof.
  intros Hfull Hnew Hres.
  assert (forall i old, subs !! i = Some old -> OrbSubscription.is_valid old = true)
    as Hall.
  { intros i old Hi. by eapply (Forall_lookup_1 _ _ _ _ Hfull). }
  inversion Hres; subst; try done.
  - exfalso. apply Hnew, elem_of_bound_ids. eexists.
    split_and!; [by eapply list_elem_of_lookup_2 | done | done].
  - exfalso. erewrite Hall in * by done. done.
  - exfalso. erewrite Hall in * by done. done.
Qed.

Lemma ensure_pub_exhausted_inv id data pubs w x :
  Forall (fun p => OrbPublication.is_valid p = true) pubs -> id ∉ pub_ids pubs ->
  ensure_pub_result id data pubs w x ->
  x = (Pub_invalid, pubs, w, [Ev_log ERR_too_many_publications]).
Proof.
  intros Hfull Hnew Hres.
  assert (forall i old, pubs !! i = Some old -> OrbPublication.is_valid old = true)
    as Hall.
  { intros i old Hi. by eapply (Forall_lookup_1 _ _ _ _ Hfull). }
  inversion Hres; subst; try done.
  - exfalso. apply Hnew, elem_of_bound_ids. eexists.
    split_and!; [by eapply list_elem_of_lookup_2 | done | done].
  - exfalso. erewrite Hall in * by done. done.
  - exfalso. erewrite Hall in * by done. done.
Qed.

(** C8. When [orb_subscribe] fails, the binding the constructor builds is
    not valid and the failure is logged; from then on [check_updated] and
    [copy_data] on that binding return [false] and make no call to the bus.
    The same holds for the binding [ensure_subscription] hands to the relay
    for a topic that is not yet bound. *)
Theorem failed_subscription_is_inert (id : orb_id_t) (w : W) :
  (fst (orb_subscribe id w) < 0)%Z ->
  let sub := value_of (OrbSubscription.ctor id w) in
  OrbSubscription.is_valid sub = false /\
  Ev_log ERR_subscribe ∈ trace_of (OrbSubscription.ctor id w) /\
  (forall w', OrbSubscription.check_updated sub w' = (false, w', [])) /\
  (forall buffer w', OrbSubscription.copy_data sub buffer w' = (false, buffer, w', [])) /\
  (forall subs,
     id ∉ sub_ids subs ->
     let r := ensure_subscription id subs w in
     let b := deref_sub (fst (value_of r)) (snd (value_of r)) in
     OrbSubscription.is_valid b = false /\
     (forall w', OrbSubscription.check_updated b w' = (false, w', [])) /\
     (forall buffer w', OrbSubscription.copy_data b buffer w' = (false, buffer, w', []))).
Proof.
  intros Hfail.
  assert (OrbSubscription.is_valid (value_of (OrbSubscription.ctor id w)) = false
          /\ Ev_log ERR_subscribe ∈ trace_of (OrbSubscription.ctor id w))
    as [Hinv Hlog].
  { unfold OrbSubscription.ctor, bind, call_orb_subscribe, value_of, trace_of.
    destruct (orb_subscribe id w) as [h w1]. simpl in Hfail.
    apply Z.ltb_lt in Hfail. rewrite Hfail. simpl. split; [done|].
    apply elem_of_cons. right. apply elem_of_cons. by left. }
  simpl. split_and!; try done; try (by apply invalid_sub_inert).
  intros subs Hnew.
  pose proof (ensure_subscription_result id subs w) as Hres.
  destruct (ensure_subscription id subs w) as [[[r subs'] w'] t].
  unfold value_of. simpl.
  assert (OrbSubscription.is_valid (deref_sub r subs') = false) as Hb.
  { inversion Hres; subst; simpl.
    - exfalso. apply Hnew, elem_of_bound_ids. eexists.
      split_and!; [by eapply list_elem_of_lookup_2 | done | done].
    - match goal with E : orb_subscribe _ _ = _ |- _ => rewrite E in Hfail end.
      simpl in Hfail. lia.
    - rewrite list_lookup_insert_eq by (by eapply lookup_lt_Some). done.
    - done. }
  split; [done|]. by apply invalid_sub_inert.
Qed.

(** C5. With all sixteen slots holding valid bindings of other topics,
    [ensure_subscription] and [ensure_publication] return the sentinel, log
    the capacity error, call nothing and leave the array as it is; the
    sentinel is not valid, so the input relay neither polls nor copies and
    the output relay does not publish for the topic. *)
Theorem pool_exhaustion_drops (id : orb_id_t) (subs : list OrbSubscription.t)
    (pubs : list OrbPublication.t) (data : bytes) (w : W) :
  length subs = MAX_MESSAGES ->
  Forall (fun s => OrbSubscription.is_valid s = true) subs -> id ∉ sub_ids subs ->
  length pubs = MAX_MESSAGES ->
  Forall (fun p => OrbPublication.is_valid p = true) pubs -> id ∉ pub_ids pubs ->
  ensure_subscription id subs w =
    (Sub_invalid, subs, w, [Ev_log ERR_too_many_subscriptions]) /\
  ensure_publication id data pubs w =
    (Pub_invalid, pubs, w, [Ev_log ERR_too_many_publications]) /\
  OrbSubscription.is_valid (deref_sub Sub_invalid subs) = false /\
  OrbPublication.is_valid (deref_pub Pub_invalid pubs) = false /\
  (forall i buffer e w1,
     rust_get_input_message_id i w = (e, id, w1) -> ffi_failed e = false ->
     input_step i {| subscriptions_ := subs; input_buffer := buffer |} w =
       ({| subscriptions_ := subs; input_buffer := buffer |}, w1,
        [Ev_input_id i e id; Ev_log ERR_too_many_subscriptions])) /\
  (forall i buffer e w1,
     rust_get_output_message_id i w = (e, id, w1) -> ffi_failed e = false ->
     let r := output_step i {| publications_ := pubs; output_buffer := buffer |} w in
     publications_ (value_of r) = pubs /\
     count (is_publish id) (trace_of r) = 0 /\
     count (is_advertise id) (trace_of r) = 0).
Proof.
  intros _ Hsubs Hsid _ Hpubs Hpid.
  split_and!; try done.
  - eapply ensure_sub_exhausted_inv; eauto using ensure_subscription_result.
  - eapply ensure_pub_exhausted_inv; eauto using ensure_publication_result.
  - intros i buffer e w1 Eid Ee.
    unfold input_step, bind, call_input_id. rewrite Eid, Ee. simpl.
    rewrite (ensure_sub_exhausted_inv id subs w1 _ Hsubs Hsid
               (ensure_subscription_result id subs w1)).
    simpl. unfold OrbSubscription.check_updated, ret. simpl. done.
  - intros i buffer e w1 Eid Ee. simpl.
    destruct (output_step_spec i {| publications_ := pubs; output_buffer := buffer |} w)
      as
      [ e0 id0 w0 Eid0 Ee0
      | e0 id0 w0 e' b w2 Eid0 Ee0 Eupd Ee'
      | e0 id0 w0 e' w2 Eid0 Ee0 Eupd Ee'
      | e0 id0 w0 e' w2 Eid0 Ee0 Eupd Ee' Esize
      | e0 id0 w0 e' w2 res data0 n w3 Eid0 Ee0 Eupd Ee' Esize Erd Eres
      | e0 id0 w0 e' w2 res data0 n w3 Eid0 Ee0 Eupd Ee' Esize Erd Eres En
      | e0 id0 w0 e' w2 res data0 n w3 r pubs' w4 t4
          Eid0 Ee0 Eupd Ee' Esize Erd Eres En Hens Ev
      | e0 id0 w0 e' w2 res data0 n w3 r pubs' w4 t4 rc w5
          Eid0 Ee0 Eupd Ee' Esize Erd Eres En Hens Ev Epub ];
      rewrite Eid in Eid0; simplify_eq; unfold value_of, trace_of, count; simpl;
      try done.
    + apply (ensure_pub_exhausted_inv _ _ _ _ _ Hpubs Hpid) in Hens.
      by simplify_eq.
    + apply (ensure_pub_exhausted_inv _ _ _ _ _ Hpubs Hpid) in Hens.
      by simplify_eq.
Qed.

(** C6. For a topic whose declared size exceeds [MAX_MESSAGE_SIZE], one
    invocation of the input relay makes no [orb_copy] call and no
    [rust_write_input_message] call, and logs the size error each time it
    finds a fresh update for the topic; one invocation of the output relay
    makes no [rust_read_output_message], [orb_advertise] or [orb_publish]
    call, and logs the size error each time the engine reports an update
    for the topic. *)
Theorem oversize_never_copied (T : orb_id_t) (im : InputManager)
    (om : OutputManager) (w : W) :
  (MAX_MESSAGE_SIZE < o_size T)%N ->
  let ti := trace_of (process_input_messages im w) in
  let to := trace_of (process_output_messages om w) in
  count (is_copy T) ti = 0 /\
  count (is_write T) ti = 0 /\
  count (is_input_size_error T) ti = count (is_fresh T) ti /\
  count (is_read T) to = 0 /\
  count (is_advertise T) to = 0 /\
  count (is_publish T) to = 0 /\
  count (is_output_size_error T) to = count (is_pending T) to.
Proof.
  intros Hbig%N.ltb_lt. simpl.
  destruct (process_input_counts T im w) as (Hcopy & Hwrite & _ & Herr).
  destruct (process_output_counts T om w)
    as (Hread & Herr' & _ & Hpub & Hadv & _ & _ & _).
  unfold oversize in *. rewrite Hbig in *.
  assert (count (is_copy_ok T) (trace_of (process_input_messages im w))
          <= count (is_copy T) (trace_of (process_input_messages im w))) as Hok.
  { apply count_le. intros [] ; simpl; try done. by intros [? _]%andb_true_iff. }
  assert (count (is_read_ok (o_size T) T) (trace_of (process_output_messages om w))
          <= count (is_read T) (trace_of (process_output_messages om w))) as Hrok.
  { apply count_le. intros [] ; simpl; try done. by intros [? _]%andb_true_iff. }
  split_and!; try done; lia.
Qed.

(** C7. In one invocation of the output relay the size-mismatch line is
    logged for a topic exactly as often as [rust_read_output_message]
    succeeds for it with a byte count other than the declared size; and a
    read that reports another byte count is followed neither by a publish
    nor by an advertisement: the publishes (the advertisements) of the topic
    and its reads with another byte count are, together, no more than its
    reads.  A read that fails is logged as a read failure, whatever byte
    count comes with it. *)
Theorem short_read_not_published (T : orb_id_t) (om : OutputManager) (w : W) :
  let to := trace_of (process_output_messages om w) in
  count (is_size_mismatch T) to = count (is_read_short_ok (o_size T) T) to /\
  count (is_publish T) to + count (is_read_short (o_size T) T) to
    <= count (is_read T) to /\
  count (is_advertise T) to + count (is_read_short (o_size T) T) to
    <= count (is_read T) to /\
  count (is_read_error T) to = count (is_read_failed T) to.
Proof.
  simpl.
  destruct (process_output_counts T om w)
    as (_ & _ & _ & Hpub & Hadv & _ & Hmis & Hfail).
  assert (count (is_read_ok (o_size T) T) (trace_of (process_output_messages om w))
          + count (is_read_short (o_size T) T) (trace_of (process_output_messages om w))
          <= count (is_read T) (trace_of (process_output_messages om w))) as Hsplit.
  { apply count_disjoint_le.
    - intros []; simpl; try done.
      intros [Hid [_ Hn]%andb_true_iff]%andb_true_iff. by rewrite Hid, Hn.
    - intros []; simpl; try done. by intros [? _]%andb_true_iff. }
  split_and!; [done | lia | lia | done].
Qed.


(** C2, as amended. For a topic [T] that fits the buffer, in one invocation
    of a relay, which resolves every index the engine declared when the
    count query succeeds and the assertion holds.  Input: [T] is polled
    once at every index resolved to it
    when it is bound in [subscriptions_], and otherwise at every such index
    but those where the bus refused its subscription or the pool was full
    (the line of the full pool is only logged when every slot holds a valid
    binding); every fresh update a poll reports is followed by exactly one
    [orb_copy], and every copy that succeeds by exactly one
    [rust_write_input_message].  Output: the engine is asked once at every
    index resolved to [T] whether it has an update; every update it reports
    is followed by exactly one [rust_read_output_message]; every read that
    succeeds with the declared size is followed by exactly one publish when
    [T] is bound in [publications_], and otherwise but where the
    advertisement of [T] failed or the pool was full; there is no publish
    without such a read.  A topic that holds no valid binding when the
    relay returns was never polled, copied or written, nor published. *)
Theorem one_transfer_per_update (T : orb_id_t) (im : InputManager)
    (om : OutputManager) (w : W) :
  (o_size T <= MAX_MESSAGE_SIZE)%N ->
  let ri := process_input_messages im w in
  let ro := process_output_messages om w in
  let ti := trace_of ri in
  let to := trace_of ro in
  (ffi_failed (input_status w) = false ->
   assert_fails (reported_inputs w <=? N.of_nat MAX_MESSAGES)%N = false ->
   omap input_index ti = index_range (reported_inputs w)) /\
  count (is_check T) ti <= count (is_input_of T) ti /\
  count (is_input_of T) ti <=
    count (is_check T) ti + count (is_subscribe_refused T) ti
    + count is_too_many_subscriptions ti /\
  (T ∈ sub_ids (subscriptions_ im) ->
   count (is_check T) ti = count (is_input_of T) ti) /\
  (forall im', value_of ri = Returned im' ->
     (0 < count is_too_many_subscriptions ti ->
      Forall (fun s => OrbSubscription.is_valid s = true) (subscriptions_ im')) /\
     (T ∉ sub_ids (subscriptions_ im') ->
      count (is_check T) ti = 0 /\ count (is_copy T) ti = 0 /\
      count (is_write T) ti = 0)) /\
  count (is_copy T) ti = count (is_fresh T) ti /\
  count (is_write T) ti = count (is_copy_ok T) ti /\
  (ffi_failed (output_status w) = false ->
   assert_fails (reported_outputs w <=? N.of_nat MAX_MESSAGES)%N = false ->
   omap output_index to = index_range (reported_outputs w)) /\
  count (is_has_update T) to = count (is_output_of T) to /\
  count (is_read T) to = count (is_pending T) to /\
  count (is_pending T) to <= count (is_output_of T) to /\
  count (is_publish T) to <= count (is_read_ok (o_size T) T) to /\
  count (is_read_ok (o_size T) T) to <=
    count (is_publish T) to + count (is_advertise_refused T) to
    + count is_too_many_publications to /\
  (T ∈ pub_ids (publications_ om) ->
   count (is_publish T) to = count (is_read_ok (o_size T) T) to) /\
  (forall om', value_of ro = Returned om' ->
     (0 < count is_too_many_publications to ->
      Forall (fun p => OrbPublication.is_valid p = true) (publications_ om')) /\
     (T ∉ pub_ids (publications_ om') -> count (is_publish T) to = 0)).
Proof.
  intros Hfits%N.ltb_ge. cbv zeta.
  destruct (process_input_counts T im w) as (Hcopy & Hwrite & Hchk & _).
  destruct (process_output_counts T om w)
    as (Hread & _ & Hpend & Hpub & _ & _ & _ & _).
  destruct (process_input_polls T im w) as (_ & Hbound & Hpolled & Hlow & _ & Hfull).
  destruct (process_output_publishes T om w)
    as (_ & Hbound' & Hpublished & Hasked & Hlow' & _ & Hfull').
  unfold oversize in *. rewrite Hfits in *.
  split_and!; try done.
  - apply process_input_indices.
  - intros im' Hret. rewrite Hret in Hpolled, Hfull. simpl in Hpolled, Hfull.
    split; [done|]. intros Hno.
    assert (count (is_check T) (trace_of (process_input_messages im w)) = 0) as Hzero.
    { destruct (count (is_check T) _) eqn:E; [done|]. destruct Hno. apply Hpolled. lia. }
    assert (count (is_fresh T) (trace_of (process_input_messages im w))
            <= count (is_check T) (trace_of (process_input_messages im w))) as Hle.
    { apply count_le. intros []; simpl; try done. by intros [? _]%andb_true_iff. }
    assert (count (is_copy_ok T) (trace_of (process_input_messages im w))
            <= count (is_copy T) (trace_of (process_input_messages im w))) as Hok.
    { apply count_le. intros []; simpl; try done. by intros [? _]%andb_true_iff. }
    split_and!; [done | lia | lia].
  - apply process_output_indices.
  - intros om' Hret. rewrite Hret in Hpublished, Hfull'. simpl in Hpublished, Hfull'.
    split; [done|]. intros Hno.
    destruct (count (is_publish T) _) eqn:E; [done|]. destruct Hno.
    apply Hpublished. lia.
Qed.

(** C10. In one invocation of the input relay, a topic whose declared size
    exceeds [MAX_MESSAGE_SIZE] and for which a fresh update was found holds
    a valid binding in the pool afterwards, although nothing was copied for
    it; when it held none before, the relay subscribed to it on the bus and
    the pool has one binding more. *)
Theorem oversize_input_still_subscribed (T : orb_id_t) (im im' : InputManager)
    (w : W) :
  (MAX_MESSAGE_SIZE < o_size T)%N ->
  value_of (process_input_messages im w) = Returned im' ->
  0 < count (is_fresh T) (trace_of (process_input_messages im w)) ->
  T ∈ sub_ids (subscriptions_ im') /\
  count (is_copy T) (trace_of (process_input_messages im w)) = 0 /\
  (T ∉ sub_ids (subscriptions_ im) ->
   (exists h, (0 <= h)%Z /\
              Ev_orb_subscribe T h ∈ trace_of (process_input_messages im w)) /\
   (NoDup (sub_ids (subscriptions_ im)) ->
    length (sub_ids (subscriptions_ im)) < length (sub_ids (subscriptions_ im')))).
Proof.
  intros Hbig%N.ltb_lt Hret Hfresh.
  destruct (process_input_pool im w im' Hret) as (_ & Hkeep & _ & Hseen & Horigin).
  destruct (process_input_counts T im w) as (Hcopy & _).
  unfold oversize in Hcopy. rewrite Hbig in Hcopy.
  pose proof (Hseen T Hfresh) as Hbound.
  split_and!; [done | done |].
  intros Hnew. split.
  - by destruct (Horigin T Hbound).
  - intros Hnd.
    assert (T :: sub_ids (subscriptions_ im) ⊆+ sub_ids (subscriptions_ im'))
      as Hle%submseteq_length; [|simpl in Hle; lia].
    apply NoDup_submseteq; [by apply NoDup_cons_2|].
    intros x [->|Hx]%elem_of_cons; [done|]. by eapply kept_sub_ids.
Qed.






(** A sequence of [ensure_subscription] calls keeps the valid bindings of
    a pool on distinct topics. *)
Lemma ensure_subscriptions_NoDup ids :
  forall subs w,
    NoDup (sub_ids subs) ->
    NoDup (sub_ids (value_of (ensure_subscriptions ids subs w))).
Proof.
  induction ids as [|id ids IH]; intros subs w Hnd; [done|].
  simpl. unfold bind.
  pose proof (ensure_subscription_result id subs w) as Hres.
  destruct (ensure_subscription id subs w) as [[[r subs'] w'] t].
  specialize (IH subs' w' (ensure_sub_NoDup _ _ _ _ _ _ _ Hres Hnd)).
  by destruct (ensure_subscriptions ids subs' w') as [[s2 w2] t2].
Qed.

Lemma ensure_publications_NoDup ids data :
  forall pubs w,
    NoDup (pub_ids pubs) ->
    NoDup (pub_ids (value_of (ensure_publications ids data pubs w))).
Proof.
  induction ids as [|id ids IH]; intros pubs w Hnd; [done|].
  simpl. unfold bind.
  pose proof (ensure_publication_result id data pubs w) as Hres.
  destruct (ensure_publication id data pubs w) as [[[r pubs'] w'] t].
  specialize (IH pubs' w' (ensure_pub_NoDup _ _ _ _ _ _ _ _ Hres Hnd)).
  by destruct (ensure_publications ids data pubs' w') as [[s2 w2] t2].
Qed.

(** One [ensure_subscription] that the bus grants, in a pool with room. *)
Lemma ensure_sub_granted universe id subs w r subs' w' t :
  (forall id w, (0 <= fst (orb_subscribe id w))%Z) ->
  NoDup (sub_ids subs) ->
  (forall x, x ∈ sub_ids subs -> x ∈ universe) -> id ∈ universe ->
  length universe <= length subs ->
  ensure_sub_result id subs w (r, subs', w', t) ->
  forall x, x ∈ sub_ids subs' <-> x = id \/ x ∈ sub_ids subs.
Proof.
  intros Hgrant Hnd Hsub Hid Hlen Hres x.
  inversion Hres; subst.
  - split; [by right|]. intros [-> | ?]; [|done].
    apply elem_of_bound_ids. eexists.
    split_and!; [by eapply list_elem_of_lookup_2 | done | done].
  - match goal with
    | Hi : ?l !! ?i = Some ?old |- _ =>
        rewrite (bound_ids_insert_valid OrbSubscription.is_valid
                   OrbSubscription.id_ l i old _ Hi)
          by (done || by apply Z.leb_le)
    end.
    by rewrite elem_of_cons.
  - match goal with
    | E : orb_subscribe ?a ?b = _ |- _ =>
        specialize (Hgrant a b); rewrite E in Hgrant
    end.
    simpl in Hgrant. lia.
  - exfalso.
    match goal with
    | Hfull : Forall _ ?l |- _ =>
        pose proof (room_for_new OrbSubscription.is_valid OrbSubscription.id_
                      l universe id
                      Hnd Hsub Hid ltac:(done) Hlen) as Hroom;
        rewrite (bound_ids_full OrbSubscription.is_valid OrbSubscription.id_
                   l Hfull) in Hroom
    end.
    lia.
Qed.

Lemma ensure_pub_granted universe id data pubs w r pubs' w' t :
  (forall id data w, fst (orb_advertise id data w) <> nullptr) ->
  NoDup (pub_ids pubs) ->
  (forall x, x ∈ pub_ids pubs -> x ∈ universe) -> id ∈ universe ->
  length universe <= length pubs ->
  ensure_pub_result id data pubs w (r, pubs', w', t) ->
  forall x, x ∈ pub_ids pubs' <-> x = id \/ x ∈ pub_ids pubs.
Proof.
  intros Hgrant Hnd Hsub Hid Hlen Hres x.
  inversion Hres; subst.
  - split; [by right|]. intros [-> | ?]; [|done].
    apply elem_of_bound_ids. eexists.
    split_and!; [by eapply list_elem_of_lookup_2 | done | done].
  - match goal with
    | Hi : ?l !! ?i = Some ?old |- _ =>
        rewrite (bound_ids_insert_valid OrbPublication.is_valid
                   OrbPublication.id_ l i old _ Hi);
          [by rewrite elem_of_cons | done |]
    end.
    unfold OrbPublication.is_valid. simpl. by apply negb_true_iff, N.eqb_neq.
  - match goal with
    | E : orb_advertise ?a ?b ?c = _ |- _ =>
        specialize (Hgrant a b c); rewrite E in Hgrant
    end.
    done.
  - exfalso.
    match goal with
    | Hfull : Forall _ ?l |- _ =>
        pose proof (room_for_new OrbPublication.is_valid OrbPublication.id_ l universe id
                      Hnd Hsub Hid ltac:(done) Hlen) as Hroom;
        rewrite (bound_ids_full OrbPublication.is_valid OrbPublication.id_
                   l Hfull) in Hroom
    end.
    lia.
Qed.

Lemma ensure_subscriptions_granted universe ids :
  (forall id w, (0 <= fst (orb_subscribe id w))%Z) ->
  forall subs w,
    NoDup (sub_ids subs) ->
    (forall x, x ∈ sub_ids subs -> x ∈ universe) ->
    (forall x, x ∈ ids -> x ∈ universe) ->
    length universe <= length subs ->
    forall x, x ∈ sub_ids (value_of (ensure_subscriptions ids subs w)) <->
              x ∈ sub_ids subs \/ x ∈ ids.
Proof.
  intros Hgrant. induction ids as [|id ids IH]; intros subs w Hnd Hsub Hids Hlen x.
  { simpl. rewrite elem_of_nil. tauto. }
  simpl. unfold bind.
  pose proof (ensure_subscription_result id subs w) as Hres.
  destruct (ensure_subscription id subs w) as [[[r subs'] w'] t].
  assert (id ∈ universe) as Hid by (apply Hids, elem_of_cons; by left).
  pose proof (ensure_sub_granted universe _ _ _ _ _ _ _ Hgrant Hnd Hsub Hid Hlen Hres)
    as Hstep.
  specialize (IH subs' w' (ensure_sub_NoDup _ _ _ _ _ _ _ Hres Hnd)).
  destruct (ensure_subscriptions ids subs' w') as [[s2 w2] t2].
  unfold value_of in *. simpl in *.
  rewrite IH, Hstep, elem_of_cons; [tauto | | |].
  - intros y [-> | Hy]%Hstep; auto.
  - intros y Hy. apply Hids, elem_of_cons. by right.
  - by rewrite (ensure_sub_length _ _ _ _ _ _ _ Hres).
Qed.

Lemma ensure_publications_granted universe ids data :
  (forall id data w, fst (orb_advertise id data w) <> nullptr) ->
  forall pubs w,
    NoDup (pub_ids pubs) ->
    (forall x, x ∈ pub_ids pubs -> x ∈ universe) ->
    (forall x, x ∈ ids -> x ∈ universe) ->
    length universe <= length pubs ->
    forall x, x ∈ pub_ids (value_of (ensure_publications ids data pubs w)) <->
              x ∈ pub_ids pubs \/ x ∈ ids.
Proof.
  intros Hgrant. induction ids as [|id ids IH]; intros pubs w Hnd Hsub Hids Hlen x.
  { simpl. rewrite elem_of_nil. tauto. }
  simpl. unfold bind.
  pose proof (ensure_publication_result id data pubs w) as Hres.
  destruct (ensure_publication id data pubs w) as [[[r pubs'] w'] t].
  assert (id ∈ universe) as Hid by (apply Hids, elem_of_cons; by left).
  pose proof (ensure_pub_granted universe _ _ _ _ _ _ _ _ Hgrant Hnd Hsub Hid Hlen Hres)
    as Hstep.
  specialize (IH pubs' w' (ensure_pub_NoDup _ _ _ _ _ _ _ _ Hres Hnd)).
  destruct (ensure_publications ids data pubs' w') as [[s2 w2] t2].
  unfold value_of in *. simpl in *.
  rewrite IH, Hstep, elem_of_cons; [tauto | | |].
  - intros y [-> | Hy]%Hstep; auto.
  - intros y Hy. apply Hids, elem_of_cons. by right.
  - by rewrite (ensure_pub_length _ _ _ _ _ _ _ _ Hres).
Qed.

(** C4. Starting from the empty pools of a new manager, take any sequence
    of [ensure] calls whose topics are those of a list [topics] of at most
    sixteen distinct topics.  After every prefix of the sequence the valid
    bindings of the pool are on distinct topics; and when the bus grants
    every subscription (every advertisement), the valid bindings at the end
    are exactly one per topic of [topics]. *)
Theorem pool_uniqueness (topics ids : list orb_id_t) (data : bytes) (w : W) :
  NoDup topics -> length topics <= MAX_MESSAGES ->
  Forall (fun id => id ∈ topics) ids -> Forall (fun id => id ∈ ids) topics ->
  (forall k,
     NoDup (sub_ids (value_of
       (ensure_subscriptions (take k ids) (subscriptions_ InputManager_new) w))) /\
     NoDup (pub_ids (value_of
       (ensure_publications (take k ids) data (publications_ OutputManager_new) w)))) /\
  ((forall id w', (0 <= fst (orb_subscribe id w'))%Z) ->
   sub_ids (value_of
     (ensure_subscriptions ids (subscriptions_ InputManager_new) w)) ≡ₚ topics) /\
  ((forall id d w', fst (orb_advertise id d w') <> nullptr) ->
   pub_ids (value_of
     (ensure_publications ids data (publications_ OutputManager_new) w)) ≡ₚ topics).
Proof.
  intros Hnd Hlen Hdrawn Hall.
  rewrite Forall_forall in Hdrawn, Hall.
  setoid_rewrite <- list_elem_of_In in Hdrawn.
  setoid_rewrite <- list_elem_of_In in Hall.
  assert (NoDup (sub_ids (subscriptions_ InputManager_new))) as Hs0
    by (vm_compute; constructor).
  assert (NoDup (pub_ids (publications_ OutputManager_new))) as Hp0
    by (vm_compute; constructor).
  split_and!.
  - intros k. split;
      [by apply ensure_subscriptions_NoDup | by apply ensure_publications_NoDup].
  - intros Hgrant.
    apply NoDup_Permutation; [by apply ensure_subscriptions_NoDup | done |].
    intros x.
    rewrite (ensure_subscriptions_granted topics ids Hgrant); try done.
    + change (sub_ids (subscriptions_ InputManager_new)) with (@nil orb_id_t).
      rewrite elem_of_nil.
      split; [intros [[]|Hx]; by apply Hdrawn | intros Hx; right; by apply Hall].
    + change (sub_ids (subscriptions_ InputManager_new)) with (@nil orb_id_t).
      by intros y ?%elem_of_nil.
  - intros Hgrant.
    apply NoDup_Permutation; [by apply ensure_publications_NoDup | done |].
    intros x.
    rewrite (ensure_publications_granted topics ids data Hgrant); try done.
    + change (pub_ids (publications_ OutputManager_new)) with (@nil orb_id_t).
      rewrite elem_of_nil.
      split; [intros [[]|Hx]; by apply Hdrawn | intros Hx; right; by apply Hall].
    + change (pub_ids (publications_ OutputManager_new)) with (@nil orb_id_t).
      by intros y ?%elem_of_nil.
Qed.

(** The sleep of a cycle that finishes within the interval: what is left
    of the interval. *)
Lemma usleep_arg_on_time (loop_start_time now : Z) :
  (0 <= loop_start_time <= now)%Z -> (now < 2 ^ 64)%Z ->
  (now - loop_start_time <= LOOP_INTERVAL_US)%Z -> (14 <= useconds_bits)%Z ->
  usleep_arg loop_start_time now = (LOOP_INTERVAL_US - (now - loop_start_time))%Z.
Proof.
  intros Hstart Hnow Hel Hbits.
  unfold usleep_arg, loop_remaining, uint64, LOOP_INTERVAL_US in *.
  rewrite (Z.mod_small (now - loop_start_time)) by lia.
  rewrite (Z.mod_small (10000 - _)) by lia.
  apply Z.mod_small.
  assert (2 ^ 14 <= 2 ^ useconds_bits)%Z by (apply Z.pow_le_mono_r; lia). lia.
Qed.

(** The sleep of a cycle that overran the interval by [d] microseconds:
    the unsigned subtraction wraps around. *)
Lemma usleep_arg_overrun (loop_start_time now : Z) :
  (0 <= loop_start_time)%Z -> (now < 2 ^ 64)%Z ->
  (0 < useconds_bits <= 64)%Z ->
  (0 < now - loop_start_time - LOOP_INTERVAL_US < 2 ^ useconds_bits)%Z ->
  usleep_arg loop_start_time now =
    (2 ^ useconds_bits - (now - loop_start_time - LOOP_INTERVAL_US))%Z.
Proof.
  intros Hstart Hnow Hbits Hover.
  unfold usleep_arg, loop_remaining, uint64, LOOP_INTERVAL_US in *.
  rewrite (Z.mod_small (now - loop_start_time)) by lia.
  assert ((10000 - (now - loop_start_time)) mod 2 ^ 64
          = 2 ^ 64 + (10000 - (now - loop_start_time)))%Z as ->.
  { symmetry. apply (Z.mod_unique _ _ (-1)); lia. }
  assert (2 ^ 64 = 2 ^ (64 - useconds_bits) * 2 ^ useconds_bits)%Z as Hpow.
  { rewrite <- Z.pow_add_r by lia. f_equal. lia. }
  assert (0 < 2 ^ (64 - useconds_bits))%Z by (apply Z.pow_pos_nonneg; lia).
  symmetry. apply (Z.mod_unique _ _ (2 ^ (64 - useconds_bits) - 1)); [lia|].
  rewrite Hpow. ring.
Qed.

(** A cycle whose work took no longer than the interval sleeps for the
    rest of the interval. *)
Lemma on_time_cycle_sleeps_the_rest managers (w : W) (t0 t1 t2 : Z) :
  omap time_of (trace_of (run_cycle managers w)) = [t0; t1; t2] ->
  (0 <= t0 <= t2)%Z -> (t2 < 2 ^ 64)%Z -> (14 <= useconds_bits)%Z ->
  (t2 - t0 <= LOOP_INTERVAL_US)%Z ->
  omap usleep_of (trace_of (run_cycle managers w))
  = [(LOOP_INTERVAL_US - (t2 - t0))%Z].
Proof.
  intros Hclock Hstart Hnow Hbits Hel.
  destruct (run_cycle_sleep managers w)
    as [(t0' & t1' & t2' & ms' & _ & Ht & Hs) | (_ & Hlen & _)].
  - rewrite Hclock in Ht. simplify_eq. rewrite Hs.
    by rewrite usleep_arg_on_time.
  - rewrite Hclock in Hlen. simpl in Hlen. lia.
Qed.

(** C1, as the code has it. A cycle whose work overran the interval by [d]
    microseconds (clock readings [t0] at its start and [t2] before its
    sleep, [d = t2 - t0 - LOOP_INTERVAL_US > 0]) does not sleep zero
    microseconds: the unsigned subtraction [LOOP_INTERVAL_US - elapsed] is
    not clamped, it wraps around, and [px4_usleep] is called with
    [2^useconds_bits - d]. *)
Theorem overrun_sleep_wraps managers (w : W) (t0 t1 t2 : Z) :
  omap time_of (trace_of (run_cycle managers w)) = [t0; t1; t2] ->
  (0 <= t0)%Z -> (t2 < 2 ^ 64)%Z -> (0 < useconds_bits <= 64)%Z ->
  (0 < t2 - t0 - LOOP_INTERVAL_US < 2 ^ useconds_bits)%Z ->
  omap usleep_of (trace_of (run_cycle managers w))
  = [(2 ^ useconds_bits - (t2 - t0 - LOOP_INTERVAL_US))%Z] /\
  (0 < 2 ^ useconds_bits - (t2 - t0 - LOOP_INTERVAL_US))%Z.
Proof.
  intros Hclock Hstart Hnow Hbits Hover. split; [|lia].
  destruct (run_cycle_sleep managers w)
    as [(t0' & t1' & t2' & ms' & _ & Ht & Hs) | (_ & Hlen & _)].
  - rewrite Hclock in Ht. simplify_eq. rewrite Hs.
    by rewrite usleep_arg_overrun.
  - rewrite Hclock in Hlen. simpl in Hlen. lia.
Qed.

End Claims.

(** * Further properties of the relay *)

Lemma omap_cons_None {A B : Type} (f : A -> option B) x l :
  f x = None -> omap f (x :: l) = omap f l.
Proof. intros Hx. simpl. by rewrite Hx. Qed.

Lemma omap_cons_Some {A B : Type} (f : A -> option B) x y l :
  f x = Some y -> omap f (x :: l) = y :: omap f l.
Proof. intros Hx. simpl. by rewrite Hx. Qed.

Lemma omap_empty {A B : Type} (f : A -> option B) : omap f [] = [].
Proof. done. Qed.

(** Reading a trace given as a concatenation, piece by piece. *)
Ltac read_trace :=
  repeat first
    [ rewrite omap_app
    | rewrite omap_cons_None by done
    | erewrite omap_cons_Some by done
    | rewrite omap_empty ].

Section Relay.
Context {W : Type} `{Platform W}.

(** A property of every call of the loop body and of the count query is a
    property of every call of the relay. *)
Lemma process_input_Forall (P : event -> Prop) m w :
  (forall e n, P (Ev_input_count e n)) ->
  (forall e, P (Ev_log (ERR_input_count e))) ->
  (forall i m w, Forall P (trace_of (input_step i m w))) ->
  Forall P (trace_of (process_input_messages m w)).
Proof.
  intros Hcount Hlog Hstep. rewrite process_input_messages_eq.
  destruct (rust_get_input_message_count w) as [[e n] w1].
  destruct (ffi_failed e); [by repeat constructor|].
  destruct (assert_fails _); [by repeat constructor|].
  pose proof (for_each_rel input_step (fun _ _ tr => Forall P tr)
                (fun _ => Forall_nil_2 _)
                (fun _ _ _ _ _ H1 H2 => Forall_app_2 _ _ _ H1 H2)
                Hstep (index_range n) m w1) as Hloop.
  destruct (for_each _ _ _ _) as [[m' w2] t]. by constructor.
Qed.

Lemma process_output_Forall (P : event -> Prop) m w :
  (forall e n, P (Ev_output_count e n)) ->
  (forall e, P (Ev_log (ERR_output_count e))) ->
  (forall i m w, Forall P (trace_of (output_step i m w))) ->
  Forall P (trace_of (process_output_messages m w)).
Proof.
  intros Hcount Hlog Hstep. rewrite process_output_messages_eq.
  destruct (rust_get_output_message_count w) as [[e n] w1].
  destruct (ffi_failed e); [by repeat constructor|].
  destruct (assert_fails _); [by repeat constructor|].
  pose proof (for_each_rel output_step (fun _ _ tr => Forall P tr)
                (fun _ => Forall_nil_2 _)
                (fun _ _ _ _ _ H1 H2 => Forall_app_2 _ _ _ H1 H2)
                Hstep (index_range n) m w1) as Hloop.
  destruct (for_each _ _ _ _) as [[m' w2] t]. by constructor.
Qed.

Lemma input_step_side i m w :
  Forall (fun e => is_input_call e = true) (trace_of (input_step i m w)).
Proof.
  destruct (input_step_spec i m w) as
    [ | ??????? _ _ Hens _ | ?????????? _ _ Hens | ?????????? _ _ Hens
    | ????????????? _ _ Hens | ??????????????? _ _ Hens ];
    unfold trace_of; simpl; [by repeat constructor|..];
    inversion Hens; subst; simpl; try destruct (ffi_failed res);
    by repeat constructor.
Qed.

Lemma output_step_side i m w :
  Forall (fun e => is_output_call e = true) (trace_of (output_step i m w)).
Proof.
  destruct (output_step_spec i m w) as
    [ | | | | |
    | ??????????? ? ? _ _ _ _ _ _ _ _ Hens
    | ??????????? ? ? ? ? _ _ _ _ _ _ _ _ Hens ];
    unfold trace_of; simpl; try (by repeat constructor);
    inversion Hens; subst; simpl; by repeat constructor.
Qed.

Lemma process_input_side m w :
  Forall (fun e => is_input_call e = true) (trace_of (process_input_messages m w)).
Proof. apply process_input_Forall; auto using input_step_side. Qed.

Lemma process_output_side m w :
  Forall (fun e => is_output_call e = true) (trace_of (process_output_messages m w)).
Proof. apply process_output_Forall; auto using output_step_side. Qed.

(** X1. Each relay keeps to its side: the input relay calls only the
    engine's input interface, [orb_subscribe], [orb_check] and [orb_copy],
    and the output relay only the engine's output interface,
    [orb_advertise] and [orb_publish].  In particular no relay ever calls
    [orb_unsubscribe]: a subscription, once made, is kept. *)
Theorem relays_keep_to_their_side (im : InputManager) (om : OutputManager) (w : W) :
  Forall (fun e => is_input_call e = true) (trace_of (process_input_messages im w)) /\
  Forall (fun e => is_output_call e = true) (trace_of (process_output_messages om w)) /\
  (forall h, Ev_orb_unsubscribe h ∉ trace_of (process_input_messages im w)) /\
  (forall h, Ev_orb_unsubscribe h ∉ trace_of (process_output_messages om w)).
Proof.
  pose proof (process_input_side im w) as Hi.
  pose proof (process_output_side om w) as Ho.
  split_and!; [done | done | |].
  - intros h Hin. rewrite Forall_forall in Hi.
    apply list_elem_of_In, Hi in Hin. done.
  - intros h Hin. rewrite Forall_forall in Ho.
    apply list_elem_of_In, Ho in Hin. done.
Qed.

(** X2. A relay whose count query fails logs the failure, makes no other
    call and returns with its manager as it was, whatever count came with
    the failure and whether or not assertions are compiled in; a relay
    whose count query reports no topic makes no other call at all. *)
Theorem relay_without_topics (im : InputManager) (om : OutputManager) (w : W) :
  (ffi_failed (input_status w) = true ->
   value_of (process_input_messages im w) = Returned im /\
   trace_of (process_input_messages im w) =
     [Ev_input_count (input_status w) (reported_inputs w);
      Ev_log (ERR_input_count (input_status w))]) /\
  (ffi_failed (input_status w) = false -> reported_inputs w = 0%N ->
   value_of (process_input_messages im w) = Returned im /\
   trace_of (process_input_messages im w) = [Ev_input_count (input_status w) 0]) /\
  (ffi_failed (output_status w) = true ->
   value_of (process_output_messages om w) = Returned om /\
   trace_of (process_output_messages om w) =
     [Ev_output_count (output_status w) (reported_outputs w);
      Ev_log (ERR_output_count (output_status w))]) /\
  (ffi_failed (output_status w) = false -> reported_outputs w = 0%N ->
   value_of (process_output_messages om w) = Returned om /\
   trace_of (process_output_messages om w) = [Ev_output_count (output_status w) 0]).
Proof.
  unfold input_status, reported_inputs, output_status, reported_outputs.
  rewrite process_input_messages_eq, process_output_messages_eq.
  destruct (rust_get_input_message_count w) as [[ei ni] wi].
  destruct (rust_get_output_message_count w) as [[eo no] wo]. simpl.
  split_and!.
  - by intros ->.
  - intros -> ->. unfold assert_fails. simpl. by rewrite andb_false_r.
  - by intros ->.
  - intros -> ->. unfold assert_fails. simpl. by rewrite andb_false_r.
Qed.

Lemma fits_buffer id : oversize id = false -> (o_size id <=? MAX_MESSAGE_SIZE)%N = true.
Proof. unfold oversize. intros ?%N.ltb_ge. by apply N.leb_le. Qed.

Lemma input_step_within i m w :
  Forall (fun e => within_buffer e = true) (trace_of (input_step i m w)).
Proof.
  destruct (input_step_spec i m w) as
    [ | ??????? _ _ Hens _ | ?????????? _ _ Hens | ?????????? _ _ Hens
    | ????????????? _ _ Hens _ _ _ Esize
    | ??????????????? _ _ Hens _ _ _ Esize ];
    unfold trace_of; simpl; [by repeat constructor|..];
    inversion Hens; subst; simpl; try destruct (ffi_failed res);
    repeat constructor; simpl; by rewrite ?N.eqb_refl, ?fits_buffer.
Qed.

Lemma output_step_within i m w :
  Forall (fun e => within_buffer e = true) (trace_of (output_step i m w)).
Proof.
  destruct (output_step_spec i m w) as
    [ | | | 
    | ????????? _ _ _ _ Esize 
    | ????????? _ _ _ _ Esize
    | ??????????? ? ? _ _ _ _ Esize _ _ _ Hens
    | ??????????? ? ? ? ? _ _ _ _ Esize _ _ _ Hens ];
    unfold trace_of; simpl; try (by repeat constructor).
  3,4: inversion Hens; subst; simpl.
  all: repeat constructor; simpl; by rewrite ?N.eqb_refl, ?fits_buffer.
Qed.

(** X3. No call of a relay is asked to move more bytes than the static
    buffer holds: [orb_copy], [orb_advertise] and [orb_publish] are only
    called for topics whose size is at most [MAX_MESSAGE_SIZE], the length
    given to [rust_write_input_message] is the size of the topic just
    copied, and the capacity given to [rust_read_output_message] is
    [MAX_MESSAGE_SIZE]. *)
Theorem transfers_fit_the_buffer (im : InputManager) (om : OutputManager) (w : W) :
  Forall (fun e => within_buffer e = true) (trace_of (process_input_messages im w)) /\
  Forall (fun e => within_buffer e = true) (trace_of (process_output_messages om w)).
Proof.
  split.
  - apply process_input_Forall; auto using input_step_within.
  - apply process_output_Forall; auto using output_step_within.
Qed.

(** ** Bindings across calls *)

Lemma ensure_sub_bound T id subs w r subs' w' t :
  ensure_sub_result id subs w (r, subs', w', t) -> T ∈ sub_ids subs ->
  T ∈ sub_ids subs' /\ count (is_subscribe T) t = 0.
Proof.
  intros Hres HT. split.
  - eapply kept_sub_ids; [|done]. intros j b. by eapply ensure_sub_keeps.
  - inversion Hres; subst; unfold count; simpl; try done;
      case_bool_decide; simplify_eq; done.
Qed.

Lemma kept_pub_ids (pubs pubs' : list OrbPublication.t) T :
  (forall j b, pubs !! j = Some b -> OrbPublication.is_valid b = true ->
               pubs' !! j = Some b) ->
  T ∈ pub_ids pubs -> T ∈ pub_ids pubs'.
Proof.
  intros Hkeep (b & [j Hj]%list_elem_of_lookup_1 & Hv & Hk)%elem_of_bound_ids.
  apply elem_of_bound_ids. exists b.
  split_and!; [|done..]. eapply list_elem_of_lookup_2, Hkeep; eauto.
Qed.

Lemma ensure_pub_bound T id data pubs w r pubs' w' t :
  ensure_pub_result id data pubs w (r, pubs', w', t) -> T ∈ pub_ids pubs ->
  T ∈ pub_ids pubs' /\ count (is_advertise T) t = 0.
Proof.
  intros Hres HT. split.
  - eapply kept_pub_ids; [|done]. intros j b. by eapply ensure_pub_keeps.
  - inversion Hres; subst; unfold count; simpl; try done;
      case_bool_decide; simplify_eq; done.
Qed.

Lemma input_step_bound T i m w :
  T ∈ sub_ids (subscriptions_ m) ->
  T ∈ sub_ids (subscriptions_ (value_of (input_step i m w))) /\
  count (is_subscribe T) (trace_of (input_step i m w)) = 0.
Proof.
  intros HT.
  destruct (input_step_spec i m w) as
    [ | ??????? _ _ Hens _ | ?????????? _ _ Hens | ?????????? _ _ Hens
    | ????????????? _ _ Hens | ??????????????? _ _ Hens ];
    unfold value_of, trace_of; simpl; [done|..];
    destruct (ensure_sub_bound T _ _ _ _ _ _ _ Hens HT) as [HT' Hc];
    (split; [done|]); rewrite count_cons, ?count_app, Hc;
    try destruct (ffi_failed res); done.
Qed.

Lemma output_step_bound T i m w :
  T ∈ pub_ids (publications_ m) ->
  T ∈ pub_ids (publications_ (value_of (output_step i m w))) /\
  count (is_advertise T) (trace_of (output_step i m w)) = 0.
Proof.
  intros HT.
  destruct (output_step_spec i m w) as
    [ | | | | |
    | ??????????? ? ? _ _ _ _ _ _ _ _ Hens
    | ??????????? ? ? ? ? _ _ _ _ _ _ _ _ Hens ];
    unfold value_of, trace_of; simpl; try done;
    destruct (ensure_pub_bound T _ _ _ _ _ _ _ _ Hens HT) as [HT' Hc];
    (split; [done|]); rewrite !count_cons, ?count_app, Hc; done.
Qed.

(** X4. A topic that holds a valid binding is not subscribed
    (advertised) again: one invocation of the input relay makes no
    [orb_subscribe] call for a topic bound in [subscriptions_], one
    invocation of the output relay no [orb_advertise] call for a topic
    bound in [publications_], and the topic is still bound afterwards. *)
Theorem bound_topic_is_not_bound_again (T : orb_id_t) (im : InputManager)
    (om : OutputManager) (w : W) :
  (T ∈ sub_ids (subscriptions_ im) ->
   count (is_subscribe T) (trace_of (process_input_messages im w)) = 0 /\
   forall im', value_of (process_input_messages im w) = Returned im' ->
               T ∈ sub_ids (subscriptions_ im')) /\
  (T ∈ pub_ids (publications_ om) ->
   count (is_advertise T) (trace_of (process_output_messages om w)) = 0 /\
   forall om', value_of (process_output_messages om w) = Returned om' ->
               T ∈ pub_ids (publications_ om')).
Proof.
  split; intros HT.
  - rewrite process_input_messages_eq.
    destruct (rust_get_input_message_count w) as [[e n] w1].
    destruct (ffi_failed e); [split; [done | by intros ? [= <-]]|].
    destruct (assert_fails _); [done|].
    pose proof (for_each_rel input_step
      (fun m m' tr => T ∈ sub_ids (subscriptions_ m) ->
                      T ∈ sub_ids (subscriptions_ m') /\ count (is_subscribe T) tr = 0))
      as Hloop.
    specialize (Hloop (fun _ HT => conj HT eq_refl)).
    destruct (Hloop) with (indices := index_range n) (s := im) (w := w1)
      as [HT' Hc]; [| |done|].
    + intros s1 s2 s3 t1 t2 H1 H2 H0.
      destruct (H1 H0) as [H1' Hc1]. destruct (H2 H1') as [H2' Hc2].
      split; [done|]. rewrite count_app. lia.
    + intros i s w0. apply input_step_bound.
    + destruct (for_each _ _ _ _) as [[m' w2] t].
      unfold value_of, trace_of in *. simpl in *.
      split; [by rewrite count_cons, Hc | by intros ? [= <-]].
  - rewrite process_output_messages_eq.
    destruct (rust_get_output_message_count w) as [[e n] w1].
    destruct (ffi_failed e); [split; [done | by intros ? [= <-]]|].
    destruct (assert_fails _); [done|].
    pose proof (for_each_rel output_step
      (fun m m' tr => T ∈ pub_ids (publications_ m) ->
                      T ∈ pub_ids (publications_ m') /\ count (is_advertise T) tr = 0))
      as Hloop.
    specialize (Hloop (fun _ HT => conj HT eq_refl)).
    destruct (Hloop) with (indices := index_range n) (s := om) (w := w1)
      as [HT' Hc]; [| |done|].
    + intros s1 s2 s3 t1 t2 H1 H2 H0.
      destruct (H1 H0) as [H1' Hc1]. destruct (H2 H1') as [H2' Hc2].
      split; [done|]. rewrite count_app. lia.
    + intros i s w0. apply output_step_bound.
    + destruct (for_each _ _ _ _) as [[m' w2] t].
      unfold value_of, trace_of in *. simpl in *.
      split; [by rewrite count_cons, Hc | by intros ? [= <-]].
Qed.

(** The scan for a binding of [id] after a valid binding of [id] was
    stored in a pool that had none. *)
Lemma find_bound_insert {A : Type} (valid : A -> bool) (key : A -> orb_id_t)
    (pool : list A) id i old new :
  id ∉ bound_ids valid key pool -> pool !! i = Some old ->
  valid new = true -> key new = id ->
  list_find (fun x => valid x && bool_decide (key x = id)) (<[i:=new]> pool)
  = Some (i, new).
Proof.
  intros Hnew Hi Hv Hk. apply list_find_Some. split_and!.
  - apply list_lookup_insert_eq. by eapply lookup_lt_Some.
  - by apply Is_true_true.
  - by apply bool_decide_pack.
  - intros j y Hj Hlt HP. rewrite list_lookup_insert_ne in Hj by lia.
    apply andb_prop_elim in HP as [Hvy Hky].
    apply Hnew, elem_of_bound_ids. exists y.
    split_and!; [by eapply list_elem_of_lookup_2 | by apply Is_true_true
                | by apply bool_decide_unpack in Hky].
Qed.

(** The scan for a free slot after the first free slot was overwritten
    with an entry that is not valid. *)
Lemma find_free_insert {A : Type} (valid : A -> bool) (pool : list A) i old new :
  list_find (fun x => negb (valid x)) pool = Some (i, old) -> valid new = false ->
  list_find (fun x => negb (valid x)) (<[i:=new]> pool) = Some (i, new).
Proof.
  intros (Hi & _ & Hfirst)%list_find_Some Hv. apply list_find_Some. split_and!.
  - apply list_lookup_insert_eq. by eapply lookup_lt_Some.
  - by rewrite Hv.
  - intros j y Hj Hlt. rewrite list_lookup_insert_ne in Hj by lia. by eapply Hfirst.
Qed.

(** [ensure_subscription] and [ensure_publication], call by call. *)
Lemma ensure_subscription_eq id subs w :
  ensure_subscription id subs w =
  match list_find (fun s => OrbSubscription.is_valid s
                           && bool_decide (OrbSubscription.id_ s = id)) subs with
  | Some (i, _) => (Sub_slot i, subs, w, [])
  | None =>
      match list_find (fun s => negb (OrbSubscription.is_valid s)) subs with
      | Some (i, _) =>
          let '(h, w') := orb_subscribe id w in
          if (h <? 0)%Z then
            (Sub_slot i, <[i := OrbSubscription.mk id (-1)]> subs, w',
             [Ev_log (INFO_subscribing id); Ev_orb_subscribe id h; Ev_log ERR_subscribe])
          else
            (Sub_slot i, <[i := OrbSubscription.mk id h]> subs, w',
             [Ev_log (INFO_subscribing id); Ev_orb_subscribe id h])
      | None => (Sub_invalid, subs, w, [Ev_log ERR_too_many_subscriptions])
      end
  end.
Proof.
  unfold ensure_subscription.
  destruct (list_find _ subs) as [[i s]|]; [done|].
  destruct (list_find _ subs) as [[i old]|] eqn:Efree; [|done].
  apply find_free_Some in Efree as [_ Hold].
  unfold bind, log, OrbSubscription.ctor, bind, call_orb_subscribe,
    OrbSubscription.move_assign, OrbSubscription.dtor, bind.
  unfold OrbSubscription.is_valid in Hold. rewrite Hold.
  destruct (orb_subscribe id w) as [h w'].
  destruct (h <? 0)%Z eqn:Eh; simpl; [done|].
  apply Z.ltb_ge in Eh. by destruct (0 <=? h)%Z eqn:Eh'; [|lia].
Qed.

Lemma ensure_publication_eq id data pubs w :
  ensure_publication id data pubs w =
  match list_find (fun p => OrbPublication.is_valid p
                           && bool_decide (OrbPublication.id_ p = id)) pubs with
  | Some (i, _) => (Pub_slot i, pubs, w, [])
  | None =>
      match list_find (fun p => negb (OrbPublication.is_valid p)) pubs with
      | Some (i, _) =>
          let '(h, w') := orb_advertise id data w in
          (Pub_slot i, <[i := OrbPublication.mk id h]> pubs, w',
           [Ev_log (INFO_advertising id); Ev_orb_advertise id h] ++
           (if N.eqb h nullptr then [Ev_log ERR_advertise] else []))
      | None => (Pub_invalid, pubs, w, [Ev_log ERR_too_many_publications])
      end
  end.
Proof.
  unfold ensure_publication.
  destruct (list_find _ pubs) as [[i s]|]; [done|].
  destruct (list_find _ pubs) as [[i old]|]; [|done].
  unfold bind, log, OrbPublication.ctor, bind, call_orb_advertise.
  destruct (orb_advertise id data w) as [h w'].
  by destruct (N.eqb h nullptr).
Qed.

(** X5. [ensure_subscription] and [ensure_publication] are lookups once
    the topic is bound: when a call has returned a valid binding, the next
    call for the same topic, in whatever state the bus is, returns the same
    slot, leaves the array as it is and calls nothing. *)
Theorem ensure_again_is_a_lookup (id : orb_id_t) (subs : list OrbSubscription.t)
    (pubs : list OrbPublication.t) (data : bytes) (w : W) :
  (let r := ensure_subscription id subs w in
   OrbSubscription.is_valid (deref_sub (fst (value_of r)) (snd (value_of r))) = true ->
   forall w', ensure_subscription id (snd (value_of r)) w' = (value_of r, w', [])) /\
  (let r := ensure_publication id data pubs w in
   OrbPublication.is_valid (deref_pub (fst (value_of r)) (snd (value_of r))) = true ->
   forall data' w',
     ensure_publication id data' (snd (value_of r)) w' = (value_of r, w', [])).
Proof.
  split; cbv zeta.
  - rewrite (ensure_subscription_eq id subs w).
    destruct (list_find _ subs) as [[i s]|] eqn:Efound.
    { intros _ w'. unfold value_of. simpl.
      by rewrite ensure_subscription_eq, Efound. }
    apply find_bound_None in Efound.
    destruct (list_find _ subs) as [[i old]|] eqn:Efree; [|done].
    apply find_free_Some in Efree as [Hi Hold].
    destruct (orb_subscribe id w) as [h w1].
    destruct (h <? 0)%Z eqn:Eh; unfold value_of; simpl;
      rewrite list_lookup_insert_eq by (by eapply lookup_lt_Some); simpl; [done|].
    intros Hv w'. rewrite ensure_subscription_eq.
    by rewrite (find_bound_insert OrbSubscription.is_valid OrbSubscription.id_
                  subs id i old _ Efound Hi Hv eq_refl).
  - rewrite (ensure_publication_eq id data pubs w).
    destruct (list_find _ pubs) as [[i s]|] eqn:Efound.
    { intros _ data' w'. unfold value_of. simpl.
      by rewrite ensure_publication_eq, Efound. }
    apply find_bound_None in Efound.
    destruct (list_find _ pubs) as [[i old]|] eqn:Efree; [|done].
    apply find_free_Some in Efree as [Hi Hold].
    destruct (orb_advertise id data w) as [h w1].
    unfold value_of; simpl.
    rewrite list_lookup_insert_eq by (by eapply lookup_lt_Some). simpl.
    intros Hv data' w'. rewrite ensure_publication_eq.
    by rewrite (find_bound_insert OrbPublication.is_valid OrbPublication.id_
                  pubs id i old _ Efound Hi Hv eq_refl).
Qed.

(** X6. A binding the bus refuses does not use up a slot.  When
    [orb_subscribe] fails for a topic that is not bound, the pool holds the
    same valid bindings as before, and the next [ensure_subscription] for a
    topic that is not bound, the same or another, is given the same slot
    and, when there is a slot, asks the bus again.  The same holds of
    [ensure_publication] when [orb_advertise] returns [nullptr]. *)
Theorem refused_binding_keeps_the_slot_free (id id' : orb_id_t)
    (subs : list OrbSubscription.t) (pubs : list OrbPublication.t)
    (data data' : bytes) (w w' : W) :
  ((fst (orb_subscribe id w) < 0)%Z ->
   id ∉ sub_ids subs -> id' ∉ sub_ids subs ->
   let r := ensure_subscription id subs w in
   let r' := ensure_subscription id' (snd (value_of r)) w' in
   sub_ids (snd (value_of r)) = sub_ids subs /\
   fst (value_of r') = fst (value_of r) /\
   (fst (value_of r) <> Sub_invalid ->
    Ev_orb_subscribe id' (fst (orb_subscribe id' w')) ∈ trace_of r')) /\
  (fst (orb_advertise id data w) = nullptr ->
   id ∉ pub_ids pubs -> id' ∉ pub_ids pubs ->
   let r := ensure_publication id data pubs w in
   let r' := ensure_publication id' data' (snd (value_of r)) w' in
   pub_ids (snd (value_of r)) = pub_ids pubs /\
   fst (value_of r') = fst (value_of r) /\
   (fst (value_of r) <> Pub_invalid ->
    Ev_orb_advertise id' (fst (orb_advertise id' data' w')) ∈ trace_of r')).
Proof.
  split; cbv zeta.
  - intros Hfail Hid Hid'.
    rewrite (ensure_subscription_eq id subs w).
    rewrite (proj2 (find_bound_None OrbSubscription.is_valid OrbSubscription.id_
                      subs id) Hid).
    destruct (list_find _ subs) as [[i old]|] eqn:Efree.
    2: { unfold value_of, trace_of. simpl. rewrite ensure_subscription_eq.
         rewrite (proj2 (find_bound_None OrbSubscription.is_valid OrbSubscription.id_
                           subs id') Hid'), Efree.
         by split_and!. }
    pose proof Efree as [Hi Hold]%find_free_Some.
    destruct (orb_subscribe id w) as [h w1]. simpl in Hfail.
    apply Z.ltb_lt in Hfail. rewrite Hfail. unfold value_of, trace_of. simpl.
    assert (bound_ids OrbSubscription.is_valid OrbSubscription.id_
              (<[i:=OrbSubscription.mk id (-1)]> subs)
            = bound_ids OrbSubscription.is_valid OrbSubscription.id_ subs) as Hsame.
    { by eapply bound_ids_insert_invalid. }
    split; [exact Hsame|].
    rewrite ensure_subscription_eq.
    rewrite (proj2 (find_bound_None OrbSubscription.is_valid OrbSubscription.id_
                      _ id')) by (by rewrite Hsame).
    rewrite (find_free_insert OrbSubscription.is_valid subs i old
               (OrbSubscription.mk id (-1)) Efree eq_refl).
    destruct (orb_subscribe id' w') as [h' w2]. simpl.
    destruct (h' <? 0)%Z; simpl; (split; [done|]); intros _;
      apply elem_of_cons; right; apply elem_of_cons; by left.
  - intros Hfail Hid Hid'.
    rewrite (ensure_publication_eq id data pubs w).
    rewrite (proj2 (find_bound_None OrbPublication.is_valid OrbPublication.id_
                      pubs id) Hid).
    destruct (list_find _ pubs) as [[i old]|] eqn:Efree.
    2: { unfold value_of, trace_of. simpl. rewrite ensure_publication_eq.
         rewrite (proj2 (find_bound_None OrbPublication.is_valid OrbPublication.id_
                           pubs id') Hid'), Efree.
         by split_and!. }
    pose proof Efree as [Hi Hold]%find_free_Some.
    destruct (orb_advertise id data w) as [h w1]. simpl in Hfail. subst h.
    unfold value_of, trace_of. simpl.
    assert (bound_ids OrbPublication.is_valid OrbPublication.id_
              (<[i:=OrbPublication.mk id nullptr]> pubs)
            = bound_ids OrbPublication.is_valid OrbPublication.id_ pubs) as Hsame.
    { by eapply bound_ids_insert_invalid. }
    split; [exact Hsame|].
    rewrite ensure_publication_eq.
    rewrite (proj2 (find_bound_None OrbPublication.is_valid OrbPublication.id_
                      _ id')) by (by rewrite Hsame).
    rewrite (find_free_insert OrbPublication.is_valid pubs i old
               (OrbPublication.mk id nullptr) Efree eq_refl).
    destruct (orb_advertise id' data' w') as [h' w2]. simpl.
    (split; [done|]); intros _;
      apply elem_of_cons; right; apply elem_of_cons; by left.
Qed.

(** ** Where handles come from *)

Lemma elem_of_insert_inv {A : Type} (l : list A) i x b :
  b ∈ <[i:=x]> l -> b = x \/ b ∈ l.
Proof.
  intros [j Hj]%list_elem_of_lookup_1.
  apply list_lookup_insert_Some in Hj as [(_ & -> & _) | [_ Hj]];
    [by left | right; by eapply list_elem_of_lookup_2].
Qed.

Lemma ensure_sub_provenance id subs w r subs' w' t :
  ensure_sub_result id subs w (r, subs', w', t) ->
  (forall b, b ∈ subs' -> OrbSubscription.is_valid b = true ->
     b ∈ subs \/
     Ev_orb_subscribe (OrbSubscription.id_ b) (OrbSubscription.handle_ b) ∈ t) /\
  (OrbSubscription.is_valid (deref_sub r subs') = true -> deref_sub r subs' ∈ subs') /\
  omap subscription_used t = [].
Proof.
  inversion 1; subst; (split_and!; [| |done]).
  - by left.
  - simpl. match goal with Hi : _ !! _ = Some _ |- _ => rewrite Hi end. simpl.
    intros _. by eapply list_elem_of_lookup_2.
  - intros b [-> | Hb]%elem_of_insert_inv Hv; [|by left].
    right. simpl. apply elem_of_cons. right. apply elem_of_cons. by left.
  - simpl. rewrite list_lookup_insert_eq by (by eapply lookup_lt_Some). simpl.
    intros _. apply list_elem_of_insert. by eapply lookup_lt_Some.
  - intros b [-> | Hb]%elem_of_insert_inv Hv; [done | by left].
  - simpl. rewrite list_lookup_insert_eq by (by eapply lookup_lt_Some). done.
  - by left.
  - done.
Qed.

Lemma ensure_pub_provenance id data pubs w r pubs' w' t :
  ensure_pub_result id data pubs w (r, pubs', w', t) ->
  (forall b, b ∈ pubs' -> OrbPublication.is_valid b = true ->
     b ∈ pubs \/
     Ev_orb_advertise (OrbPublication.id_ b) (OrbPublication.handle_ b) ∈ t) /\
  (OrbPublication.is_valid (deref_pub r pubs') = true -> deref_pub r pubs' ∈ pubs') /\
  (forall id' h rc, Ev_orb_publish id' h rc ∉ t).
Proof.
  assert (forall (tr : list event),
            Forall (fun e => match e with
                             | Ev_orb_publish _ _ _ => False
                             | _ => True
                             end) tr ->
            forall id' h rc, Ev_orb_publish id' h rc ∉ tr) as Hno.
  { intros tr Htr id' h rc Hin. rewrite Forall_forall in Htr.
    by apply list_elem_of_In, Htr in Hin. }
  inversion 1; subst; (split_and!; [| |apply Hno; by repeat constructor]).
  - by left.
  - simpl. match goal with Hi : _ !! _ = Some _ |- _ => rewrite Hi end. simpl.
    intros _. by eapply list_elem_of_lookup_2.
  - intros b [-> | Hb]%elem_of_insert_inv Hv; [|by left].
    right. simpl. apply elem_of_cons. right. apply elem_of_cons. by left.
  - simpl. rewrite list_lookup_insert_eq by (by eapply lookup_lt_Some). simpl.
    intros _. apply list_elem_of_insert. by eapply lookup_lt_Some.
  - intros b [-> | Hb]%elem_of_insert_inv Hv; [done | by left].
  - simpl. rewrite list_lookup_insert_eq by (by eapply lookup_lt_Some). done.
  - by left.
  - done.
Qed.

Lemma input_handles_rel_refl m : input_handles_rel m m [].
Proof. split; [by left | by intros ?? ?%elem_of_nil]. Qed.

Lemma input_handles_rel_trans m1 m2 m3 t1 t2 :
  input_handles_rel m1 m2 t1 -> input_handles_rel m2 m3 t2 ->
  input_handles_rel m1 m3 (t1 ++ t2).
Proof.
  intros [Hb1 Hu1] [Hb2 Hu2].
  assert (forall b, b ∈ subscriptions_ m2 -> OrbSubscription.is_valid b = true ->
            b ∈ subscriptions_ m1 \/
            Ev_orb_subscribe (OrbSubscription.id_ b) (OrbSubscription.handle_ b)
              ∈ t1 ++ t2) as Hb12.
  { intros b Hb Hv. rewrite elem_of_app. destruct (Hb1 b Hb Hv); auto. }
  split.
  - intros b Hb Hv. destruct (Hb2 b Hb Hv) as [Hin | Hin]; [by apply Hb12|].
    right. apply elem_of_app. by right.
  - intros id h. rewrite omap_app, elem_of_app. intros [Hin | Hin].
    + destruct (Hu1 id h Hin) as [Hh [? | ?]]; (split; [done|]); [by left|].
      right. apply elem_of_app. by left.
    + destruct (Hu2 id h Hin) as [Hh [Hm | ?]]; (split; [done|]).
      * apply (Hb12 _ Hm). by apply Z.leb_le.
      * right. apply elem_of_app. by right.
Qed.

Lemma input_step_handles i m w :
  input_handles_rel m (value_of (input_step i m w)) (trace_of (input_step i m w)).
Proof.
  destruct (input_step_spec i m w) as
    [ e id w1 Eid Ee
    | e id w1 r subs w2 t2 Eid Ee Hens Ev
    | e id w1 r subs w2 t2 rc updated w3 Eid Ee Hens Ev Echk Efresh
    | e id w1 r subs w2 t2 rc updated w3 Eid Ee Hens Ev Echk Efresh Esize
    | e id w1 r subs w2 t2 rc updated w3 rc' data w4
        Eid Ee Hens Ev Echk Efresh Esize Ecopy Erc
    | e id w1 r subs w2 t2 rc updated w3 rc' data w4 res w5
        Eid Ee Hens Ev Echk Efresh Esize Ecopy Erc Ewr ];
    unfold input_handles_rel, value_of, trace_of; cbn [fst snd subscriptions_].
  { split; [by left | simpl; by intros ?? ?%elem_of_nil]. }
  all: destruct (ensure_sub_provenance _ _ _ _ _ _ _ Hens) as (Hprov & Hderef & Hquiet).
  all: assert (forall b, b ∈ subs -> OrbSubscription.is_valid b = true ->
                 b ∈ subscriptions_ m \/
                 forall rest,
                   Ev_orb_subscribe (OrbSubscription.id_ b) (OrbSubscription.handle_ b)
                     ∈ Ev_input_id i e id :: t2 ++ rest) as Hprov'
    by (intros b Hb Hv; destruct (Hprov b Hb Hv); [by left|];
        right; intros rest; apply elem_of_cons; right; apply elem_of_app; by left).
  { split.
    - intros b Hb Hv. destruct (Hprov' b Hb Hv) as [? | Hin]; [by left|].
      right. specialize (Hin []). by rewrite app_nil_r in Hin.
    - intros id' h'. rewrite omap_cons_None, Hquiet by done.
      by intros ?%elem_of_nil. }
  all: destruct (ensure_sub_ref _ _ _ _ _ _ _ Hens Ev) as [Hid _].
  all: specialize (Hderef Ev).
  all: destruct (deref_sub r subs) as [id0 h0] eqn:Eb; simpl in Hid; subst id0.
  all: split; [ intros b Hb Hv; destruct (Hprov' b Hb Hv) as [? | Hin]; [by left|];
                right; apply Hin |].
  all: intros id' h'; rewrite omap_cons_None, omap_app, Hquiet by done.
  all: try destruct (ffi_failed res); simpl.
  all: intros Hin;
    repeat (apply elem_of_cons in Hin as [Hin | Hin]; [simplify_eq|]);
    try (by apply elem_of_nil in Hin).
  all: split; [by apply Z.leb_le|].
  all: destruct (Hprov' _ Hderef Ev) as [? | Hin]; [by left | right; apply Hin].
Qed.

Lemma output_handles_rel_refl m : output_handles_rel m m [].
Proof. split; [by left | by intros ??? ?%elem_of_nil]. Qed.

Lemma output_handles_rel_trans m1 m2 m3 t1 t2 :
  output_handles_rel m1 m2 t1 -> output_handles_rel m2 m3 t2 ->
  output_handles_rel m1 m3 (t1 ++ t2).
Proof.
  intros [Hb1 Hu1] [Hb2 Hu2].
  assert (forall b, b ∈ publications_ m2 -> OrbPublication.is_valid b = true ->
            b ∈ publications_ m1 \/
            Ev_orb_advertise (OrbPublication.id_ b) (OrbPublication.handle_ b)
              ∈ t1 ++ t2) as Hb12.
  { intros b Hb Hv. rewrite elem_of_app. destruct (Hb1 b Hb Hv); auto. }
  split.
  - intros b Hb Hv. destruct (Hb2 b Hb Hv) as [Hin | Hin]; [by apply Hb12|].
    right. apply elem_of_app. by right.
  - intros id h rc. rewrite elem_of_app. intros [Hin | Hin].
    + destruct (Hu1 id h rc Hin) as [Hh [? | ?]]; (split; [done|]); [by left|].
      right. apply elem_of_app. by left.
    + destruct (Hu2 id h rc Hin) as [Hh [Hm | ?]]; (split; [done|]).
      * apply (Hb12 _ Hm). unfold OrbPublication.is_valid. simpl.
        by apply negb_true_iff, N.eqb_neq.
      * right. apply elem_of_app. by right.
Qed.

Lemma output_step_handles i m w :
  output_handles_rel m (value_of (output_step i m w)) (trace_of (output_step i m w)).
Proof.
  destruct (output_step_spec i m w) as
    [ e id w1 Eid Ee
    | e id w1 e' b w2 Eid Ee Eupd Ee'
    | e id w1 e' w2 Eid Ee Eupd Ee'
    | e id w1 e' w2 Eid Ee Eupd Ee' Esize
    | e id w1 e' w2 res data n w3 Eid Ee Eupd Ee' Esize Erd Eres
    | e id w1 e' w2 res data n w3 Eid Ee Eupd Ee' Esize Erd Eres En
    | e id w1 e' w2 res data n w3 r pubs w4 t4 Eid Ee Eupd Ee' Esize Erd Eres En Hens Ev
    | e id w1 e' w2 res data n w3 r pubs w4 t4 rc w5
        Eid Ee Eupd Ee' Esize Erd Eres En Hens Ev Epub ];
    unfold output_handles_rel, value_of, trace_of; simpl.
  1-6: split; [by left|]; intros id' h' rc' Hin;
    repeat (apply elem_of_cons in Hin as [Hin | Hin]; [simplify_eq|]);
    by apply elem_of_nil in Hin.
  all: destruct (ensure_pub_provenance _ _ _ _ _ _ _ _ Hens) as (Hprov & Hderef & Hquiet).
  all: assert (forall b, b ∈ pubs -> OrbPublication.is_valid b = true ->
                 b ∈ publications_ m \/
                 forall rest,
                   Ev_orb_advertise (OrbPublication.id_ b) (OrbPublication.handle_ b)
                     ∈ Ev_output_id i e id :: Ev_has_update id e' true
                       :: Ev_read_output id MAX_MESSAGE_SIZE res n :: t4 ++ rest)
    as Hprov'
    by (intros b Hb Hv; destruct (Hprov b Hb Hv); [by left|];
        right; intros rest; do 3 (apply elem_of_cons; right);
        apply elem_of_app; by left).
  - split.
    + intros b Hb Hv. destruct (Hprov' b Hb Hv) as [? | Hin]; [by left|].
      right. specialize (Hin []). by rewrite app_nil_r in Hin.
    + intros id' h' rc' Hin.
      repeat (apply elem_of_cons in Hin as [Hin | Hin]; [simplify_eq|]).
      by apply Hquiet in Hin.
  - destruct (ensure_pub_ref _ _ _ _ _ _ _ _ Hens Ev) as [Hid _].
    specialize (Hderef Ev).
    destruct (deref_pub r pubs) as [id0 h0] eqn:Eb; simpl in Hid; subst id0.
    split.
    + intros b Hb Hv. destruct (Hprov' b Hb Hv) as [? | Hin]; [by left|].
      right. apply Hin.
    + intros id' h' rc' Hin.
      repeat (apply elem_of_cons in Hin as [Hin | Hin]; [simplify_eq|]).
      apply elem_of_app in Hin as [Hin | Hin]; [by apply Hquiet in Hin|].
      apply elem_of_cons in Hin as [Hin | Hin]; [|by apply elem_of_nil in Hin].
      simplify_eq. split.
      * unfold OrbPublication.is_valid in Ev. simpl in Ev.
        by apply negb_true_iff, N.eqb_neq in Ev.
      * destruct (Hprov' _ Hderef Ev) as [? | Hin]; [by left | right; apply Hin].
Qed.

(** X7. A relay only uses handles the bus gave it for the very topic:
    every [orb_check] and [orb_copy] call of the input relay is made with a
    topic and a non-negative handle that the array held together when the
    relay started or that an [orb_subscribe] call of this invocation
    returned for that topic; every [orb_publish] call of the output relay
    with a topic and a non-null handle that the array held together or that
    an [orb_advertise] call of this invocation returned for that topic. *)
Theorem handles_come_from_the_bus (im : InputManager) (om : OutputManager) (w : W) :
  (forall id h,
     (id, h) ∈ omap subscription_used (trace_of (process_input_messages im w)) ->
     (0 <= h)%Z /\
     (OrbSubscription.mk id h ∈ subscriptions_ im \/
      Ev_orb_subscribe id h ∈ trace_of (process_input_messages im w))) /\
  (forall id h rc,
     Ev_orb_publish id h rc ∈ trace_of (process_output_messages om w) ->
     h <> nullptr /\
     (OrbPublication.mk id h ∈ publications_ om \/
      Ev_orb_advertise id h ∈ trace_of (process_output_messages om w))).
Proof.
  split.
  - rewrite process_input_messages_eq.
    destruct (rust_get_input_message_count w) as [[e n] w1].
    destruct (ffi_failed e); [by intros ?? ?%elem_of_nil|].
    destruct (assert_fails _); [by intros ?? ?%elem_of_nil|].
    pose proof (for_each_rel input_step input_handles_rel input_handles_rel_refl
                  input_handles_rel_trans input_step_handles (index_range n) im w1)
      as [_ Hloop].
    destruct (for_each _ _ _ _) as [[m' w2] t]. unfold trace_of in *. simpl in *.
    intros id h Hin. destruct (Hloop id h Hin) as [Hh [? | ?]]; (split; [done|]).
    + by left.
    + right. apply elem_of_cons. by right.
  - rewrite process_output_messages_eq.
    destruct (rust_get_output_message_count w) as [[e n] w1].
    destruct (ffi_failed e).
    { intros id h rc Hin.
      repeat (apply elem_of_cons in Hin as [Hin | Hin]; [simplify_eq|]).
      by apply elem_of_nil in Hin. }
    destruct (assert_fails _).
    { intros id h rc Hin.
      repeat (apply elem_of_cons in Hin as [Hin | Hin]; [simplify_eq|]).
      by apply elem_of_nil in Hin. }
    pose proof (for_each_rel output_step output_handles_rel output_handles_rel_refl
                  output_handles_rel_trans output_step_handles (index_range n) om w1)
      as [_ Hloop].
    destruct (for_each _ _ _ _) as [[m' w2] t]. unfold trace_of in *. simpl in *.
    intros id h rc Hin.
    apply elem_of_cons in Hin as [Hin | Hin]; [simplify_eq|].
    destruct (Hloop id h rc Hin) as [Hh [? | ?]]; (split; [done|]).
    + by left.
    + right. apply elem_of_cons. by right.
Qed.

(** ** The first message of a topic *)

Lemma advertisements_in_place_nil : advertisements_in_place [].
Proof. intros t1 t2 id h Heq. by destruct t1. Qed.

Lemma advertisements_in_place_app t1 t2 :
  advertisements_in_place t1 -> advertisements_in_place t2 ->
  advertisements_in_place (t1 ++ t2).
Proof.
  intros H1 H2 l1 l2 id h Heq.
  apply List.app_eq_app in Heq as [l [[-> Hl] | [-> Hl]]].
  - destruct l as [|e l]; simpl in Hl.
    + subst t2.
      destruct (H2 [] l2 id h eq_refl) as ((t0 & res & Ht0 & _) & _).
      by destruct t0 as [|? [|? ?]].
    + simplify_eq.
      destruct (H1 l1 l id h eq_refl) as (Hbefore & Hok & Hnull).
      split_and!; [done | |].
      * intros Hh. destruct (Hok Hh) as (rc & t3 & ->). by exists rc, (t3 ++ t2).
      * intros Hh. destruct (Hnull Hh) as (t3 & ->). by exists (t3 ++ t2).
  - destruct (H2 l l2 id h Hl) as ((t0 & res & -> & Hres) & Hok & Hnull).
    split_and!; [|done..].
    exists (t1 ++ t0), res. by rewrite <- app_assoc.
Qed.

(** The handle of a binding that [ensure_publication] has just made is the
    one [orb_advertise] returned. *)
Lemma ensure_pub_new_handle id data pubs w r pubs' w' t :
  ensure_pub_result id data pubs w (r, pubs', w', t) ->
  OrbPublication.is_valid (deref_pub r pubs') = true ->
  t = [] \/
  exists h, h <> nullptr /\ OrbPublication.handle_ (deref_pub r pubs') = h /\
            t = [Ev_log (INFO_advertising id); Ev_orb_advertise id h].
Proof.
  inversion 1; subst; simpl.
  - by left.
  - rewrite list_lookup_insert_eq by (by eapply lookup_lt_Some). simpl.
    intros _. right. by eexists.
  - rewrite list_lookup_insert_eq by (by eapply lookup_lt_Some). done.
  - done.
Qed.

Ltac no_advertisement :=
  let Heq := fresh in
  intros [|? [|? [|? [|? [|? [|? [|? [|? ?]]]]]]]] ? ? ? Heq; simplify_eq/=.

Lemma output_step_advertisements i m w :
  advertisements_in_place (trace_of (output_step i m w)).
Proof.
  destruct (output_step_spec i m w) as
    [ e id w1 Eid Ee
    | e id w1 e' b w2 Eid Ee Eupd Ee'
    | e id w1 e' w2 Eid Ee Eupd Ee'
    | e id w1 e' w2 Eid Ee Eupd Ee' Esize
    | e id w1 e' w2 res data n w3 Eid Ee Eupd Ee' Esize Erd Eres
    | e id w1 e' w2 res data n w3 Eid Ee Eupd Ee' Esize Erd Eres En
    | e id w1 e' w2 res data n w3 r pubs w4 t4 Eid Ee Eupd Ee' Esize Erd Eres En Hens Ev
    | e id w1 e' w2 res data n w3 r pubs w4 t4 rc w5
        Eid Ee Eupd Ee' Esize Erd Eres En Hens Ev Epub ];
    unfold trace_of; simpl.
  1-6: no_advertisement.
  - apply N.eqb_eq in En. subst n.
    destruct (ensure_pub_invalid_trace _ _ _ _ _ _ _ _ Hens Ev) as [-> | ->];
      simpl; no_advertisement.
    split_and!; [|done|by eexists].
    eexists [_; _], _. by split.
  - apply N.eqb_eq in En. subst n.
    destruct (ensure_pub_new_handle _ _ _ _ _ _ _ _ Hens Ev)
      as [-> | (h & Hh & Hpub & ->)]; simpl; no_advertisement.
    split_and!; [|by eexists _, _|done].
    eexists [_; _], _. by split.
Qed.

(** X8. The output relay advertises a topic only right after a read of
    it that succeeded with the declared size, having logged the
    advertisement; and when [orb_advertise] returns a handle, the very next
    call is [orb_publish] on that handle for that topic, so that the first
    message of a topic is handed to the bus twice: as the initial data of
    the advertisement and as a publication.  When [orb_advertise] returns
    [nullptr] the next entry is the error line. *)
Theorem advertisement_is_published_at_once (om : OutputManager) (w : W)
    (t1 t2 : list event) (id : orb_id_t) (h : orb_advert_t) :
  trace_of (process_output_messages om w) = t1 ++ Ev_orb_advertise id h :: t2 ->
  (exists t0 res,
     t1 = t0 ++ [Ev_read_output id MAX_MESSAGE_SIZE res (o_size id);
                 Ev_log (INFO_advertising id)] /\
     ffi_failed res = false) /\
  (h <> nullptr -> exists rc t3, t2 = Ev_orb_publish id h rc :: t3) /\
  (h = nullptr -> exists t3, t2 = Ev_log ERR_advertise :: t3).
Proof.
  revert t1 t2 id h. change (advertisements_in_place
                               (trace_of (process_output_messages om w))).
  rewrite process_output_messages_eq.
  destruct (rust_get_output_message_count w) as [[e n] w1].
  destruct (ffi_failed e); [unfold trace_of; simpl; no_advertisement|].
  destruct (assert_fails _); [unfold trace_of; simpl; no_advertisement|].
  pose proof (for_each_rel output_step (fun _ _ tr => advertisements_in_place tr)
                (fun _ => advertisements_in_place_nil)
                (fun _ _ _ _ _ => advertisements_in_place_app _ _)
                output_step_advertisements (index_range n) om w1) as Hloop.
  destruct (for_each _ _ _ _) as [[m' w2] t]. unfold trace_of in *. simpl in *.
  apply (advertisements_in_place_app [Ev_output_count e n] t); [|done].
  no_advertisement.
Qed.

(** ** The static buffers *)

Lemma store_length (data buffer : bytes) :
  length data <= length buffer -> length (store data buffer) = length buffer.
Proof. intros Hle. unfold store. rewrite length_app, length_drop. lia. Qed.

Lemma oversize_false_size id :
  oversize id = false -> N.to_nat (o_size id) <= N.to_nat MAX_MESSAGE_SIZE.
Proof. unfold oversize. intros ?%N.ltb_ge. lia. Qed.

(** X9. The relays never write past the end of their static buffers.
    On a bus whose [orb_copy] writes no more than the size of the topic and
    with an engine whose [rust_read_output_message] writes no more than the
    capacity it is given, a relay that starts with a buffer of
    [MAX_MESSAGE_SIZE] bytes ends with a buffer of [MAX_MESSAGE_SIZE]
    bytes. *)
Theorem buffers_keep_their_size (im im' : InputManager) (om om' : OutputManager)
    (w : W) :
  (forall id h w0,
     length (snd (fst (orb_copy id h w0))) <= N.to_nat (o_size id)) ->
  (forall id w0,
     length (snd (fst (fst (rust_read_output_message id MAX_MESSAGE_SIZE w0))))
     <= N.to_nat MAX_MESSAGE_SIZE) ->
  length (input_buffer im) = N.to_nat MAX_MESSAGE_SIZE ->
  length (output_buffer om) = N.to_nat MAX_MESSAGE_SIZE ->
  value_of (process_input_messages im w) = Returned im' ->
  value_of (process_output_messages om w) = Returned om' ->
  length (input_buffer im') = N.to_nat MAX_MESSAGE_SIZE /\
  length (output_buffer om') = N.to_nat MAX_MESSAGE_SIZE.
Proof.
  intros Hcopy Hread Him Hom Hri Hro. split.
  - revert Hri. rewrite process_input_messages_eq.
    destruct (rust_get_input_message_count w) as [[e n] w1].
    destruct (ffi_failed e); [by intros [= <-]|].
    destruct (assert_fails _); [done|].
    pose proof (for_each_rel input_step
      (fun m m' _ => length (input_buffer m) = N.to_nat MAX_MESSAGE_SIZE ->
                     length (input_buffer m') = N.to_nat MAX_MESSAGE_SIZE)) as Hloop.
    specialize (Hloop (fun _ Hm => Hm) (fun _ _ _ _ _ H1 H2 Hm => H2 (H1 Hm))).
    destruct (for_each input_step (index_range n) im w1) as [[m' w2] t] eqn:Efor.
    unfold value_of. simpl. intros [= <-].
    specialize (Hloop) with (indices := index_range n) (s := im) (w := w1).
    rewrite Efor in Hloop. apply Hloop; [|done].
    intros i m w0 Hm.
    destruct (input_step_spec i m w0) as
      [ | | | 
      | ????????????? _ _ _ _ _ _ Esize Ecopy
      | ??????????????? _ _ _ _ _ _ Esize Ecopy ];
      unfold value_of; simpl; try done.
    all: rewrite <- Hm; apply store_length; rewrite Hm.
    all: match goal with
         | E : orb_copy ?a ?b ?c = _ |- _ =>
             specialize (Hcopy a b c); rewrite E in Hcopy
         end; simpl in Hcopy.
    all: pose proof (oversize_false_size _ Esize); lia.
  - revert Hro. rewrite process_output_messages_eq.
    destruct (rust_get_output_message_count w) as [[e n] w1].
    destruct (ffi_failed e); [by intros [= <-]|].
    destruct (assert_fails _); [done|].
    pose proof (for_each_rel output_step
      (fun m m' _ => length (output_buffer m) = N.to_nat MAX_MESSAGE_SIZE ->
                     length (output_buffer m') = N.to_nat MAX_MESSAGE_SIZE)) as Hloop.
    specialize (Hloop (fun _ Hm => Hm) (fun _ _ _ _ _ H1 H2 Hm => H2 (H1 Hm))).
    destruct (for_each output_step (index_range n) om w1) as [[m' w2] t] eqn:Efor.
    unfold value_of. simpl. intros [= <-].
    specialize (Hloop) with (indices := index_range n) (s := om) (w := w1).
    rewrite Efor in Hloop. apply Hloop; [|done].
    intros i m w0 Hm.
    destruct (output_step_spec i m w0) as
      [ | | | 
      | ????????? _ _ _ _ _ Erd
      | ????????? _ _ _ _ _ Erd
      | ??????????? ? ? _ _ _ _ _ Erd
      | ??????????? ? ? ? ? _ _ _ _ _ Erd ];
      unfold value_of; simpl; try done.
    all: rewrite <- Hm; apply store_length; rewrite Hm.
    all: match goal with
         | E : rust_read_output_message ?a _ ?c = _ |- _ =>
             specialize (Hread a c); rewrite E in Hread
         end; simpl in Hread; lia.
Qed.

End Relay.

(** ** Failures and their lines *)
Section Failures.
Context {W : Type} `{Platform W}.

Lemma failures_in_place_nil : failures_in_place [].
Proof. split; [done|]. intros t1 e t2 Heq. by destruct t1. Qed.

Lemma failures_in_place_app t1 t2 :
  failures_in_place t1 -> failures_in_place t2 -> failures_in_place (t1 ++ t2).
Proof.
  intros [Hh1 H1] [Hh2 H2]. split.
  { intros l t. destruct t1 as [|e t1]; simpl; [apply Hh2|].
    intros [= -> _]. by eapply Hh1. }
  intros k1 e k2 Heq.
  apply List.app_eq_app in Heq as [l [[-> Hl] | [-> Hl]]].
  - destruct l as [|e' l]; simpl in Hl.
    + subst t2. rewrite app_nil_r in H1. by apply (H2 [] e k2).
    + simplify_eq. destruct (H1 k1 e' l eq_refl) as [Hrep Hsil]. split.
      * intros l' Hl'. destruct (Hrep l' Hl') as [t3 ->]. by eexists.
      * intros Hneg l' t3. destruct l as [|e'' l]; simpl; [apply Hh2|].
        intros [= -> _]. by eapply Hsil.
  - by apply (H2 l e k2).
Qed.

Ltac known_results :=
  repeat match goal with
    | H : (0 <= ?h)%Z |- _ => apply Z.ltb_ge in H
    | H : (?h < 0)%Z |- _ => apply Z.ltb_lt in H
    | H : (0 <=? ?rc)%Z && _ = true |- _ =>
        apply andb_true_iff in H as [H _]
    | H : (0 <=? ?rc)%Z = true |- _ => apply Z.leb_le, Z.ltb_ge in H
    | H : (0 <=? ?rc)%Z = false |- _ => apply Z.leb_gt, Z.ltb_lt in H
    | H : ?h <> nullptr |- _ => apply N.eqb_neq in H
    end.

Ltac use_results :=
  simpl;
  repeat match goal with
    | E : ffi_failed ?r = _ |- context [ffi_failed ?r] => rewrite E
    | E : (?h <? 0)%Z = _ |- context [(?h <? 0)%Z] => rewrite E
    | E : (?h =? nullptr)%N = _ |- context [(?h =? nullptr)%N] => rewrite E
    end.

Ltac in_place :=
  split; [done|];
  let k := fresh "k" in
  intros k; intros; repeat (destruct k as [|? k]; simplify_eq/=);
  (split;
   [ let l := fresh "l" in intros l; use_results; try done; intros [= <-]; by eexists
   | use_results; try done ]).

Lemma input_step_failures i m w :
  failures_in_place (trace_of (input_step i m w)).
Proof.
  destruct (input_step_spec i m w) as
    [ e id w1 Eid Ee
    | e id w1 r subs w2 t2 Eid Ee Hens Ev
    | e id w1 r subs w2 t2 rc updated w3 Eid Ee Hens Ev Echk Efresh
    | e id w1 r subs w2 t2 rc updated w3 Eid Ee Hens Ev Echk Efresh Esize
    | e id w1 r subs w2 t2 rc updated w3 rc' data w4
        Eid Ee Hens Ev Echk Efresh Esize Ecopy Erc
    | e id w1 r subs w2 t2 rc updated w3 rc' data w4 res w5
        Eid Ee Hens Ev Echk Efresh Esize Ecopy Erc Ewr ];
    unfold trace_of; cbn [snd].
  { in_place. }
  all: inversion Hens; subst; clear Hens.
  all: try destruct (ffi_failed res) eqn:Eres.
  all: known_results.
  all: in_place.
Qed.

Lemma output_step_failures i m w :
  failures_in_place (trace_of (output_step i m w)).
Proof.
  destruct (output_step_spec i m w) as
    [ e id w1 Eid Ee
    | e id w1 e' b w2 Eid Ee Eupd Ee'
    | e id w1 e' w2 Eid Ee Eupd Ee'
    | e id w1 e' w2 Eid Ee Eupd Ee' Esize
    | e id w1 e' w2 res data n w3 Eid Ee Eupd Ee' Esize Erd Eres
    | e id w1 e' w2 res data n w3 Eid Ee Eupd Ee' Esize Erd Eres En
    | e id w1 e' w2 res data n w3 r pubs w4 t4 Eid Ee Eupd Ee' Esize Erd Eres En Hens Ev
    | e id w1 e' w2 res data n w3 r pubs w4 t4 rc w5
        Eid Ee Eupd Ee' Esize Erd Eres En Hens Ev Epub ];
    unfold trace_of; cbn [snd].
  1-6: in_place.
  all: inversion Hens; subst; clear Hens.
  all: known_results.
  all: in_place.
Qed.

(** X10. Which failures are reported.  In the trace of a relay, every
    call to the engine that returns an error, every [orb_subscribe] that
    returns a negative handle and every [orb_advertise] that returns
    [nullptr] is followed at once by the error line for that call, with the
    error code the engine returned; and no line follows an [orb_check], an
    [orb_copy] or an [orb_publish] that returns a negative value: the
    failure of these calls is dropped without a word. *)
Theorem failures_are_reported_or_dropped (im : InputManager) (om : OutputManager)
    (w : W) :
  failures_in_place (trace_of (process_input_messages im w)) /\
  failures_in_place (trace_of (process_output_messages om w)).
Proof.
  split.
  - rewrite process_input_messages_eq.
    destruct (rust_get_input_message_count w) as [[e n] w1].
    destruct (ffi_failed e) eqn:Ee; [unfold trace_of; cbn [snd]; in_place|].
    destruct (assert_fails _); [unfold trace_of; cbn [snd]; in_place|].
    pose proof (for_each_rel input_step (fun _ _ tr => failures_in_place tr)
                  (fun _ => failures_in_place_nil)
                  (fun _ _ _ _ _ => failures_in_place_app _ _)
                  input_step_failures (index_range n) im w1) as Hloop.
    destruct (for_each _ _ _ _) as [[m' w2] t]. unfold trace_of in *. simpl in *.
    apply (failures_in_place_app [Ev_input_count e n] t); [|done].
    in_place.
  - rewrite process_output_messages_eq.
    destruct (rust_get_output_message_count w) as [[e n] w1].
    destruct (ffi_failed e) eqn:Ee; [unfold trace_of; cbn [snd]; in_place|].
    destruct (assert_fails _); [unfold trace_of; cbn [snd]; in_place|].
    pose proof (for_each_rel output_step (fun _ _ tr => failures_in_place tr)
                  (fun _ => failures_in_place_nil)
                  (fun _ _ _ _ _ => failures_in_place_app _ _)
                  output_step_failures (index_range n) om w1) as Hloop.
    destruct (for_each _ _ _ _) as [[m' w2] t]. unfold trace_of in *. simpl in *.
    apply (failures_in_place_app [Ev_output_count e n] t); [|done].
    in_place.
Qed.

End Failures.

(** * The bytes that are relayed *)

Lemma for_each_world {W S : Type} (body : N -> S -> io W S) (Q : W -> W -> Prop) :
  (forall w, Q w w) ->
  (forall w1 w2 w3, Q w1 w2 -> Q w2 w3 -> Q w1 w3) ->
  (forall i s w, Q w (snd (fst (body i s w)))) ->
  forall indices s w, Q w (snd (fst (for_each body indices s w))).
Proof.
  intros Hrefl Htrans Hstep indices.
  induction indices as [|i rest IH]; intros s w; simpl; [apply Hrefl|].
  unfold bind. specialize (Hstep i s w).
  destruct (body i s w) as [[s1 w1] t1]. specialize (IH s1 w1).
  destruct (for_each body rest s1 w1) as [[s2 w2] t2]. simpl in *.
  eauto.
Qed.

Lemma on_fst_kept {W R A : Type} (f : W -> A * W) (w : W * R) a w' :
  on_fst f w = (a, w') -> snd w' = snd w.
Proof. unfold on_fst. destruct (f (fst w)). by intros [= _ <-]. Qed.

Lemma keeping_kept {W A : Type} (f : W -> A * W) entry (w : W * list transfer) a w' :
  keeping f entry w = (a, w') -> snd w' = snd w ++ [entry a].
Proof. unfold keeping. destruct (f (fst w)). by intros [= <- <-]. Qed.

Section Bytes.
Context {W : Type} (P : Platform W).

Lemma take_store (data buffer : bytes) : take (length data) (store data buffer) = data.
Proof. unfold store. by rewrite take_app_length. Qed.

Lemma writes_follow_copies_app l1 l2 :
  writes_follow_copies l1 -> writes_follow_copies l2 ->
  writes_follow_copies (l1 ++ l2).
Proof.
  intros H1 H2 k1 k2 id buffer len Heq.
  apply List.app_eq_app in Heq as [l [[-> Hl] | [-> Hl]]].
  - destruct l as [|e l]; simpl in Hl.
    + subst l2.
      destruct (H2 [] k2 id buffer len eq_refl) as (_ & l0 & data & Hl0 & _).
      by destruct l0.
    + simplify_eq. by apply (H1 k1 l).
  - destruct (H2 l k2 id buffer len Hl) as (Hlen & l0 & data & -> & Hdata).
    split; [done|]. exists (l1 ++ l0), data. by rewrite <- app_assoc.
Qed.

Lemma publications_follow_reads_app l1 l2 :
  publications_follow_reads l1 -> publications_follow_reads l2 ->
  publications_follow_reads (l1 ++ l2).
Proof.
  intros [Ha1 Hp1] [Ha2 Hp2]. split.
  - intros k1 k2 id buffer Heq.
    apply List.app_eq_app in Heq as [l [[-> Hl] | [-> Hl]]].
    + destruct l as [|e l]; simpl in Hl.
      * subst l2. destruct (Ha2 [] k2 id buffer eq_refl) as (l0 & data & Hl0 & _).
        by destruct l0.
      * simplify_eq. by apply (Ha1 k1 l).
    + destruct (Ha2 l k2 id buffer Hl) as (l0 & data & -> & Hdata).
      exists (l1 ++ l0), data. by rewrite <- app_assoc.
  - intros k1 k2 id buffer Heq.
    apply List.app_eq_app in Heq as [l [[-> Hl] | [-> Hl]]].
    + destruct l as [|e l]; simpl in Hl.
      * subst l2.
        destruct (Hp2 [] k2 id buffer eq_refl) as (l0 & data & [Hl0 | Hl0] & _);
          by destruct l0.
      * simplify_eq. by apply (Hp1 k1 l).
    + destruct (Hp2 l k2 id buffer Hl) as (l0 & data & [-> | ->] & Hdata);
        exists (l1 ++ l0), data; (split; [|done]); rewrite <- !app_assoc;
        [by left | by right].
Qed.

Lemma ensure_sub_kept id subs w r subs' w' t :
  @ensure_sub_result _ (recording P) id subs w (r, subs', w', t) -> snd w' = snd w.
Proof.
  inversion 1; subst; try done;
    match goal with
    | E : orb_subscribe ?id ?w = _ |- _ =>
        exact (on_fst_kept (@orb_subscribe W P id) w _ _ E)
    end.
Qed.

Lemma ensure_pub_kept id data pubs w r pubs' w' t :
  @ensure_pub_result _ (recording P) id data pubs w (r, pubs', w', t) ->
  OrbPublication.is_valid (deref_pub r pubs') = true /\
    (snd w' = snd w \/ snd w' = snd w ++ [Advertised id data]) \/
  OrbPublication.is_valid (deref_pub r pubs') = false /\
    (snd w' = snd w \/ snd w' = snd w ++ [Advertised id data]).
Proof.
  intros Hres.
  destruct (OrbPublication.is_valid (deref_pub r pubs')); [left | right];
    (split; [done|]); inversion Hres; subst; auto; right;
    match goal with
    | E : orb_advertise ?id ?data ?w = _ |- _ =>
        exact (keeping_kept (@orb_advertise W P id data)
                 (fun _ => Advertised id data) w _ _ E)
    end.
Qed.

Ltac no_such_transfer :=
  let k := fresh "k" in
  intros k; intros; repeat (destruct k as [|? k]; simplify_eq/=).

Lemma input_step_kept i m w :
  exists l,
    snd (snd (fst (@input_step _ (recording P) i m w))) = snd w ++ l /\
    writes_follow_copies l.
Proof.
  destruct (@input_step_spec _ (recording P) i m w) as
    [ e id w1 Eid Ee
    | e id w1 r subs w2 t2 Eid Ee Hens Ev
    | e id w1 r subs w2 t2 rc updated w3 Eid Ee Hens Ev Echk Efresh
    | e id w1 r subs w2 t2 rc updated w3 Eid Ee Hens Ev Echk Efresh Esize
    | e id w1 r subs w2 t2 rc updated w3 rc' data w4
        Eid Ee Hens Ev Echk Efresh Esize Ecopy Erc
    | e id w1 r subs w2 t2 rc updated w3 rc' data w4 res w5
        Eid Ee Hens Ev Echk Efresh Esize Ecopy Erc Ewr ];
    cbn [fst snd].
  all: apply (on_fst_kept (@rust_get_input_message_id W P i)) in Eid.
  all: try apply ensure_sub_kept in Hens.
  all: try apply (on_fst_kept (@orb_check W P _)) in Echk.
  all: try apply (keeping_kept (@orb_copy W P _ _) (fun r => Copied id (snd r)))
         in Ecopy.
  all: try apply (keeping_kept (@rust_write_input_message W P _ _ _)
                    (fun _ => Written id _ _)) in Ewr.
  - exists []. rewrite app_nil_r. split; [congruence | no_such_transfer].
  - exists []. rewrite app_nil_r. split; [congruence | no_such_transfer].
  - exists []. rewrite app_nil_r. split; [congruence | no_such_transfer].
  - exists []. rewrite app_nil_r. split; [congruence | no_such_transfer].
  - exists [Copied id data]. split; [|no_such_transfer].
    rewrite Ecopy, Echk, Hens, Eid. done.
  - exists [Copied id data; Written id (store data (input_buffer m)) (o_size id)].
    split.
    + rewrite Ewr, Ecopy, Echk, Hens, Eid. by rewrite <- app_assoc.
    + no_such_transfer. split; [done|].
      exists [], data. split; [done | apply take_store].
Qed.

Lemma output_step_kept i m w :
  exists l,
    snd (snd (fst (@output_step _ (recording P) i m w))) = snd w ++ l /\
    publications_follow_reads l.
Proof.
  destruct (@output_step_spec _ (recording P) i m w) as
    [ e id w1 Eid Ee
    | e id w1 e' b w2 Eid Ee Eupd Ee'
    | e id w1 e' w2 Eid Ee Eupd Ee'
    | e id w1 e' w2 Eid Ee Eupd Ee' Esize
    | e id w1 e' w2 res data n w3 Eid Ee Eupd Ee' Esize Erd Eres
    | e id w1 e' w2 res data n w3 Eid Ee Eupd Ee' Esize Erd Eres En
    | e id w1 e' w2 res data n w3 r pubs w4 t4 Eid Ee Eupd Ee' Esize Erd Eres En Hens Ev
    | e id w1 e' w2 res data n w3 r pubs w4 t4 rc w5
        Eid Ee Eupd Ee' Esize Erd Eres En Hens Ev Epub ];
    cbn [fst snd].
  all: apply (on_fst_kept (@rust_get_output_message_id W P i)) in Eid.
  all: try apply (on_fst_kept (@rust_output_message_has_update W P _)) in Eupd.
  all: try apply (keeping_kept (@rust_read_output_message W P _ _)
                    (fun r => Read id (snd (fst r)) (snd r))) in Erd.
  all: try apply (keeping_kept (@orb_publish W P _ _ _)
                    (fun _ => Published id _)) in Epub.
  all: cbn [fst snd] in *.
  1-4: exists []; rewrite app_nil_r; (split; [congruence|]);
       split; no_such_transfer.
  1-2: exists [Read id data n]; (split; [by rewrite Erd, Eupd, Eid|]);
       split; no_such_transfer.
  - apply N.eqb_eq in En. subst n.
    destruct (ensure_pub_kept _ _ _ _ _ _ _ _ Hens) as [[Hv _] | [_ [Hk | Hk]]];
      [congruence | |].
    + exists [Read id data (o_size id)].
      split; [by rewrite Hk, Erd, Eupd, Eid|]. split; no_such_transfer.
    + exists [Read id data (o_size id); Advertised id (store data (output_buffer m))].
      split; [by rewrite Hk, Erd, Eupd, Eid, <- app_assoc|].
      split; no_such_transfer.
      exists [], data. split; [done | apply take_store].
  - apply N.eqb_eq in En. subst n.
    destruct (ensure_pub_kept _ _ _ _ _ _ _ _ Hens) as [[_ [Hk | Hk]] | [Hv _]];
      [| |congruence].
    + exists [Read id data (o_size id); Published id (store data (output_buffer m))].
      split; [by rewrite Epub, Hk, Erd, Eupd, Eid, <- app_assoc|].
      split; no_such_transfer.
      exists [], data. split; [by left | apply take_store].
    + exists [Read id data (o_size id); Advertised id (store data (output_buffer m));
              Published id (store data (output_buffer m))].
      split; [by rewrite Epub, Hk, Erd, Eupd, Eid, <- !app_assoc|].
      split; no_such_transfer.
      * exists [], data. split; [done | apply take_store].
      * exists [], data. split; [by right | apply take_store].
Qed.

(** X11. The relays hand on the bytes they were given.  On any bus and
    engine, wrapped so as to keep what goes through the buffer pointer of
    each call: every buffer given to [rust_write_input_message] starts with
    the bytes the [orb_copy] call just before it wrote for the same topic,
    and is given with the size of the topic as its length; every buffer
    given to [orb_advertise] or [orb_publish] starts with the bytes the
    [rust_read_output_message] call before it wrote for the same topic, in
    a read that returned the size of the topic, with nothing in between but
    the advertisement of that same buffer. *)
Theorem relayed_bytes_are_the_bytes_received (im : InputManager) (om : OutputManager)
    (w : W) :
  writes_follow_copies
    (kept (@process_input_messages _ (recording P) im (w, []))) /\
  publications_follow_reads
    (kept (@process_output_messages _ (recording P) om (w, []))).
Proof.
  unfold kept. split.
  - rewrite (@process_input_messages_eq _ (recording P)).
    destruct (@rust_get_input_message_count _ (recording P) (w, []))
      as [[e n] w1] eqn:Ecount.
    apply (on_fst_kept (@rust_get_input_message_count W P)) in Ecount.
    simpl in Ecount.
    destruct (ffi_failed e); [cbn [fst snd]; rewrite Ecount; no_such_transfer|].
    destruct (assert_fails _); [cbn [fst snd]; rewrite Ecount; no_such_transfer|].
    pose proof (for_each_world (@input_step _ (recording P))
      (fun w w' => exists l, snd w' = snd w ++ l /\ writes_follow_copies l))
      as Hloop.
    destruct (Hloop) with (indices := index_range n) (s := im) (w := w1)
      as (l & Hl & Hok).
    + intros w0. exists []. rewrite app_nil_r. split; [done | no_such_transfer].
    + intros w2 w3 w4 (l1 & H1 & Hok1) (l2 & H2 & Hok2). exists (l1 ++ l2).
      split; [by rewrite H2, H1, app_assoc | by apply writes_follow_copies_app].
    + intros i s w0. apply input_step_kept.
    + destruct (for_each _ _ _ _) as [[m' w2] t]. cbn [fst snd] in *.
      by rewrite Hl, Ecount.
  - rewrite (@process_output_messages_eq _ (recording P)).
    destruct (@rust_get_output_message_count _ (recording P) (w, []))
      as [[e n] w1] eqn:Ecount.
    apply (on_fst_kept (@rust_get_output_message_count W P)) in Ecount.
    simpl in Ecount.
    destruct (ffi_failed e);
      [cbn [fst snd]; rewrite Ecount; split; no_such_transfer|].
    destruct (assert_fails _);
      [cbn [fst snd]; rewrite Ecount; split; no_such_transfer|].
    pose proof (for_each_world (@output_step _ (recording P))
      (fun w w' => exists l, snd w' = snd w ++ l /\ publications_follow_reads l))
      as Hloop.
    destruct (Hloop) with (indices := index_range n) (s := om) (w := w1)
      as (l & Hl & Hok).
    + intros w0. exists []. rewrite app_nil_r. split; [done|]. split; no_such_transfer.
    + intros w2 w3 w4 (l1 & H1 & Hok1) (l2 & H2 & Hok2). exists (l1 ++ l2).
      split; [by rewrite H2, H1, app_assoc | by apply publications_follow_reads_app].
    + intros i s w0. apply output_step_kept.
    + destruct (for_each _ _ _ _) as [[m' w2] t]. cbn [fst snd] in *.
      by rewrite Hl, Ecount.
Qed.

End Bytes.

(** * Properties of the cycle and of the wrappers *)
Section Cycle.
Context {W : Type} `{Platform W}.

Lemma parameters_update_side force w :
  Forall (fun e => is_parameter_call e = true) (trace_of (parameters_update force w)).
Proof.
  unfold parameters_update, bind, call_parameter_updated, call_parameter_copy,
    call_updateParams, ret, trace_of.
  destruct (parameter_update_updated w) as [b w1].
  destruct (b || force); by repeat constructor.
Qed.

(** A cycle that returns, call by call: the clock, the parameters, the
    input relay, the clock and the step of the engine, the output relay,
    the clock and the sleep. *)
Lemma run_cycle_returned managers w ms :
  value_of (run_cycle managers w) = Returned ms ->
  exists t0 t1 t2 tp wi wo,
    value_of (process_input_messages (fst managers) wi) = Returned (fst ms) /\
    value_of (process_output_messages (snd managers) wo) = Returned (snd ms) /\
    Forall (fun e => is_parameter_call e = true) tp /\
    trace_of (run_cycle managers w) =
      Ev_time t0 :: tp ++ trace_of (process_input_messages (fst managers) wi) ++
      [Ev_time t1; Ev_app_update t1] ++
      trace_of (process_output_messages (snd managers) wo) ++
      [Ev_time t2; Ev_usleep (usleep_arg t0 t2)].
Proof.
  unfold run_cycle, bind, call_time, call_app_update, call_usleep, ret,
    value_of, trace_of.
  destruct (hrt_absolute_time w) as [t0 w0].
  pose proof (parameters_update_side false w0) as Hp.
  destruct (parameters_update false w0) as [[[] wp] tp].
  destruct (process_input_messages (fst managers) wp) as [[[im|] wi] ti] eqn:Ei;
    cbn [fst snd]; [|done].
  destruct (hrt_absolute_time wi) as [t1 w2].
  destruct (process_output_messages (snd managers) (app_interface_update t1 w2))
    as [[[om|] wo] to] eqn:Eo; cbn [fst snd]; [|done].
  destruct (hrt_absolute_time wo) as [t2 w3]. cbn [fst snd].
  intros [= <-].
  exists t0, t1, t2, tp, wp, (app_interface_update t1 w2).
  rewrite Ei, Eo. cbn [fst snd]. split_and!; [done..|].
  by rewrite ?app_nil_r, <- ?app_assoc.
Qed.

(** X12. In a cycle that returns, the engine is stepped exactly once,
    between the two relays: every call of the input relay comes before
    [app_interface_update] and every call of the output relay after it, the
    time given to the step is the clock reading taken after the inputs were
    relayed, and the cycle ends with the sleep computed from the first and
    the last clock reading. *)
Theorem engine_steps_between_the_relays (managers : InputManager * OutputManager)
    (w : W) (ms : InputManager * OutputManager) :
  value_of (run_cycle managers w) = Returned ms ->
  exists t0 t1 t2 tp ti to,
    trace_of (run_cycle managers w) =
      Ev_time t0 :: tp ++ ti ++ [Ev_time t1; Ev_app_update t1] ++ to ++
      [Ev_time t2; Ev_usleep (usleep_arg t0 t2)] /\
    Forall (fun e => is_parameter_call e = true) tp /\
    Forall (fun e => is_input_call e = true) ti /\
    Forall (fun e => is_output_call e = true) to.
Proof.
  intros (t0 & t1 & t2 & tp & wi & wo & _ & _ & Hp & ->)%run_cycle_returned.
  exists t0, t1, t2, tp, (trace_of (process_input_messages (fst managers) wi)),
    (trace_of (process_output_messages (snd managers) wo)).
  split_and!; [done | done | apply process_input_side | apply process_output_side].
Qed.

(** X13. A cycle whose work took no longer than the interval sleeps
    exactly for what is left of it, so that the sleep ends one interval
    after the cycle started; a cycle that took the whole interval sleeps
    for zero microseconds. *)
Theorem cycle_within_the_interval_keeps_the_period
    (managers : InputManager * OutputManager) (w : W) (t0 t1 t2 : Z) :
  omap time_of (trace_of (run_cycle managers w)) = [t0; t1; t2] ->
  (0 <= t0 <= t2)%Z -> (t2 < 2 ^ 64)%Z -> (14 <= useconds_bits)%Z ->
  (t2 - t0 <= LOOP_INTERVAL_US)%Z ->
  exists usec,
    omap usleep_of (trace_of (run_cycle managers w)) = [usec] /\
    (0 <= usec <= LOOP_INTERVAL_US)%Z /\
    (t2 + usec = t0 + LOOP_INTERVAL_US)%Z /\
    (t2 - t0 = LOOP_INTERVAL_US -> usec = 0)%Z.
Proof.
  intros Hclock Hstart Hnow Hbits Hel.
  exists (LOOP_INTERVAL_US - (t2 - t0))%Z. split; [|lia].
  destruct (run_cycle_sleep managers w)
    as [(t0' & t1' & t2' & ms' & _ & Ht & Hs) | (_ & Hlen & _)].
  - rewrite Hclock in Ht. simplify_eq. rewrite Hs.
    by rewrite usleep_arg_on_time.
  - rewrite Hclock in Hlen. simpl in Hlen. lia.
Qed.

(** X14. Moving a subscription keeps one owner for each handle.  After
    a move assignment followed by the destruction of both objects, the
    handle the target held and the handle the source held have each been
    passed to [orb_unsubscribe] exactly once if valid and never otherwise,
    the target's at the assignment; after a move construction followed by
    the destruction of both objects, the handle of the source has been
    released exactly once if valid. *)
Theorem moved_handle_is_released_once (this other : OrbSubscription.t) (w : W) :
  let released (s : OrbSubscription.t) :=
    if OrbSubscription.is_valid s then [Ev_orb_unsubscribe (OrbSubscription.handle_ s)]
    else [] in
  trace_of (('(this', other') <- OrbSubscription.move_assign this other ;;
             OrbSubscription.dtor other' ;;
             OrbSubscription.dtor this') w)
  = released this ++ released other /\
  trace_of (OrbSubscription.move_assign this other w) = released this /\
  trace_of ((OrbSubscription.dtor (snd (OrbSubscription_move other)) ;;
             OrbSubscription.dtor (fst (OrbSubscription_move other))) w)
  = released other /\
  OrbSubscription.is_valid (snd (OrbSubscription_move other)) = false /\
  fst (OrbSubscription_move other) = other.
Proof.
  cbv zeta.
  unfold OrbSubscription.move_assign, OrbSubscription.dtor, OrbSubscription_move,
    OrbSubscription.is_valid, bind, call_orb_unsubscribe, ret, trace_of.
  destruct this as [id1 h1], other as [id2 h2]. cbn.
  destruct (0 <=? h1)%Z eqn:E1, (0 <=? h2)%Z eqn:E2; cbn; rewrite ?E2; done.
Qed.

End Cycle.

(** * Properties of the task *)

(** ** Handles taken and handles given back *)
Section Handles.
Context {W : Type} `{Platform W}.

Lemma omap_None {A B : Type} (f : A -> option B) (l : list A) :
  Forall (fun x => f x = None) l -> omap f l = [].
Proof. induction 1 as [|x l Hx _ IH]; [done|]. simpl. by rewrite Hx. Qed.

Lemma omap_side {B : Type} (f : event -> option B) (side : event -> bool) tr :
  (forall e, side e = true -> f e = None) ->
  Forall (fun e => side e = true) tr -> omap f tr = [].
Proof. intros Hf Htr. apply omap_None. eapply Forall_impl; [exact Hf | exact Htr]. Qed.

Lemma valid_handles_insert (subs : list OrbSubscription.t) i old new :
  subs !! i = Some old -> OrbSubscription.is_valid old = false ->
  valid_handles (<[i:=new]> subs) ≡ₚ
  (if OrbSubscription.is_valid new then [OrbSubscription.handle_ new] else []) ++
  valid_handles subs.
Proof.
  intros Hi Hold. unfold valid_handles.
  rewrite insert_take_drop by (by eapply lookup_lt_Some).
  rewrite <- (take_drop_middle subs i old Hi) at 3.
  rewrite !list.filter_app, !filter_cons, !fmap_app.
  rewrite (decide_False (P := Is_true (OrbSubscription.is_valid old)))
    by (rewrite Hold; auto).
  destruct (OrbSubscription.is_valid new) eqn:Hnew.
  - rewrite decide_True by done. simpl. by rewrite <- Permutation_middle.
  - rewrite decide_False by auto. done.
Qed.

Lemma ensure_sub_handles id subs w r subs' w' t :
  ensure_sub_result id subs w (r, subs', w', t) ->
  valid_handles subs' ≡ₚ valid_handles subs ++ omap granted_handle t /\
  omap released_handle t = [].
Proof.
  inversion 1; subst; (split; [|done]).
  - by rewrite app_nil_r.
  - rewrite valid_handles_insert by done. unfold OrbSubscription.is_valid. simpl.
    assert ((0 <=? h)%Z = true) as -> by (by apply Z.leb_le).
    simpl. by rewrite <- Permutation_cons_append.
  - rewrite valid_handles_insert by done. unfold OrbSubscription.is_valid. simpl.
    assert ((0 <=? h)%Z = false) as -> by (apply Z.leb_gt; lia).
    by rewrite app_nil_r.
  - by rewrite app_nil_r.
Qed.

Lemma input_step_handles_kept i m w :
  valid_handles (subscriptions_ (value_of (input_step i m w))) ≡ₚ
    valid_handles (subscriptions_ m) ++
    omap granted_handle (trace_of (input_step i m w)).
Proof.
  destruct (input_step_spec i m w) as
    [ | ??????? _ _ Hens _ | ?????????? _ _ Hens | ?????????? _ _ Hens
    | ????????????? _ _ Hens | ??????????????? _ _ Hens ];
    unfold value_of, trace_of; cbn [fst snd subscriptions_].
  { simpl. by rewrite app_nil_r. }
  all: destruct (ensure_sub_handles _ _ _ _ _ _ _ Hens) as [-> _].
  all: rewrite omap_cons_None, ?omap_app by done.
  all: try destruct (ffi_failed res); simpl; by rewrite ?app_nil_r.
Qed.

(** The valid handles of [subscriptions_] after the input relay: those it
    held before and those the bus granted meanwhile. *)
Lemma process_input_handles m w m' :
  value_of (process_input_messages m w) = Returned m' ->
  valid_handles (subscriptions_ m') ≡ₚ
    valid_handles (subscriptions_ m) ++
    omap granted_handle (trace_of (process_input_messages m w)).
Proof.
  rewrite process_input_messages_eq.
  destruct (rust_get_input_message_count w) as [[e n] w1].
  destruct (ffi_failed e).
  { unfold value_of, trace_of. simpl. intros [= <-]. by rewrite app_nil_r. }
  destruct (assert_fails _); [done|].
  pose proof (for_each_rel input_step
    (fun m m' tr => valid_handles (subscriptions_ m') ≡ₚ
                    valid_handles (subscriptions_ m) ++ omap granted_handle tr))
    as Hloop.
  specialize (Hloop) with (indices := index_range n) (s := m) (w := w1).
  destruct (for_each input_step (index_range n) m w1) as [[m1 w2] t].
  unfold value_of, trace_of in *. simpl in *. intros [= <-].
  apply Hloop.
  - intros s. by rewrite app_nil_r.
  - intros s1 s2 s3 t1 t2 H1 H2. by rewrite H2, H1, omap_app, app_assoc.
  - intros i s w0. apply input_step_handles_kept.
Qed.

(** The handles a cycle that returns took and the calls it made. *)
Lemma run_cycle_accounts managers w ms :
  value_of (run_cycle managers w) = Returned ms ->
  valid_handles (subscriptions_ (fst ms)) ≡ₚ
    valid_handles (subscriptions_ (fst managers)) ++
    omap granted_handle (trace_of (run_cycle managers w)) /\
  omap released_handle (trace_of (run_cycle managers w)) = [] /\
  count is_app_update (trace_of (run_cycle managers w)) = 1 /\
  count is_usleep (trace_of (run_cycle managers w)) = 1.
Proof.
  intros (t0 & t1 & t2 & tp & wi & wo & Hi & Ho & Hp & ->)%run_cycle_returned.
  pose proof (process_input_side (fst managers) wi) as Hsi.
  pose proof (process_output_side (snd managers) wo) as Hso.
  pose proof (process_input_handles _ _ _ Hi) as Hh.
  set (ti := trace_of (process_input_messages (fst managers) wi)) in *.
  set (to := trace_of (process_output_messages (snd managers) wo)) in *.
  assert (forall p, (forall e, is_parameter_call e = true -> p e = false) ->
                    count p tp = 0) as Hcp.
  { intros p Hpe. unfold count. clear -Hp Hpe.
    induction Hp as [|e l He _ IH]; [done|]. simpl. by rewrite (Hpe e He). }
  assert (forall p, (forall e, is_input_call e = true -> p e = false) ->
                    count p ti = 0) as Hci.
  { intros p Hpe. unfold count. clear -Hsi Hpe.
    induction Hsi as [|e l He _ IH]; [done|]. simpl. by rewrite (Hpe e He). }
  assert (forall p, (forall e, is_output_call e = true -> p e = false) ->
                    count p to = 0) as Hco.
  { intros p Hpe. unfold count. clear -Hso Hpe.
    induction Hso as [|e l He _ IH]; [done|]. simpl. by rewrite (Hpe e He). }
  split_and!.
  - rewrite Hh, omap_cons_None, !omap_app by done.
    rewrite (omap_side granted_handle is_parameter_call tp) by (done || by intros []).
    rewrite (omap_side granted_handle is_output_call to)
      by (done || by intros [| | | | | | | | | | | | | | | | | | |[]]).
    simpl. by rewrite app_nil_r.
  - rewrite omap_cons_None, !omap_app by done.
    rewrite (omap_side released_handle is_parameter_call tp) by (done || by intros []).
    rewrite (omap_side released_handle is_input_call ti)
      by (done || by intros [| | | | | | | | | | | | | | | | | | |[]]).
    rewrite (omap_side released_handle is_output_call to)
      by (done || by intros [| | | | | | | | | | | | | | | | | | |[]]).
    done.
  - rewrite count_cons, !count_app, Hcp, Hci, Hco; try done.
    + by intros [| | | | | | | | | | | | | | | | | | |[]].
    + by intros [| | | | | | | | | | | | | | | | | | |[]].
    + by intros [].
  - rewrite count_cons, !count_app, Hcp, Hci, Hco; try done.
    + by intros [| | | | | | | | | | | | | | | | | | |[]].
    + by intros [| | | | | | | | | | | | | | | | | | |[]].
    + by intros [].
Qed.

End Handles.

Section TaskFacts.
Context {W : Type} `{Runtime W}.

Lemma module_call_lift (t : list event) : omap module_call (Rv_call <$> t) = t.
Proof.
  induction t as [|e t IH]; [done|].
  rewrite fmap_cons, (omap_cons_Some _ _ e) by done. by rewrite IH.
Qed.

Lemma omap_lift {B : Type} (f : run_event -> option B) (t : list event) :
  (forall e, f (Rv_call e) = None) -> omap f (Rv_call <$> t) = [].
Proof.
  intros Hf. induction t as [|e t IH]; [done|].
  by rewrite fmap_cons, omap_cons_None.
Qed.

Lemma run_loop_S fuel ms w :
  run_loop (S fuel) ms w =
  let '(exit, w1) := should_exit w in
  if exit then (Some (Returned ms), w1, [Rv_should_exit true])
  else
    let '(r, w2, t) := run_cycle ms w1 in
    match r with
    | Aborted => (Some Aborted, w2, Rv_should_exit false :: (Rv_call <$> t))
    | Returned ms' =>
        let '(r', w3, t') := run_loop fuel ms' w2 in
        (r', w3, Rv_should_exit false :: (Rv_call <$> t) ++ t')
    end.
Proof.
  simpl. unfold task_bind, call_should_exit, lift, task_ret.
  destruct (should_exit w) as [[] w1]; [done|].
  destruct (run_cycle ms w1) as [[[ms'|] w2] t]; simpl.
  - by destruct (run_loop fuel ms' w2) as [[r' w3] t'].
  - by rewrite app_nil_r.
Qed.

(** The loop of [run], when it is left by the exit request. *)
Lemma run_loop_returned fuel :
  forall ms w ms',
    result_of (run_loop fuel ms w) = Some (Returned ms') ->
    valid_handles (subscriptions_ (fst ms')) ≡ₚ
      valid_handles (subscriptions_ (fst ms)) ++
      omap granted_handle (omap module_call (calls_of (run_loop fuel ms w))) /\
    omap released_handle (omap module_call (calls_of (run_loop fuel ms w))) = [] /\
    omap app_created (calls_of (run_loop fuel ms w)) = [] /\
    omap app_freed (calls_of (run_loop fuel ms w)) = [] /\
    exists n,
      omap exit_answer (calls_of (run_loop fuel ms w)) = replicate n false ++ [true] /\
      count is_app_update (omap module_call (calls_of (run_loop fuel ms w))) = n /\
      count is_usleep (omap module_call (calls_of (run_loop fuel ms w))) = n.
Proof.
  induction fuel as [|fuel IH]; intros ms w ms'; [done|].
  rewrite run_loop_S.
  destruct (should_exit w) as [[] w1].
  { unfold result_of, calls_of. simpl. intros [= <-].
    split_and!; [by rewrite app_nil_r | done..|]. by exists 0. }
  pose proof (run_cycle_accounts ms w1) as Hcycle.
  destruct (run_cycle ms w1) as [[[ms1|] w2] t]; [|done].
  unfold value_of, trace_of in Hcycle. simpl in Hcycle.
  destruct (Hcycle ms1 eq_refl) as (Hh & Hr & Ha & Hs).
  specialize (IH ms1 w2 ms').
  destruct (run_loop fuel ms1 w2) as [[r' w3] t'].
  unfold result_of, calls_of in *. cbn [fst snd] in *. intros Hres.
  destruct (IH Hres) as (Hh' & Hr' & Hc' & Hf' & n & Hx' & Ha' & Hs').
  read_trace. rewrite module_call_lift, !(omap_lift _ t) by done.
  read_trace.
  split_and!; [| |done|done|].
  - by rewrite Hh', Hh, app_assoc.
  - by rewrite Hr, Hr'.
  - exists (S n). rewrite !count_app, Ha, Hs, Ha', Hs', Hx'. done.
Qed.

(** More fuel does not change a run of the loop that came to its end. *)
Lemma run_loop_fuel fuel :
  forall ms w r,
    result_of (run_loop fuel ms w) = Some r ->
    run_loop (S fuel) ms w = run_loop fuel ms w.
Proof.
  induction fuel as [|fuel IH]; intros ms w r; [done|].
  rewrite (run_loop_S (S fuel)), (run_loop_S fuel).
  destruct (should_exit w) as [[] w1]; [done|].
  destruct (run_cycle ms w1) as [[[ms1|] w2] t]; [|done].
  specialize (IH ms1 w2).
  destruct (run_loop fuel ms1 w2) as [[r' w3] t'] eqn:E.
  unfold result_of in *. simpl in *. intros ->.
  by rewrite (IH r eq_refl).
Qed.

Lemma destroy_subscriptions_releases subs w :
  omap released_handle (trace_of (destroy_subscriptions subs w))
    = reverse (valid_handles subs) /\
  omap granted_handle (trace_of (destroy_subscriptions subs w)) = [].
Proof.
  revert w. induction subs as [|s subs IH]; intros w; [done|].
  simpl. unfold bind. specialize (IH w).
  destruct (destroy_subscriptions subs w) as [[[] w1] t1].
  unfold trace_of in *. simpl in *. destruct IH as [IH1 IH2].
  unfold OrbSubscription.dtor, call_orb_unsubscribe, ret, valid_handles.
  rewrite filter_cons.
  change (0 <=? OrbSubscription.handle_ s)%Z with (OrbSubscription.is_valid s).
  destruct (OrbSubscription.is_valid s) eqn:Hs.
  - rewrite decide_True by done. cbn [snd].
    by rewrite !omap_app, IH1, IH2, fmap_cons, reverse_cons.
  - rewrite decide_False by auto. cbn [snd].
    by rewrite !omap_app, IH1, IH2, !app_nil_r.
Qed.

Lemma destroy_subscriptions_side subs w :
  Forall (fun e => is_Some (released_handle e))
    (trace_of (destroy_subscriptions subs w)).
Proof.
  revert w. induction subs as [|s subs IH]; intros w; [by constructor|].
  simpl. unfold bind. specialize (IH w).
  destruct (destroy_subscriptions subs w) as [[[] w1] t1].
  unfold trace_of in *. simpl in *.
  unfold OrbSubscription.dtor, call_orb_unsubscribe, ret.
  destruct (0 <=? OrbSubscription.handle_ s)%Z; simpl.
  - apply Forall_app_2; [done|]. by repeat constructor.
  - by rewrite app_nil_r.
Qed.

(** [run], call by call. *)
Lemma run_eq fuel w :
  run fuel w =
  let '(_, w1, tp) := parameters_update true w in
  let '(app, w2) := app_interface_new w1 in
  if (app =? nullptr)%N then
    (Some (Returned tt), w2,
     Rv_log INFO_started :: (Rv_call <$> tp) ++
     [Rv_app_interface_new app; Rv_log ERR_create_app])
  else
    let '(r, w3, tl) := run_loop fuel (InputManager_new, OutputManager_new) w2 in
    match r with
    | None =>
        (None, w3, Rv_log INFO_started :: (Rv_call <$> tp) ++
                   Rv_app_interface_new app :: tl)
    | Some Aborted =>
        (Some Aborted, w3, Rv_log INFO_started :: (Rv_call <$> tp) ++
                           Rv_app_interface_new app :: tl)
    | Some (Returned ms) =>
        let '(_, w4, td) := InputManager_dtor (fst ms) (app_interface_free app w3) in
        (Some (Returned tt), w4,
         Rv_log INFO_started :: (Rv_call <$> tp) ++
         Rv_app_interface_new app :: tl ++
         [Rv_app_interface_free app; Rv_log INFO_stopped] ++ (Rv_call <$> td))
    end.
Proof.
  unfold run, task_bind, task_log, lift, call_app_interface_new,
    call_app_interface_free, task_ret.
  destruct (parameters_update true w) as [[[] w1] tp].
  destruct (app_interface_new w1) as [app w2].
  destruct (app =? nullptr)%N; [done|].
  destruct (run_loop fuel _ w2) as [[[[[im om]|]|] w3] tl]; simpl.
  - destruct (InputManager_dtor im (app_interface_free app w3)) as [[[] w4] td].
    simpl. by rewrite ?app_nil_r.
  - by rewrite ?app_nil_r.
  - by rewrite ?app_nil_r.
Qed.

Lemma parameters_update_forced w :
  trace_of (parameters_update true w) =
  [Ev_parameter_updated (fst (parameter_update_updated w));
   Ev_parameter_copy; Ev_updateParams].
Proof.
  unfold parameters_update, bind, call_parameter_updated, call_parameter_copy,
    call_updateParams, ret, trace_of.
  destruct (parameter_update_updated w) as [b w1]. simpl.
  by rewrite orb_true_r.
Qed.

(** X15. When [app_interface_new] returns [nullptr], [run] logs the
    failure and returns: it has loaded the parameters, and it neither asks
    for the exit request, nor runs a cycle, nor calls [app_interface_free],
    whatever the fuel. *)
Theorem run_without_engine (fuel : nat) (w : W) :
  fst (app_interface_new (snd (fst (parameters_update true w)))) = nullptr ->
  result_of (run fuel w) = Some (Returned tt) /\
  calls_of (run fuel w) =
    [Rv_log INFO_started;
     Rv_call (Ev_parameter_updated (fst (parameter_update_updated w)));
     Rv_call Ev_parameter_copy; Rv_call Ev_updateParams;
     Rv_app_interface_new nullptr; Rv_log ERR_create_app].
Proof.
  intros Happ. rewrite run_eq.
  pose proof (parameters_update_forced w) as Hp.
  destruct (parameters_update true w) as [[[] w1] tp].
  unfold trace_of in Hp. simpl in *. subst tp.
  destruct (app_interface_new w1) as [app w2]. simpl in Happ. subst app.
  done.
Qed.

(** X16. A run that ends by the exit request gives back what it took:
    the handles passed to [orb_unsubscribe] are, one for one, the handles
    [orb_subscribe] returned with success during the run, and the engine
    that [app_interface_new] created is passed to [app_interface_free]
    once; a run that could not create the engine took no handle and frees
    nothing. *)
Theorem run_gives_back_what_it_took (fuel : nat) (w : W) :
  result_of (run fuel w) = Some (Returned tt) ->
  let calls := calls_of (run fuel w) in
  omap released_handle (omap module_call calls) ≡ₚ
    omap granted_handle (omap module_call calls) /\
  exists app,
    omap app_created calls = [app] /\
    omap app_freed calls = (if (app =? nullptr)%N then [] else [app]).
Proof.
  cbv zeta. rewrite run_eq.
  pose proof (parameters_update_forced w) as Hp.
  destruct (parameters_update true w) as [[[] w1] tp].
  unfold trace_of in Hp. simpl in Hp. subst tp.
  destruct (app_interface_new w1) as [app w2].
  destruct (app =? nullptr)%N eqn:Eapp.
  { intros _. unfold calls_of. simpl. split; [done|]. exists app. by rewrite Eapp. }
  pose proof (run_loop_returned fuel (InputManager_new, OutputManager_new) w2) as Hloop.
  destruct (run_loop fuel _ w2) as [[[[ms|]|] w3] tl]; [|done..].
  unfold result_of, calls_of in Hloop. simpl in Hloop.
  destruct (Hloop ms eq_refl) as (Hh & Hr & Hc & Hf & _).
  destruct (destroy_subscriptions_releases (subscriptions_ (fst ms))
              (app_interface_free app w3)) as [Hd1 Hd2].
  unfold InputManager_dtor.
  destruct (destroy_subscriptions _ _) as [[[] w4] td].
  unfold trace_of in *. cbn [fst snd] in *. intros _. unfold calls_of. cbn [snd].
  read_trace. rewrite !module_call_lift. read_trace.
  rewrite Hr, Hd1, Hd2, Hc, Hf, !(omap_lift _ td), !omap_lift by done.
  split.
  - cbn [List.app]. rewrite app_nil_r, reverse_Permutation, Hh.
    change (valid_handles (subscriptions_ InputManager_new)) with (@nil Z). done.
  - exists app. by rewrite Eapp.
Qed.

(** X17. A run that ends by the exit request has run one full cycle for
    each time [should_exit] answered [false]: the answers are [false] some
    [n] times and then [true], and [app_interface_update] and [px4_usleep]
    have each been called [n] times; a run that could not create the engine
    never asks.  The fuel only bounds the run: with more fuel the run is the
    same. *)
Theorem run_takes_a_cycle_per_refusal (fuel : nat) (w : W) :
  result_of (run fuel w) = Some (Returned tt) ->
  let calls := calls_of (run fuel w) in
  (exists n,
     count is_app_update (omap module_call calls) = n /\
     count is_usleep (omap module_call calls) = n /\
     (omap exit_answer calls = replicate n false ++ [true] \/
      n = 0 /\ omap exit_answer calls = [] /\ omap app_created calls = [nullptr])) /\
  run (S fuel) w = run fuel w.
Proof.
  cbv zeta. rewrite (run_eq (S fuel)), (run_eq fuel).
  pose proof (parameters_update_forced w) as Hp.
  destruct (parameters_update true w) as [[[] w1] tp].
  unfold trace_of in Hp. simpl in Hp. subst tp.
  destruct (app_interface_new w1) as [app w2].
  destruct (app =? nullptr)%N eqn:Eapp.
  { intros _. unfold calls_of. simpl. split; [|done]. exists 0.
    apply N.eqb_eq in Eapp. subst app. split_and!; [done..|]. by right. }
  pose proof (run_loop_returned fuel (InputManager_new, OutputManager_new) w2) as Hloop.
  pose proof (run_loop_fuel fuel (InputManager_new, OutputManager_new) w2) as Hfuel.
  destruct (run_loop fuel _ w2) as [[[[ms|]|] w3] tl] eqn:Eloop; [|done..].
  unfold result_of, calls_of in Hloop. simpl in Hloop.
  destruct (Hloop ms eq_refl) as (_ & _ & _ & _ & n & Hx & Ha & Hs).
  rewrite (Hfuel _ eq_refl).
  unfold InputManager_dtor.
  pose proof (destroy_subscriptions_side (subscriptions_ (fst ms))
                (app_interface_free app w3)) as Hd.
  destruct (destroy_subscriptions _ _) as [[[] w4] td].
  unfold trace_of in *. cbn [fst snd] in *. intros _. unfold calls_of. cbn [snd].
  split; [|done]. exists n.
  read_trace. rewrite !module_call_lift, !(omap_lift exit_answer) by done.
  read_trace. cbn [List.app].
  rewrite !count_cons, !count_app, Ha, Hs, Hx, app_nil_r.
  assert (count is_app_update td = 0 /\ count is_usleep td = 0) as [-> ->].
  { clear -Hd. unfold count. induction Hd as [|e l [h He] _ [IH1 IH2]]; [done|].
    destruct e; simpl in *; done. }
  split_and!; [simpl; lia | simpl; lia | by left].
Qed.

End TaskFacts.

(** * Properties of the command line *)
Section CommandLineFacts.
Context {W : Type} `{Shell W}.

(** One turn of the loop of [instantiate]. *)
Lemma parse_options_S fuel argv myoptind myoptarg example_param example_flag
    error_flag w :
  parse_options (S fuel) argv myoptind myoptarg example_param example_flag
    error_flag w =
  let '(ch, myoptind', myoptarg', w1) :=
    px4_getopt argv "p:f"%string myoptind myoptarg w in
  if (ch =? EOF)%Z then
    (Some (example_param, example_flag, error_flag), w1, [Sh_getopt myoptind ch])
  else
    let '(r, w2, t) :=
      parse_options fuel argv myoptind' myoptarg'
        (if (ch =? char_p)%Z then strtol myoptarg' else example_param)
        (if (ch =? char_p)%Z then example_flag
         else if (ch =? char_f)%Z then true else example_flag)
        (if accepted_option ch then error_flag else true) w1 in
    (r, w2,
     Sh_getopt myoptind ch ::
     (if accepted_option ch || (ch =? char_question)%Z then []
      else [Sh_log WARN_unrecognized_flag]) ++ t).
Proof.
  simpl. unfold task_bind, call_px4_getopt, task_ret, accepted_option.
  destruct (px4_getopt argv _ myoptind myoptarg w) as [[[ch ind'] arg'] w1].
  destruct (ch =? EOF)%Z; [done|].
  destruct (ch =? char_p)%Z; simpl.
  { by destruct (parse_options fuel _ _ _ _ _ _ _) as [[r w2] t]. }
  destruct (ch =? char_f)%Z; simpl.
  { by destruct (parse_options fuel _ _ _ _ _ _ _) as [[r w2] t]. }
  destruct (ch =? char_question)%Z; simpl.
  { by destruct (parse_options fuel _ _ _ _ _ _ _) as [[r w2] t]. }
  unfold shell_log_line.
  by destruct (parse_options fuel _ _ _ _ _ _ _) as [[r w2] t].
Qed.

(** The loop of [instantiate], when [px4_getopt] comes to [EOF]. *)
Lemma parse_options_returned fuel :
  forall argv myoptind myoptarg example_param example_flag error_flag w st,
    let r := parse_options fuel argv myoptind myoptarg example_param example_flag
               error_flag w in
    result_of r = Some st ->
    exists options,
      omap getopt_answer (calls_of r) = options ++ [EOF] /\
      Forall (fun ch => ch <> EOF) options /\
      snd st = error_flag || negb (forallb accepted_option options) /\
      omap constructed (calls_of r) = [] /\
      length (List.filter is_unrecognized (calls_of r)) =
        length (List.filter (fun ch => negb (accepted_option ch)
                                        && negb (ch =? char_question)%Z) options).
Proof.
  induction fuel as [|fuel IH];
    intros argv ind arg param flag err w st; cbv zeta; [done|].
  rewrite parse_options_S.
  destruct (px4_getopt argv _ ind arg w) as [[[ch ind'] arg'] w1].
  destruct (ch =? EOF)%Z eqn:Eeof.
  { apply Z.eqb_eq in Eeof. subst ch. unfold result_of, calls_of. simpl.
    intros [= <-]. exists []. simpl. by rewrite orb_false_r. }
  apply Z.eqb_neq in Eeof.
  specialize (IH argv ind' arg'
                (if (ch =? char_p)%Z then strtol arg' else param)
                (if (ch =? char_p)%Z then flag
                 else if (ch =? char_f)%Z then true else flag)
                (if accepted_option ch then err else true) w1 st).
  cbv zeta in IH.
  destruct (parse_options fuel _ _ _ _ _ _ _) as [[r w2] t].
  unfold result_of, calls_of in *. cbn [fst snd] in *. intros Hr.
  destruct (IH Hr) as (options & Hopts & Hne & Herr & Hnew & Hwarn).
  exists (ch :: options).
  rewrite (omap_cons_Some getopt_answer _ ch), (omap_cons_None constructed) by done.
  rewrite !omap_app, Hopts, Hnew.
  split_and!.
  - destruct (accepted_option ch || (ch =? char_question)%Z); done.
  - by constructor.
  - rewrite Herr. simpl. destruct (accepted_option ch), err; done.
  - destruct (accepted_option ch || (ch =? char_question)%Z); done.
  - simpl. rewrite List.filter_app, length_app, Hwarn.
    destruct (accepted_option ch), (ch =? char_question)%Z; done.
Qed.

(** More fuel does not change a parse that came to [EOF]. *)
Lemma parse_options_fuel fuel :
  forall argv myoptind myoptarg example_param example_flag error_flag w st,
    result_of (parse_options fuel argv myoptind myoptarg example_param example_flag
                 error_flag w) = Some st ->
    parse_options (S fuel) argv myoptind myoptarg example_param example_flag
      error_flag w =
    parse_options fuel argv myoptind myoptarg example_param example_flag error_flag w.
Proof.
  induction fuel as [|fuel IH]; intros argv ind arg param flag err w st; [done|].
  rewrite (parse_options_S (S fuel)), (parse_options_S fuel).
  destruct (px4_getopt argv _ ind arg w) as [[[ch ind'] arg'] w1].
  destruct (ch =? EOF)%Z; [done|].
  specialize (IH argv ind' arg'
                (if (ch =? char_p)%Z then strtol arg' else param)
                (if (ch =? char_p)%Z then flag
                 else if (ch =? char_f)%Z then true else flag)
                (if accepted_option ch then err else true) w1 st).
  destruct (parse_options fuel _ _ _ _ _ _ _) as [[r w2] t] eqn:E.
  unfold result_of in *. cbn [fst] in *. intros ->.
  by rewrite (IH eq_refl).
Qed.

(** X18. [instantiate] reads the options to the end and builds the
    module only if all of them are in order: [px4_getopt] is called until
    it returns [EOF], whatever it returned before; when every option
    character it returned is ['p'] or ['f'] the module is constructed once
    and its address returned, and when one is ['?'] or any other character
    [instantiate] returns [nullptr] and constructs nothing.  The warning
    for an unrecognized flag is logged once for each character that is
    neither ['p'], ['f'] nor ['?'].  The fuel only bounds the parse. *)
Theorem instantiate_needs_clean_options (fuel : nat) (argv : list String.string)
    (w : W) (instance : N) :
  result_of (instantiate fuel argv w) = Some instance ->
  let calls := calls_of (instantiate fuel argv w) in
  (exists options,
     omap getopt_answer calls = options ++ [EOF] /\
     Forall (fun ch => ch <> EOF) options /\
     (forallb accepted_option options = true -> omap constructed calls = [instance]) /\
     (forallb accepted_option options = false ->
      instance = nullptr /\ omap constructed calls = []) /\
     length (List.filter is_unrecognized calls) =
       length (List.filter (fun ch => negb (accepted_option ch)
                                       && negb (ch =? char_question)%Z) options)) /\
  instantiate (S fuel) argv w = instantiate fuel argv w.
Proof.
  cbv zeta. unfold instantiate, task_bind.
  pose proof (parse_options_returned fuel argv 1 None 0 false false w) as Hparse.
  pose proof (parse_options_fuel fuel argv 1 None 0 false false w) as Hfuel.
  cbv zeta in Hparse.
  destruct (parse_options fuel argv 1 None 0 false false w)
    as [[[[[param flag] err]|] w1] t] eqn:Eparse; [|done].
  rewrite (Hfuel _ eq_refl).
  unfold result_of, calls_of in Hparse. cbn [fst snd] in Hparse.
  destruct (Hparse _ eq_refl) as (options & Hopts & Hne & Herr & Hnew & Hwarn).
  simpl in Herr. subst err.
  destruct (forallb accepted_option options) eqn:Eall; simpl.
  - unfold call_new, shell_log_line, task_ret.
    destruct (new_PictorusModule param flag w1) as [p w2].
    destruct (p =? nullptr)%N; unfold result_of, calls_of; simpl;
      intros [= <-]; (split; [|done]); exists options;
      rewrite !omap_app, Hopts, Hnew, List.filter_app, length_app, Hwarn; simpl;
      (split_and!; [by rewrite app_nil_r | done | done | by rewrite Eall | lia]).
  - unfold task_ret, result_of, calls_of. simpl. intros [= <-].
    split; [|done]. exists options.
    rewrite !app_nil_r. split_and!; [done | done | by rewrite Eall | done | done].
Qed.

(** X19. [custom_command] never fails: for every command line it warns
    of an unknown command, prints what [print_usage] prints without a
    reason, and returns [0], as [print_usage] does for every reason.  The
    options the usage documents are the ones [instantiate] takes: ['f'] and
    ['p']. *)
Theorem custom_command_reports_success (argv : list String.string)
    (reason : option String.string) (w : W) :
  result_of (custom_command argv w) = 0%Z /\
  calls_of (custom_command argv w) =
    Sh_log (WARN_reason "unknown command"%string) :: calls_of (print_usage None w) /\
  result_of (print_usage reason w) = 0%Z /\
  (forall ch, accepted_option ch = true <->
              ch ∈ omap documented_option (calls_of (print_usage reason w))).
Proof.
  split_and!; [done | done | by destruct reason |].
  intros ch. unfold accepted_option.
  assert (omap documented_option (calls_of (print_usage reason w)) = [char_f; char_p])
    as -> by (by destruct reason).
  rewrite orb_true_iff, !Z.eqb_eq, !elem_of_cons, elem_of_nil. tauto.
Qed.

End CommandLineFacts.

(** X20. [ffi_error_to_string] tells the errors apart: the six
    enumerators of [FfiError] have six different descriptions, "Success" is
    the description of [FFI_SUCCESS] alone, and "Unknown error" is the
    description of exactly the codes that are not an enumerator. *)
Theorem ffi_error_to_string_tells_errors_apart :
  (forall e1 e2 : FfiError,
     ffi_error_to_string (FfiError_value e1) = ffi_error_to_string (FfiError_value e2) ->
     e1 = e2) /\
  (forall e : FfiError,
     ffi_error_to_string (FfiError_value e) = "Success"%string <-> ffi_failed e = false) /\
  (forall code : Z,
     ffi_error_to_string code = "Unknown error"%string <->
     forall e : FfiError, FfiError_value e <> code).
Proof.
  split_and!.
  - intros [] []; simpl; intros Heq; done.
  - intros []; simpl; split; done.
  - intros code. split.
    + intros Hs []; simpl; intros <-; done.
    + intros Hno.
      pose proof (Hno FFI_SUCCESS). pose proof (Hno FFI_MESSAGE_LENGTH_MISMATCH).
      pose proof (Hno FFI_UNADVERTISED_MESSAGE).
      pose proof (Hno FFI_UNSUBSCRIBED_MESSAGE).
      pose proof (Hno FFI_INVALID_MESSAGE_INDEX). pose proof (Hno FFI_NULL_ARGUMENT).
      simpl in *.
      destruct code as [|p|p]; [done| |done].
      destruct p as [[[p|p|]|[p|p|]|]|[[p|p|]|[p|p|]|]|]; done.
Qed.

(** * Concrete runs

    The properties above, and what they leave out, on the scripted bus and
    engine. *)

(** A cycle that starts at 1000 and reaches its sleep at 11001, one
    microsecond late, with a 32-bit [useconds_t]. *)
Lemma overrun_sleep_wraps_witness :
  omap usleep_of
    (trace_of (@run_cycle sim (scripted (nominal [] []))
                 (InputManager_new, OutputManager_new) overrun))
  = [(2 ^ 32 - (11001 - 1000 - LOOP_INTERVAL_US))%Z] /\
  (0 < 2 ^ 32 - (11001 - 1000 - LOOP_INTERVAL_US))%Z.
Proof.
  apply (@overrun_sleep_wraps sim (scripted (nominal [] []))
           (InputManager_new, OutputManager_new) overrun 1000 6000 11001).
  - vm_compute. reflexivity.
  - lia.
  - lia.
  - change (0 < 32 <= 64)%Z. lia.
  - change (0 < 11001 - 1000 - 10000 < 2 ^ 32)%Z. lia.
Defined.

(** The same cycle, run: the sleep asked for is 4294967295 microseconds. *)
Example run_cycle_overrun :
  omap usleep_of
    (trace_of (@run_cycle sim (scripted (nominal [] []))
                 (InputManager_new, OutputManager_new) overrun))
  = [4294967295%Z].
Proof. vm_compute. reflexivity. Qed.

Example run_cycle_on_time :
  omap usleep_of
    (trace_of (@run_cycle sim (scripted (nominal [] []))
                 (InputManager_new, OutputManager_new) on_time))
  = [9800%Z].
Proof. vm_compute. reflexivity. Qed.


(** After a cycle that filled the pools with topics 1 to 16, the engine
    declares topic 17, which fits the buffer and has unread data on the bus
    and an update in the engine: the input relay makes no copy for it, and
    the output relay reads it from the engine and publishes nothing. *)
Lemma full_pool_drops_update :
  let sc := scripted (nominal [17%N] [17%N]) in
  let ti := trace_of (@process_input_messages sim sc filled_input seventeenth) in
  let to := trace_of (@process_output_messages sim sc filled_output seventeenth) in
  sub_ids (subscriptions_ filled_input) = topics_upto 16 /\
  pub_ids (publications_ filled_output) = topics_upto 16 /\
  (@o_size sim sc 17 <= MAX_MESSAGE_SIZE)%N /\
  fst (sim_orb_check 17 seventeenth) = (0%Z, true) /\
  fst (sim_has_update 17 seventeenth) = (FFI_SUCCESS, true) /\
  ti = [Ev_input_count FFI_SUCCESS 1; Ev_input_id 0 FFI_SUCCESS 17;
        Ev_log ERR_too_many_subscriptions] /\
  count (is_copy 17) ti = 0 /\
  to = [Ev_output_count FFI_SUCCESS 1; Ev_output_id 0 FFI_SUCCESS 17;
        Ev_has_update 17 FFI_SUCCESS true;
        Ev_read_output 17 1024 FFI_SUCCESS 4;
        Ev_log ERR_too_many_publications] /\
  count (is_publish 17) to = 0.
Proof. cbv zeta. split_and!; try (vm_compute; reflexivity). vm_compute. discriminate. Qed.

(** Topic 1, of size 4, declared as input and as output, with unread data
    and an update, and bound in both pools by an earlier cycle: one poll,
    one copy, one write; one query, one read, one publish. *)
Lemma one_transfer_per_update_witness :
  (@o_size sim (scripted small_topic) 1 <= MAX_MESSAGE_SIZE)%N /\
  1%N ∈ sub_ids (subscriptions_ bound_input) /\
  1%N ∈ pub_ids (publications_ bound_output) /\
  let ti := trace_of (@process_input_messages sim (scripted small_topic)
                        bound_input busy) in
  let to := trace_of (@process_output_messages sim (scripted small_topic)
                        bound_output busy) in
  omap input_index ti = [0%N] /\
  count (is_check 1) ti = count (is_input_of 1) ti /\
  count (is_copy 1) ti = count (is_fresh 1) ti /\
  count (is_write 1) ti = count (is_copy_ok 1) ti /\
  omap output_index to = [0%N] /\
  count (is_has_update 1) to = count (is_output_of 1) to /\
  count (is_read 1) to = count (is_pending 1) to /\
  count (is_publish 1) to = count (is_read_ok 4 1) to.
Proof.
  assert (@o_size sim (scripted small_topic) 1 <= MAX_MESSAGE_SIZE)%N as Hfits
    by (vm_compute; discriminate).
  assert (1%N ∈ sub_ids (subscriptions_ bound_input)) as Hsub
    by (vm_compute; constructor).
  assert (1%N ∈ pub_ids (publications_ bound_output)) as Hpub
    by (vm_compute; constructor).
  destruct (@one_transfer_per_update sim (scripted small_topic) 1%N
              bound_input bound_output busy Hfits)
    as (Hi & _ & _ & Hpoll & _ & Hcopy & Hwrite & Ho & Hask & Hread & _ & _ & _
        & Hpublish & _).
  split_and!; [done..|]. cbv zeta.
  split_and!; [ | by apply Hpoll | done | done | | done | done | by apply Hpublish].
  - apply Hi; reflexivity.
  - apply Ho; reflexivity.
Defined.

(** The same topic in a first cycle, with empty pools: the binding is made,
    and the transfer is the same. *)
Example first_cycle_relays_the_update :
  trace_of (@process_input_messages sim (scripted small_topic) InputManager_new busy)
  = [Ev_input_count FFI_SUCCESS 1; Ev_input_id 0 FFI_SUCCESS 1;
     Ev_log (INFO_subscribing 1); Ev_orb_subscribe 1 1; Ev_orb_check 1 1 0 true;
     Ev_orb_copy 1 1 0; Ev_write_input 1 4 FFI_SUCCESS] /\
  trace_of (@process_input_messages sim (scripted small_topic) bound_input busy)
  = [Ev_input_count FFI_SUCCESS 1; Ev_input_id 0 FFI_SUCCESS 1;
     Ev_orb_check 1 1 0 true; Ev_orb_copy 1 1 0; Ev_write_input 1 4 FFI_SUCCESS] /\
  trace_of (@process_output_messages sim (scripted small_topic) bound_output busy)
  = [Ev_output_count FFI_SUCCESS 1; Ev_output_id 0 FFI_SUCCESS 1;
     Ev_has_update 1 FFI_SUCCESS true; Ev_read_output 1 1024 FFI_SUCCESS 4;
     Ev_orb_publish 1 2 0].
Proof. split_and!; vm_compute; reflexivity. Qed.


(** A sequence of [ensure] calls with repeated topics, on a bus that
    grants them. *)
Lemma pool_uniqueness_witness :
  sub_ids (value_of (@ensure_subscriptions sim (scripted small_topic)
                       [1; 2; 1; 3; 2]%N (subscriptions_ InputManager_new) quiet))
    ≡ₚ [1; 2; 3]%N /\
  pub_ids (value_of (@ensure_publications sim (scripted small_topic)
                       [1; 2; 1; 3; 2]%N [] (publications_ OutputManager_new) quiet))
    ≡ₚ [1; 2; 3]%N.
Proof.
  assert (NoDup [1; 2; 3]%N) as Hnd by compute_done.
  assert (length [1; 2; 3]%N <= MAX_MESSAGES) as Hlen
    by (unfold MAX_MESSAGES; simpl; lia).
  assert (Forall (fun id => id ∈ [1; 2; 3]%N) [1; 2; 1; 3; 2]%N) as Hdrawn
    by compute_done.
  assert (Forall (fun id => id ∈ [1; 2; 1; 3; 2]%N) [1; 2; 3]%N) as Hall
    by compute_done.
  destruct (@pool_uniqueness sim (scripted small_topic) [1; 2; 3]%N
              [1; 2; 1; 3; 2]%N [] quiet Hnd Hlen Hdrawn Hall) as (_ & Hsubs & Hpubs).
  split.
  - apply Hsubs. intros id w'. change (0 <= Z.of_N id)%Z. lia.
  - apply Hpubs. intros id d w'. change (N.succ id <> 0%N). lia.
Defined.

(** Topic 17 asked of pools that hold topics 1 to 16. *)
Lemma pool_exhaustion_drops_witness :
  @ensure_subscription sim (scripted small_topic) 17 full_subscriptions quiet =
    (Sub_invalid, full_subscriptions, quiet, [Ev_log ERR_too_many_subscriptions]) /\
  @ensure_publication sim (scripted small_topic) 17 [] full_publications quiet =
    (Pub_invalid, full_publications, quiet, [Ev_log ERR_too_many_publications]).
Proof.
  assert (length full_subscriptions = MAX_MESSAGES) as Hls by reflexivity.
  assert (Forall (fun s => OrbSubscription.is_valid s = true) full_subscriptions) as Hvs
    by compute_done.
  assert (17%N ∉ sub_ids full_subscriptions) as Hns by compute_done.
  assert (length full_publications = MAX_MESSAGES) as Hlp by reflexivity.
  assert (Forall (fun p => OrbPublication.is_valid p = true) full_publications) as Hvp
    by compute_done.
  assert (17%N ∉ pub_ids full_publications) as Hnp by compute_done.
  destruct (@pool_exhaustion_drops sim (scripted small_topic) 17%N
              full_subscriptions full_publications [] quiet
              Hls Hvs Hns Hlp Hvp Hnp) as (Hs & Hp & _).
  by split.
Defined.

(** A bus that answers [-1] to [orb_subscribe]. *)
Lemma failed_subscription_is_inert_witness :
  (fst (@orb_subscribe sim (scripted refusing) 1 quiet) < 0)%Z /\
  OrbSubscription.is_valid
    (value_of (@OrbSubscription.ctor sim (scripted refusing) 1 quiet)) = false /\
  (forall w', @OrbSubscription.check_updated sim (scripted refusing)
                (value_of (@OrbSubscription.ctor sim (scripted refusing) 1 quiet)) w'
              = (false, w', [])).
Proof.
  assert (fst (@orb_subscribe sim (scripted refusing) 1 quiet) < 0)%Z as Hfail
    by (change (-1 < 0)%Z; lia).
  destruct (@failed_subscription_is_inert sim (scripted refusing) 1%N quiet Hfail)
    as (Hinv & _ & Hchk & _).
  by split_and!.
Defined.

(** A topic whose declared size is above the buffer size, with unread data
    and an update. *)
Lemma oversize_never_copied_witness :
  (MAX_MESSAGE_SIZE < @o_size sim (scripted large_topic) 1)%N /\
  let ti := trace_of (@process_input_messages sim (scripted large_topic)
                        InputManager_new busy) in
  let to := trace_of (@process_output_messages sim (scripted large_topic)
                        OutputManager_new busy) in
  count (is_copy 1) ti = 0 /\
  count (is_write 1) ti = 0 /\
  count (is_input_size_error 1) ti = count (is_fresh 1) ti /\
  count (is_read 1) to = 0 /\
  count (is_advertise 1) to = 0 /\
  count (is_publish 1) to = 0 /\
  count (is_output_size_error 1) to = count (is_pending 1) to.
Proof.
  assert (MAX_MESSAGE_SIZE < @o_size sim (scripted large_topic) 1)%N as Hbig
    by (vm_compute; reflexivity).
  split; [exact Hbig|].
  exact (@oversize_never_copied sim (scripted large_topic) 1%N
           InputManager_new OutputManager_new busy Hbig).
Defined.

(** The same topic: the relay subscribes to it, finds the update, and
    stops at the size check. *)
Lemma oversize_input_still_subscribed_witness :
  let r := @process_input_messages sim (scripted large_topic) InputManager_new busy in
  let im' := returned_or InputManager_new (value_of r) in
  (MAX_MESSAGE_SIZE < @o_size sim (scripted large_topic) 1)%N /\
  value_of r = Returned im' /\
  0 < count (is_fresh 1) (trace_of r) /\
  1%N ∈ sub_ids (subscriptions_ im') /\
  count (is_copy 1) (trace_of r) = 0.
Proof.
  cbv zeta.
  assert (MAX_MESSAGE_SIZE < @o_size sim (scripted large_topic) 1)%N as Hbig
    by (vm_compute; reflexivity).
  assert (value_of (@process_input_messages sim (scripted large_topic)
                      InputManager_new busy)
          = Returned (returned_or InputManager_new
                        (value_of (@process_input_messages sim (scripted large_topic)
                                     InputManager_new busy)))) as Hret
    by (vm_compute; reflexivity).
  assert (0 < count (is_fresh 1)
                (trace_of (@process_input_messages sim (scripted large_topic)
                             InputManager_new busy))) as Hfresh
    by (vm_compute; lia).
  destruct (@oversize_input_still_subscribed sim (scripted large_topic) 1%N
              InputManager_new _ busy Hbig Hret Hfresh) as (Hbound & Hcopy & _).
  by split_and!.
Defined.

(** The spec's size-mismatch scenario: declared size 8, 6 bytes read. *)
Example short_read_is_logged_not_published :
  trace_of (@process_output_messages sim (scripted short_read) OutputManager_new busy)
  = [Ev_output_count FFI_SUCCESS 1; Ev_output_id 0 FFI_SUCCESS 1;
     Ev_has_update 1 FFI_SUCCESS true; Ev_read_output 1 1024 FFI_SUCCESS 6;
     Ev_log (ERR_size_mismatch 1 8 6)].
Proof. vm_compute. reflexivity. Qed.

(** A read that fails with no byte written: the read failure is logged,
    not the size mismatch, and nothing is published. *)
Example failed_read_is_logged_as_failure :
  let sc := with_size (fun _ => 8%N)
              (with_read (fun _ => (FFI_UNADVERTISED_MESSAGE, 0%N))
                 (nominal [] [1%N])) in
  trace_of (@process_output_messages sim (scripted sc) OutputManager_new busy)
  = [Ev_output_count FFI_SUCCESS 1; Ev_output_id 0 FFI_SUCCESS 1;
     Ev_has_update 1 FFI_SUCCESS true;
     Ev_read_output 1 1024 FFI_UNADVERTISED_MESSAGE 0;
     Ev_log (ERR_read_output 1 FFI_UNADVERTISED_MESSAGE)].
Proof. vm_compute. reflexivity. Qed.

(** The spec's end-to-end scenario: one input, one output, one cycle. *)
Example one_cycle_relays_both_ways :
  trace_of (@run_cycle sim (scripted (nominal [1%N] [2%N]))
              (InputManager_new, OutputManager_new)
              {| sim_fresh := [1%Z]; sim_pending := [2%N];
                 sim_clock := [100; 200; 300]%Z |})
  = [Ev_time 100; Ev_parameter_updated false;
     Ev_input_count FFI_SUCCESS 1; Ev_input_id 0 FFI_SUCCESS 1;
     Ev_log (INFO_subscribing 1); Ev_orb_subscribe 1 1; Ev_orb_check 1 1 0 true;
     Ev_orb_copy 1 1 0; Ev_write_input 1 4 FFI_SUCCESS;
     Ev_time 200; Ev_app_update 200;
     Ev_output_count FFI_SUCCESS 1; Ev_output_id 0 FFI_SUCCESS 2;
     Ev_has_update 2 FFI_SUCCESS true; Ev_read_output 2 1024 FFI_SUCCESS 4;
     Ev_log (INFO_advertising 2); Ev_orb_advertise 2 3; Ev_orb_publish 2 3 0;
     Ev_time 300; Ev_usleep 9800].
Proof. vm_compute. reflexivity. Qed.

(** A refused subscription for one topic does not keep the next indices
    from being handled. *)
Example refused_topic_is_skipped :
  let sc := with_subscribe (fun id => if (id =? 2)%N then (-1)%Z else Z.of_N id)
              (nominal [1; 2; 3]%N []) in
  omap input_index
    (trace_of (@process_input_messages sim (scripted sc) InputManager_new
                 {| sim_fresh := [1; 2; 3]%Z; sim_pending := []; sim_clock := [] |}))
  = [0; 1; 2]%N /\
  sub_ids (subscriptions_ (returned_or InputManager_new
    (value_of (@process_input_messages sim (scripted sc) InputManager_new
                 {| sim_fresh := [1; 2; 3]%Z; sim_pending := []; sim_clock := [] |}))))
  = [1; 3]%N.
Proof. split; vm_compute; reflexivity. Qed.


Example failures_do_not_stop_the_relay :
  trace_of (@process_input_messages sim (scripted troubled)
              InputManager_new all_updated)
  = [Ev_input_count FFI_SUCCESS 4;
     Ev_input_id 0 FFI_INVALID_MESSAGE_INDEX 0;
     Ev_log (ERR_input_id 0 FFI_INVALID_MESSAGE_INDEX);
     Ev_input_id 1 FFI_SUCCESS 2;
     Ev_log (INFO_subscribing 2); Ev_orb_subscribe 2 2; Ev_orb_check 2 2 0 true;
     Ev_log (ERR_input_size 2 2000);
     Ev_input_id 2 FFI_SUCCESS 3;
     Ev_log (INFO_subscribing 3); Ev_orb_subscribe 3 (-1); Ev_log ERR_subscribe;
     Ev_input_id 3 FFI_SUCCESS 4;
     Ev_log (INFO_subscribing 4); Ev_orb_subscribe 4 4; Ev_orb_check 4 4 0 true;
     Ev_orb_copy 4 4 0; Ev_write_input 4 4 FFI_SUCCESS] /\
  trace_of (@process_output_messages sim (scripted troubled)
              OutputManager_new all_updated)
  = [Ev_output_count FFI_SUCCESS 4;
     Ev_output_id 0 FFI_INVALID_MESSAGE_INDEX 0;
     Ev_log (ERR_output_id 0 FFI_INVALID_MESSAGE_INDEX);
     Ev_output_id 1 FFI_SUCCESS 2; Ev_has_update 2 FFI_SUCCESS true;
     Ev_log (ERR_output_size 2 2000);
     Ev_output_id 2 FFI_SUCCESS 3; Ev_has_update 3 FFI_SUCCESS true;
     Ev_read_output 3 1024 FFI_NULL_ARGUMENT 0;
     Ev_log (ERR_read_output 3 FFI_NULL_ARGUMENT);
     Ev_output_id 3 FFI_SUCCESS 4; Ev_has_update 4 FFI_SUCCESS true;
     Ev_read_output 4 1024 FFI_SUCCESS 4;
     Ev_log (INFO_advertising 4); Ev_orb_advertise 4 5; Ev_orb_publish 4 5 0].
Proof. split; vm_compute; reflexivity. Qed.

(** With assertions compiled out, seventeen declared topics are relayed up
    to the sixteenth and the seventeenth is dropped with the capacity
    error. *)
Example release_build_drops_the_seventeenth :
  let sc := with_ndebug true (nominal (topics_upto 17) []) in
  let r := @process_input_messages sim (scripted sc) InputManager_new quiet in
  sub_ids (subscriptions_ (returned_or InputManager_new (value_of r)))
  = topics_upto 16 /\
  omap input_index (trace_of r) = index_range 17 /\
  List.last (trace_of r) (Ev_time 0) = Ev_log ERR_too_many_subscriptions.
Proof. cbv zeta. split_and!; vm_compute; reflexivity. Qed.

(** ** Further runs *)

(** An engine whose input count query fails with a count of 99, and that
    declares no output. *)
Lemma relay_without_topics_witness :
  (value_of (@process_input_messages sim (scripted unanswered) InputManager_new quiet)
   = Returned InputManager_new /\
   trace_of (@process_input_messages sim (scripted unanswered) InputManager_new quiet)
   = [Ev_input_count FFI_NULL_ARGUMENT 99; Ev_log (ERR_input_count FFI_NULL_ARGUMENT)]) /\
  (value_of (@process_output_messages sim (scripted unanswered) OutputManager_new quiet)
   = Returned OutputManager_new /\
   trace_of (@process_output_messages sim (scripted unanswered) OutputManager_new quiet)
   = [Ev_output_count FFI_SUCCESS 0]).
Proof.
  destruct (@relay_without_topics sim (scripted unanswered)
              InputManager_new OutputManager_new quiet) as (Hfail & _ & _ & Hnone).
  split; [apply Hfail; reflexivity | apply Hnone; reflexivity].
Defined.

(** Topic 1 in the pools that topics 1 to 16 have filled. *)
Lemma bound_topic_is_not_bound_again_witness :
  count (is_subscribe 1)
    (trace_of (@process_input_messages sim (scripted sixteen_topics)
                 filled_input all_pending)) = 0 /\
  count (is_advertise 1)
    (trace_of (@process_output_messages sim (scripted sixteen_topics)
                 filled_output all_pending)) = 0.
Proof.
  destruct (@bound_topic_is_not_bound_again sim (scripted sixteen_topics) 1%N
              filled_input filled_output all_pending) as [Hi Ho].
  split; [apply Hi | apply Ho]; vm_compute; constructor.
Defined.

(** Topic 1, bound in the pools of a new manager and asked for again. *)
Lemma ensure_again_is_a_lookup_witness :
  (forall w',
     @ensure_subscription sim (scripted small_topic) 1%N
       (<[0 := OrbSubscription.mk 1 1]> (subscriptions_ InputManager_new)) w'
     = ((Sub_slot 0, <[0 := OrbSubscription.mk 1 1]> (subscriptions_ InputManager_new)),
        w', [])) /\
  (forall data' w',
     @ensure_publication sim (scripted small_topic) 1%N data'
       (<[0 := OrbPublication.mk 1 2]> (publications_ OutputManager_new)) w'
     = ((Pub_slot 0, <[0 := OrbPublication.mk 1 2]> (publications_ OutputManager_new)),
        w', [])).
Proof.
  destruct (@ensure_again_is_a_lookup sim (scripted small_topic) 1%N
              (subscriptions_ InputManager_new) (publications_ OutputManager_new)
              zeroed_buffer quiet) as [Hs Hp].
  split; [apply Hs | apply Hp]; vm_compute; reflexivity.
Defined.

(** Topic 1 is refused by the bus; topic 2 is asked for next. *)
Lemma refused_binding_keeps_the_slot_free_witness :
  let rs := @ensure_subscription sim (scripted refusing_all) 1%N
              (subscriptions_ InputManager_new) quiet in
  let rp := @ensure_publication sim (scripted refusing_all) 1%N zeroed_buffer
              (publications_ OutputManager_new) quiet in
  fst (value_of (@ensure_subscription sim (scripted refusing_all) 2%N
                   (snd (value_of rs)) quiet)) = Sub_slot 0 /\
  fst (value_of (@ensure_publication sim (scripted refusing_all) 2%N zeroed_buffer
                   (snd (value_of rp)) quiet)) = Pub_slot 0.
Proof.
  destruct (@refused_binding_keeps_the_slot_free sim (scripted refusing_all) 1%N 2%N
              (subscriptions_ InputManager_new) (publications_ OutputManager_new)
              zeroed_buffer zeroed_buffer quiet quiet) as [Hs Hp].
  cbv zeta. split.
  - destruct Hs as (_ & -> & _); [vm_compute; reflexivity | vm_compute; inversion 1..|].
    vm_compute. reflexivity.
  - destruct Hp as (_ & -> & _); [vm_compute; reflexivity | vm_compute; inversion 1..|].
    vm_compute. reflexivity.
Defined.

(** The handle with which topic 1 is polled and copied, and the handle on
    which it is published, in a cycle that starts with empty pools. *)
Lemma handles_come_from_the_bus_witness :
  ((0 <= 1)%Z /\
   (OrbSubscription.mk 1 1 ∈ subscriptions_ InputManager_new \/
    Ev_orb_subscribe 1 1
      ∈ trace_of (@process_input_messages sim (scripted small_topic)
                    InputManager_new busy))) /\
  (2%N <> nullptr /\
   (OrbPublication.mk 1 2 ∈ publications_ OutputManager_new \/
    Ev_orb_advertise 1 2
      ∈ trace_of (@process_output_messages sim (scripted small_topic)
                    OutputManager_new busy))).
Proof.
  destruct (@handles_come_from_the_bus sim (scripted small_topic)
              InputManager_new OutputManager_new busy) as [Hi Ho].
  split; [apply Hi | apply (Ho 1%N 2%N 0%Z)]; vm_compute; repeat constructor.
Defined.

(** The first update of topic 1: read, advertised, published. *)
Lemma advertisement_is_published_at_once_witness :
  (exists t0 res,
     [Ev_output_count FFI_SUCCESS 1; Ev_output_id 0 FFI_SUCCESS 1;
      Ev_has_update 1 FFI_SUCCESS true; Ev_read_output 1 1024 FFI_SUCCESS 4;
      Ev_log (INFO_advertising 1)]
     = t0 ++ [Ev_read_output 1 MAX_MESSAGE_SIZE res
                (@o_size sim (scripted small_topic) 1);
              Ev_log (INFO_advertising 1)] /\
     ffi_failed res = false) /\
  (2%N <> nullptr -> exists rc t3, [Ev_orb_publish 1 2 0] = Ev_orb_publish 1 2 rc :: t3) /\
  (2%N = nullptr -> exists t3, [Ev_orb_publish 1 2 0] = Ev_log ERR_advertise :: t3).
Proof.
  apply (@advertisement_is_published_at_once sim (scripted small_topic)
           OutputManager_new busy).
  vm_compute. reflexivity.
Defined.

(** The buffers after topic 1, of size 4, went through both relays. *)
Lemma buffers_keep_their_size_witness :
  length (input_buffer
            (returned_or InputManager_new
               (value_of (@process_input_messages sim (scripted small_topic)
                            InputManager_new busy))))
  = N.to_nat MAX_MESSAGE_SIZE /\
  length (output_buffer
            (returned_or OutputManager_new
               (value_of (@process_output_messages sim (scripted small_topic)
                            OutputManager_new busy))))
  = N.to_nat MAX_MESSAGE_SIZE.
Proof.
  apply (@buffers_keep_their_size sim (scripted small_topic)
           InputManager_new _ OutputManager_new _ busy).
  - intros id h w0. vm_compute. lia.
  - intros id w0. vm_compute. lia.
  - vm_compute. reflexivity.
  - vm_compute. reflexivity.
  - vm_compute. reflexivity.
  - vm_compute. reflexivity.
Defined.

(** A cycle that relays topic 1 both ways. *)
Lemma engine_steps_between_the_relays_witness :
  exists t0 t1 t2 tp ti to,
    trace_of (@run_cycle sim (scripted small_topic)
                (InputManager_new, OutputManager_new) busy_on_time) =
      Ev_time t0 :: tp ++ ti ++ [Ev_time t1; Ev_app_update t1] ++ to ++
      [Ev_time t2; Ev_usleep (@usleep_arg sim (scripted small_topic) t0 t2)] /\
    Forall (fun e => is_parameter_call e = true) tp /\
    Forall (fun e => is_input_call e = true) ti /\
    Forall (fun e => is_output_call e = true) to.
Proof.
  apply (@engine_steps_between_the_relays sim (scripted small_topic)
           (InputManager_new, OutputManager_new) busy_on_time
           (returned_or (InputManager_new, OutputManager_new)
              (value_of (@run_cycle sim (scripted small_topic)
                           (InputManager_new, OutputManager_new) busy_on_time)))).
  vm_compute. reflexivity.
Defined.

(** A cycle that starts at 1000 and reaches its sleep at 1200. *)
Lemma cycle_within_the_interval_keeps_the_period_witness :
  exists usec,
    omap usleep_of
      (trace_of (@run_cycle sim (scripted (nominal [] []))
                   (InputManager_new, OutputManager_new) on_time)) = [usec] /\
    (0 <= usec <= LOOP_INTERVAL_US)%Z /\
    (1200 + usec = 1000 + LOOP_INTERVAL_US)%Z /\
    (1200 - 1000 = LOOP_INTERVAL_US -> usec = 0)%Z.
Proof.
  apply (@cycle_within_the_interval_keeps_the_period sim (scripted (nominal [] []))
           (InputManager_new, OutputManager_new) on_time 1000 1100 1200).
  - vm_compute. reflexivity.
  - lia.
  - lia.
  - change (14 <= 32)%Z. lia.
  - change (1200 - 1000 <= 10000)%Z. lia.
Defined.

(** A task whose engine cannot be created. *)
Lemma run_without_engine_witness :
  result_of (@run _ (scripted_task (nominal [1%N] []) nullptr) 3 two_cycles)
  = Some (Returned tt) /\
  calls_of (@run _ (scripted_task (nominal [1%N] []) nullptr) 3 two_cycles) =
    [Rv_log INFO_started; Rv_call (Ev_parameter_updated false);
     Rv_call Ev_parameter_copy; Rv_call Ev_updateParams;
     Rv_app_interface_new nullptr; Rv_log ERR_create_app].
Proof.
  apply (@run_without_engine _ (scripted_task (nominal [1%N] []) nullptr) 3 two_cycles).
  reflexivity.
Defined.

(** Two cycles that subscribe to topics 1 and 2, then the exit request. *)
Lemma run_gives_back_what_it_took_witness :
  omap released_handle (omap module_call (calls_of two_cycle_run)) ≡ₚ
    omap granted_handle (omap module_call (calls_of two_cycle_run)) /\
  exists app,
    omap app_created (calls_of two_cycle_run) = [app] /\
    omap app_freed (calls_of two_cycle_run) = (if (app =? nullptr)%N then [] else [app]).
Proof.
  apply (@run_gives_back_what_it_took _ (scripted_task (nominal [1; 2]%N [3%N]) 7)
           5 two_cycles).
  vm_compute. reflexivity.
Defined.

Lemma run_takes_a_cycle_per_refusal_witness :
  (exists n,
     count is_app_update (omap module_call (calls_of two_cycle_run)) = n /\
     count is_usleep (omap module_call (calls_of two_cycle_run)) = n /\
     (omap exit_answer (calls_of two_cycle_run) = replicate n false ++ [true] \/
      n = 0 /\ omap exit_answer (calls_of two_cycle_run) = [] /\
      omap app_created (calls_of two_cycle_run) = [nullptr])) /\
  @run _ (scripted_task (nominal [1; 2]%N [3%N]) 7) 6 two_cycles = two_cycle_run.
Proof.
  apply (@run_takes_a_cycle_per_refusal _ (scripted_task (nominal [1; 2]%N [3%N]) 7)
           5 two_cycles).
  vm_compute. reflexivity.
Defined.

(** The same run, call by call: what was taken is given back in the
    reverse order, after the engine is freed. *)
Example two_cycles_then_exit :
  omap exit_answer (calls_of two_cycle_run) = [false; false; true] /\
  omap granted_handle (omap module_call (calls_of two_cycle_run)) = [1; 2]%Z /\
  List.last (calls_of two_cycle_run) (Rv_log INFO_started)
  = Rv_call (Ev_orb_unsubscribe 1) /\
  drop (length (calls_of two_cycle_run) - 5) (calls_of two_cycle_run)
  = [Rv_should_exit true; Rv_app_interface_free 7; Rv_log INFO_stopped;
     Rv_call (Ev_orb_unsubscribe 2); Rv_call (Ev_orb_unsubscribe 1)].
Proof. vm_compute. by split_and!. Qed.

(** [module start -f -p 42] *)
Lemma instantiate_needs_clean_options_witness :
  (exists options,
     omap getopt_answer
       (calls_of (@instantiate _ scripted_shell 5 [] flag_and_param))
     = options ++ [EOF] /\
     Forall (fun ch => ch <> EOF) options /\
     (forallb accepted_option options = true ->
      omap constructed (calls_of (@instantiate _ scripted_shell 5 [] flag_and_param))
      = [9%N]) /\
     (forallb accepted_option options = false ->
      9%N = nullptr /\
      omap constructed (calls_of (@instantiate _ scripted_shell 5 [] flag_and_param))
      = []) /\
     length (List.filter is_unrecognized
               (calls_of (@instantiate _ scripted_shell 5 [] flag_and_param)))
     = length (List.filter (fun ch => negb (accepted_option ch)
                                      && negb (ch =? char_question)%Z) options)) /\
  @instantiate _ scripted_shell 6 [] flag_and_param
  = @instantiate _ scripted_shell 5 [] flag_and_param.
Proof.
  apply (@instantiate_needs_clean_options _ scripted_shell 5 [] flag_and_param 9%N).
  vm_compute. reflexivity.
Defined.

(** An option that is not known stops the module from being built, after
    the rest of the options has been read. *)
Example unknown_option_builds_nothing :
  @instantiate _ scripted_shell 5 [] [(120%Z, None); (char_f, None)]
  = (Some nullptr, [],
     [Sh_getopt 1 120; Sh_log WARN_unrecognized_flag; Sh_getopt 2 char_f;
      Sh_getopt 3 EOF]).
Proof. vm_compute. reflexivity. Qed.

(** The bytes of one cycle, on the scripted bus and engine wrapped to keep
    them: four bytes copied and written, four bytes read, advertised and
    published, each time at the front of the 1024-byte buffer. *)
Example bytes_of_one_cycle :
  (fun t => match t with
            | Copied id data => (id, take 4 data, length data)
            | Written id buffer len => (id, take 4 buffer, length buffer)
            | Read id data n => (id, take 4 data, length data)
            | Advertised id buffer => (id, take 4 buffer, length buffer)
            | Published id buffer => (id, take 4 buffer, length buffer)
            end) <$>
    (kept (@process_input_messages _ (recording (scripted small_topic))
             InputManager_new (busy, [])) ++
     kept (@process_output_messages _ (recording (scripted small_topic))
             OutputManager_new (busy, [])))
  = [(1%N, [x01; x01; x01; x01], 4); (1%N, [x01; x01; x01; x01], 1024);
     (1%N, [x02; x02; x02; x02], 4); (1%N, [x02; x02; x02; x02], 1024);
     (1%N, [x02; x02; x02; x02], 1024)].
Proof. vm_compute. reflexivity. Qed.

